(** * The asteroid field: collision geometry, overlap solver and frame loop

    A shallow embedding of the [AsteroidField] component: its physics kernel
    (convex hull, separating-axis test, label geometry, wall clamp, pairwise
    overlap solver, hit test) and what drives it (the creation of the
    bodies, the animation frame, the placement and the reveal of the labels,
    the resize callbacks, the pointer handlers), and of the frame of the
    [HyperspeedTransition] component, followed by the properties stated for
    them.

    Numbers.  A JavaScript [number] is modelled as a real number: [+], [-],
    [*], [/] are the field operations, [Math.hypot], [Math.sin], [Math.cos],
    [Math.abs], [Math.min], [Math.max], [Math.round], [Math.floor] and
    [Math.PI] are their mathematical counterparts.  Rounding, [NaN] and the
    infinities are outside the model (the one use of [Infinity], as the
    initial best overlap of the SAT loop, is an absent value).

    Effects.  The solver mutates the bodies of an array in place; the array
    is a [list Asteroid] threaded through the loops, read with [!!] and
    written with [<[i:=a]>] (the bodies of a field are distinct objects, one
    per project, so no two indices alias).  Reading [poly[0]] of an empty
    polygon raises a [TypeError]; the functions that can reach it return a
    [completion].  [window.innerWidth] and [window.devicePixelRatio] are
    parameters of the functions that read them; [Math.random()] reads a
    sequence of draws through a cursor.  The refs of the component are the
    fields of a record that the callbacks take and return; the label
    elements are a finite map from project ids to the style written to them.
    What is painted on the canvas is not modelled, except for the streaks of
    the transition.

    Evaluation.  Comparisons of reals are decided by [Rlt_dec] and the
    like, which do not reduce; on given inputs the functions are run by
    rewriting with their equations, each decision discharged by [lra]. *)

From Stdlib Require Import Reals Lra Psatz String.
From stdpp Require Import list sorting gmap strings.

Open Scope R_scope.

(** ** Completions: a value, or a thrown [TypeError] *)

Inductive completion (T : Type) : Type :=
  | Normal (v : T)
  | TypeError.
Arguments Normal {T} v.
Arguments TypeError {T}.

#[global] Instance completion_ret : MRet completion := @Normal.
#[global] Instance completion_bind : MBind completion :=
  fun _ _ f m => match m with Normal v => f v | TypeError => TypeError end.

(** ** Data *)

(** [type Pt = { x: number; y: number }]; its fields are [px] and [py]
    here, the names [x] and [y] being those of the fields of [Asteroid]. *)
Record Pt : Type := mkPt { px : R; py : R }.

(** [type MTV = { nx: number; ny: number; overlap: number }] *)
Record MTV : Type := mkMTV { nx : R; ny : R; overlap : R }.

Record Links : Type := mkLinks { github : string; demo : string }.

Record Seed : Type := mkSeed { seedX : R; seedY : R; seedSize : R; color : string }.

Record Project : Type := mkProject {
  id : string;
  name : string;
  tagline : string;
  description : string;
  tech : list string;
  links : Links;
  impact : list string;
  asteroid : Seed
}.

(** [interface Asteroid]: the label rectangle is not one of its fields. *)
Record Asteroid : Type := mkAsteroid {
  project : Project;
  x : R;
  y : R;
  size : R;
  rotation : R;
  driftX : R;
  driftY : R;
  rotationSpeed : R;
  vertices : list Pt;
  r : R
}.

(** Field assignments [a.x = v], [a.y = v], [a.driftX = v], [a.driftY = v]. *)
Definition set_x (a : Asteroid) (v : R) : Asteroid :=
  mkAsteroid (project a) v (y a) (size a) (rotation a) (driftX a) (driftY a)
             (rotationSpeed a) (vertices a) (r a).
Definition set_y (a : Asteroid) (v : R) : Asteroid :=
  mkAsteroid (project a) (x a) v (size a) (rotation a) (driftX a) (driftY a)
             (rotationSpeed a) (vertices a) (r a).
Definition set_driftX (a : Asteroid) (v : R) : Asteroid :=
  mkAsteroid (project a) (x a) (y a) (size a) (rotation a) v (driftY a)
             (rotationSpeed a) (vertices a) (r a).
Definition set_driftY (a : Asteroid) (v : R) : Asteroid :=
  mkAsteroid (project a) (x a) (y a) (size a) (rotation a) (driftX a) v
             (rotationSpeed a) (vertices a) (r a).

(** The part of [window] the code reads. *)
Record Window : Type := mkWindow { innerWidth : R }.

(** The label rectangle [{ x, y, w, h }] returned by [getLabelRect], with
    fields [rx], [ry], [rw], [rh]. *)
Record Rect : Type := mkRect { rx : R; ry : R; rw : R; rh : R }.

(** The part of [getBoundingClientRect()] that [hitTest] reads. *)
Record DOMRect : Type := mkDOMRect { left : R; top : R }.

(** ** Constants *)

Definition LABEL_GAP : R := 18.
Definition LABEL_W_DESKTOP : R := 280.
Definition LABEL_H_DESKTOP : R := 44.

(** ** Math *)

Definition hypot (a b : R) : R := sqrt (a * a + b * b).

(** ** Silhouette *)

(** [generateAsteroidVertices(size)]; [rnd] is the value drawn by
    [Math.random()], in [0, 1). *)
Definition generateAsteroidVertices (rnd : R) (size : R) : list Pt :=
  let points := 18%nat in
  let seed := rnd * PI * 2 in
  map (fun i : nat =>
         let angle := (INR i / INR points) * PI * 2 in
         let wobble :=
           0.92 + sin (angle * 2 + seed) * 0.06
                + cos (angle * 3.2 + seed * 0.7) * 0.05 in
         let rr := (size / 2) * wobble in
         mkPt (cos angle * rr) (sin angle * rr))
      (seq 0 points).

(** ** Label geometry *)

Definition getLabelDims (win : Window) : R * R :=
  let w := if Rge_dec (innerWidth win) 1024 then LABEL_W_DESKTOP else 240 in
  let h := if Rge_dec (innerWidth win) 1024 then LABEL_H_DESKTOP else 40 in
  (w, h).

Definition getLabelRect (win : Window) (a : Asteroid) : Rect :=
  let '(w, h) := getLabelDims win in
  mkRect (x a - w / 2) (y a + r a + LABEL_GAP) w h.

(** ** Convex hull (monotone chain) *)

Definition cross (o a b : Pt) : R :=
  (px a - px o) * (py b - py o) - (py a - py o) * (px b - px o).

(** The comparator [(a, b) => (a.x === b.x ? a.y - b.y : a.x - b.x)]. *)
Definition compareFn (a b : Pt) : R :=
  if Req_dec_T (px a) (px b) then py a - py b else px a - px b.

(** [Array.prototype.sort] with that comparator: a stable sort, [a] placed
    before [b] when [compareFn a b <= 0].  The comparator is a total
    preorder whose ties are equal points, so every stable sort returns the
    list that this insertion sort returns. *)
Fixpoint insertPt (a : Pt) (l : list Pt) : list Pt :=
  match l with
  | [] => [a]
  | b :: l' =>
      if Rle_dec (compareFn a b) 0 then a :: l else b :: insertPt a l'
  end.

Definition sort (l : list Pt) : list Pt := foldr insertPt [] l.

(** The arrays [lower] and [upper] are stacks: they are kept with their last
    element first, so that [push] is a cons and [pop] drops the head.

    [while (s.length >= 2 && cross(s[s.length-2], s[s.length-1], pt) <= 0)
       s.pop();] *)
Fixpoint popWhile (s : list Pt) (pt : Pt) : list Pt :=
  match s with
  | last :: ((prev :: _) as s') =>
      if Rle_dec (cross prev last pt) 0 then popWhile s' pt else s
  | _ => s
  end.

(** One turn of either [for] loop: the [while], then [s.push(pt)]. *)
Definition pushPt (s : list Pt) (pt : Pt) : list Pt := pt :: popWhile s pt.

(** A whole [for] loop over the points in the order given. *)
Definition chain (p : list Pt) : list Pt := fold_left pushPt p [].

Definition convexHull (pts : list Pt) : list Pt :=
  if (length pts <=? 3)%nat then pts
  else
    let p := sort pts in
    let lower := chain p in
    let upper := chain (reverse p) in
    (* upper.pop(); lower.pop(); return lower.concat(upper); *)
    reverse (tail lower) ++ reverse (tail upper).

(** ** Separating axis test *)

Definition dot (a b : Pt) : R := px a * px b + py a * py b.

(** [projectPoly(poly, axis)]: the pair [(min, max)]; [poly[0]] of an empty
    polygon is [undefined] and [dot] throws on it. *)
Definition projectPoly (poly : list Pt) (axis : Pt) : completion (R * R) :=
  match poly with
  | [] => TypeError
  | p0 :: rest =>
      let m := dot p0 axis in
      Normal (fold_left
                (fun (acc : R * R) (p : Pt) =>
                   let d := dot p axis in
                   let mn := if Rlt_dec d (fst acc) then d else fst acc in
                   let mx := if Rgt_dec d (snd acc) then d else snd acc in
                   (mn, mx))
                rest (m, m))
  end.

Definition normalize (v : Pt) : Pt :=
  let h := hypot (px v) (py v) in
  let len := if Req_dec_T h 0 then 1e-9 else h in
  mkPt (px v / len) (py v / len).

Definition centroid (poly : list Pt) : Pt :=
  let s := fold_left (fun (acc : R * R) (p : Pt) => (fst acc + px p, snd acc + py p))
                     poly (0, 0) in
  mkPt (fst s / INR (length poly)) (snd s / INR (length poly)).

(** The edges [(poly[i], poly[(i + 1) % poly.length])], for [i] from 0. *)
Definition edgesOf (poly : list Pt) : list (Pt * Pt) :=
  map (fun i : nat =>
         (nth i poly (mkPt 0 0),
          nth ((i + 1) mod length poly) poly (mkPt 0 0)))
      (seq 0 (length poly)).

(** The closure state [bestOverlap], [bestAxis] of [satMTV]: [None] stands
    for the initial [Infinity], [null]; the two are always assigned
    together. *)
Definition Best : Type := option (Pt * R).

(** What [testAxesFrom] reports, with the closure state it leaves behind. *)
Inductive AxesResult : Type :=
  | Separated
  | NotSeparated (best : Best).

(** The loop of [testAxesFrom(poly)] over the edges of [poly]. *)
Fixpoint testAxes (A B : list Pt) (edges : list (Pt * Pt)) (best : Best)
  : completion AxesResult :=
  match edges with
  | [] => Normal (NotSeparated best)
  | (p1, p2) :: edges' =>
      let edge := mkPt (px p2 - px p1) (py p2 - py p1) in
      let axis := normalize (mkPt (- py edge) (px edge)) in
      pA ← projectPoly A axis;
      pB ← projectPoly B axis;
      let ov := Rmin (snd pA) (snd pB) - Rmax (fst pA) (fst pB) in
      if Rle_dec ov 0 then Normal Separated
      else
        let best' :=
          match best with
          | None => Some (axis, ov)
          | Some (_, bestOverlap) =>
              if Rlt_dec ov bestOverlap then Some (axis, ov) else best
          end in
        testAxes A B edges' best'
  end.

Definition testAxesFrom (A B : list Pt) (poly : list Pt) (best : Best)
  : completion AxesResult :=
  testAxes A B (edgesOf poly) best.

Definition satMTV (A B : list Pt) : completion (option MTV) :=
  r1 ← testAxesFrom A B A None;
  match r1 with
  | Separated => Normal None
  | NotSeparated best1 =>
      r2 ← testAxesFrom A B B best1;
      match r2 with
      | Separated => Normal None
      | NotSeparated None => Normal None
      | NotSeparated (Some (bestAxis, bestOverlap)) =>
          let ac := centroid A in
          let bc := centroid B in
          let dir := mkPt (px bc - px ac) (py bc - py ac) in
          let bestAxis :=
            if Rlt_dec (dot dir bestAxis) 0
            then mkPt (- px bestAxis) (- py bestAxis) else bestAxis in
          Normal (Some (mkMTV (px bestAxis) (py bestAxis) bestOverlap))
      end
  end.

(** ** Merged collider *)

Definition asteroidWorldPoly (win : Window) (a : Asteroid) : list Pt :=
  let rad := (rotation a * PI) / 180 in
  let c := cos rad in
  let s := sin rad in
  let rock :=
    map (fun v => mkPt (x a + px v * c - py v * s) (y a + px v * s + py v * c))
        (vertices a) in
  let lr := getLabelRect win a in
  let label :=
    [ mkPt (rx lr) (ry lr);
      mkPt (rx lr + rw lr) (ry lr);
      mkPt (rx lr + rw lr) (ry lr + rh lr);
      mkPt (rx lr) (ry lr + rh lr) ] in
  convexHull (rock ++ label).

(** ** Wall bounds *)

(** The bounds [minX], [maxX], [minY], [maxY] computed at the head of
    [clampToBounds]. *)
Record Bounds : Type := mkBounds { minX : R; maxX : R; minY : R; maxY : R }.

Definition clampBounds (win : Window) (a : Asteroid) (width height : R) : Bounds :=
  let padding := 40 in
  let topBiasMaxY := height * 0.72 in
  let '(w, h) := getLabelDims win in
  let halfW := w / 2 in
  let extentX := Rmax (r a) halfW in
  let extentYTop := r a in
  let extentYBottom := r a + LABEL_GAP + h in
  let minX := padding + extentX in
  let maxX := width - padding - extentX in
  let minY := padding + extentYTop in
  let maxY := Rmax (minY + 50) (topBiasMaxY - extentYBottom) in
  mkBounds minX maxX minY maxY.

Definition clampToBounds (win : Window) (a : Asteroid) (width height : R) : Asteroid :=
  let REST := 0.98 in
  let b := clampBounds win a width height in
  let EPS := 0.35 in
  let a :=
    if Rlt_dec (x a) (minX b) then
      let pen := minX b - x a in
      let a := set_x a (minX b + pen + EPS) in
      set_driftX a (Rabs (driftX a) * REST)
    else if Rgt_dec (x a) (maxX b) then
      let pen := x a - maxX b in
      let a := set_x a (maxX b - pen - EPS) in
      set_driftX a (- Rabs (driftX a) * REST)
    else a in
  if Rlt_dec (y a) (minY b) then
    let pen := minY b - y a in
    let a := set_y a (minY b + pen + EPS) in
    set_driftY a (Rabs (driftY a) * REST)
  else if Rgt_dec (y a) (maxY b) then
    let pen := y a - maxY b in
    let a := set_y a (maxY b - pen - EPS) in
    set_driftY a (- Rabs (driftY a) * REST)
  else a.

(** ** Overlap solver *)

Definition SEP : R := 0.25.

(** The body of the pair loop once [satMTV] has returned [mtv]: positional
    correction, then bounce and light friction when the bodies are closing. *)
Definition pairCorrection (mtv : MTV) (A B : Asteroid) : Asteroid * Asteroid :=
  let nx := nx mtv in
  let ny := ny mtv in
  let push := (overlap mtv + SEP) * 0.5 in
  let A := set_x A (x A - nx * push) in
  let A := set_y A (y A - ny * push) in
  let B := set_x B (x B + nx * push) in
  let B := set_y B (y B + ny * push) in
  let rvx := driftX B - driftX A in
  let rvy := driftY B - driftY A in
  let relN := rvx * nx + rvy * ny in
  if Rlt_dec relN 0 then
    let REST := 0.97 in
    let j := - (1 + REST) * relN * 0.5 in
    let A := set_driftX A (driftX A - nx * j) in
    let A := set_driftY A (driftY A - ny * j) in
    let B := set_driftX B (driftX B + nx * j) in
    let B := set_driftY B (driftY B + ny * j) in
    let tx := - ny in
    let ty := nx in
    let relT := rvx * tx + rvy * ty in
    let FRICTION := 0.01 in
    let jt := - relT * FRICTION * 0.5 in
    let A := set_driftX A (driftX A - tx * jt) in
    let A := set_driftY A (driftY A - ty * jt) in
    let B := set_driftX B (driftX B + tx * jt) in
    let B := set_driftY B (driftY B + ty * jt) in
    (A, B)
  else (A, B).

(** The body of the [j] loop for the pair [(i, j)]. *)
Definition resolvePair (win : Window) (i j : nat) (asteroids : list Asteroid)
  : completion (list Asteroid) :=
  match asteroids !! i, asteroids !! j with
  | Some A, Some B =>
      let polyA := asteroidWorldPoly win A in
      let polyB := asteroidWorldPoly win B in
      mtv ← satMTV polyA polyB;
      match mtv with
      | None => Normal asteroids
      | Some mtv =>
          let '(A', B') := pairCorrection mtv A B in
          Normal (<[j := B']> (<[i := A']> asteroids))
      end
  | _, _ => Normal asteroids
  end.

(** A [for] loop over the indices [js], threading the array. *)
Fixpoint forEachIndex (body : nat → list Asteroid → completion (list Asteroid))
    (js : list nat) (asteroids : list Asteroid) : completion (list Asteroid) :=
  match js with
  | [] => Normal asteroids
  | j :: js' => asteroids' ← body j asteroids; forEachIndex body js' asteroids'
  end.

(** [for (i = 0; i < n; i++) for (j = i + 1; j < n; j++) ...] *)
Definition pairLoop (win : Window) (asteroids : list Asteroid)
  : completion (list Asteroid) :=
  let n := length asteroids in
  forEachIndex
    (fun i => forEachIndex (resolvePair win i) (seq (i + 1) (n - (i + 1))))
    (seq 0 n) asteroids.

(** [asteroids.forEach((a) => clampToBounds(a, width, height))] *)
Definition clampAll (win : Window) (width height : R) (asteroids : list Asteroid)
  : list Asteroid :=
  map (fun a => clampToBounds win a width height) asteroids.

Fixpoint resolveOverlaps (win : Window) (asteroids : list Asteroid)
    (width height : R) (iterations : nat) : completion (list Asteroid) :=
  match iterations with
  | O => Normal asteroids
  | S iterations' =>
      asteroids' ← pairLoop win asteroids;
      resolveOverlaps win (clampAll win width height asteroids')
                      width height iterations'
  end.

(** ** Interaction *)

(** [hitTest(clientX, clientY)]; [container] is [containerRef.current]
    (absent while the container is not mounted) and [asteroids] is
    [asteroidsRef.current]. *)
Definition hitTest (container : option DOMRect) (asteroids : list Asteroid)
    (clientX clientY : R) : option Asteroid :=
  match container with
  | None => None
  | Some rect =>
      let x0 := clientX - left rect in
      let y0 := clientY - top rect in
      find (fun a =>
              let dx := x0 - x a in
              let dy := y0 - y a in
              let dist := hypot dx dy in
              if Rlt_dec dist (r a + 12) then true else false)
           asteroids
  end.

(** [handlePointerMove]: the new value of [hoveredAsteroid]. *)
Definition handlePointerMove (container : option DOMRect) (asteroids : list Asteroid)
    (clientX clientY : R) : option string :=
  match hitTest container asteroids clientX clientY with
  | Some hit => Some (id (project hit))
  | None => None
  end.

(** [handlePointerDown]: the new value of [selectedProject]. *)
Definition handlePointerDown (container : option DOMRect) (asteroids : list Asteroid)
    (selectedProject : option Project) (clientX clientY : R) : option Project :=
  match hitTest container asteroids clientX clientY with
  | Some hit => Some (project hit)
  | None => selectedProject
  end.

(** ** Randomness *)

(** [Math.random()]: the draws are a sequence [draws], read through a cursor
    that every call advances. *)
Definition random (draws : nat → R) (k : nat) : R * nat := (draws k, S k).

(** ** State of the field *)

(** [{ width, height }]: the size [getBoundingClientRect()] reports for the
    container, and the values of [lastSizeRef] and of [lastStableSizeRef]
    (whose fields the source calls [w] and [h]). *)
Record Size : Type := mkSize { width : R; height : R }.

(** The part of the style of a label element that the code writes:
    [opacity], and the two lengths of
    [transform = `translate3d(${x}px, ${y}px, 0) translateX(-50%)`]. *)
Record LabelStyle : Type := mkLabelStyle { opacity : string; translate3d : R * R }.

(** The part of the canvas that [resizeCanvasPreserve] writes: the [width]
    and [height] attributes, the style lengths, and the scale of the
    drawing context. *)
Record Canvas : Type := mkCanvas {
  canvasWidth : R;
  canvasHeight : R;
  styleWidth : R;
  styleHeight : R;
  scale : R
}.

(** The refs of the component; [labelRefs] maps a project id to the style of
    its label element, and has no entry where the element is [null] or
    missing. *)
Record Field : Type := mkField {
  asteroidsRef : list Asteroid;
  lastSizeRef : Size;
  labelRefs : gmap string LabelStyle;
  labelsReadyRef : bool;
  stableFramesRef : nat;
  lastStableSizeRef : Size;
  canvas : Canvas
}.

(** ** Label placement *)

(** [Math.round] and [Math.floor]. *)
Definition round (v : R) : R := IZR (Zfloor (v + 0.5)).
Definition floor (v : R) : R := IZR (Zfloor v).

(** [window.devicePixelRatio || 1] *)
Definition orOne (devicePixelRatio : R) : R :=
  if Req_dec_T devicePixelRatio 0 then 1 else devicePixelRatio.

(** [snap] of [positionLabels], for its [dpr]. *)
Definition snap (dpr v : R) : R := round (v * dpr) / dpr.

(** The body of the loop of [positionLabels] for the body [a]. *)
Definition positionLabel (dpr : R) (isIOSSafari labelsReady : bool)
    (labels : gmap string LabelStyle) (a : Asteroid) : gmap string LabelStyle :=
  match labels !! id (project a) with
  | None => labels
  | Some el =>
      let x0 := x a in
      let y0 := y a + size a / 2 + LABEL_GAP in
      let x0 := if isIOSSafari then snap dpr x0 else x0 in
      let y0 := if isIOSSafari then snap dpr y0 else y0 in
      let el := if labelsReady then el else mkLabelStyle "0" (translate3d el) in
      <[id (project a) := mkLabelStyle (opacity el) (x0, y0)]> labels
  end.

Definition positionLabels (devicePixelRatio : R) (isIOSSafari labelsReady : bool)
    (asteroids : list Asteroid) (labels : gmap string LabelStyle)
  : gmap string LabelStyle :=
  let dpr := Rmax 1 (orOne devicePixelRatio) in
  fold_left (positionLabel dpr isIOSSafari labelsReady) asteroids labels.

(** ** Init asteroids *)

(** The object built for one project by the [map] of [initAsteroids]; the
    draws are taken in the order of the fields. *)
Definition spawn (draws : nat → R) (width height : R) (project : Project) (k : nat)
  : Asteroid * nat :=
  let spawnY := Rmax 0.06 (Rmin 0.45 (seedY (asteroid project) * 0.75)) in
  let size := seedSize (asteroid project) in
  let '(rot, k) := random draws k in
  let '(dx, k) := random draws k in
  let '(dy, k) := random draws k in
  let '(rs, k) := random draws k in
  let '(seed, k) := random draws k in
  (mkAsteroid project
     (seedX (asteroid project) * width)
     (spawnY * height)
     size
     (rot * 360)
     ((dx - 0.5) * 0.32)
     ((dy - 0.5) * 0.38)
     ((rs - 0.5) * 0.45)
     (generateAsteroidVertices seed size)
     (size / 2),
   k).

Fixpoint spawnAll (draws : nat → R) (width height : R) (projects : list Project) (k : nat)
  : list Asteroid * nat :=
  match projects with
  | [] => ([], k)
  | project :: projects' =>
      let '(a, k) := spawn draws width height project k in
      let '(rest, k) := spawnAll draws width height projects' k in
      (a :: rest, k)
  end.

(** [for (k = 0; k < 60; k++) { resolveOverlaps(..., 2); forEach clamp }] *)
Fixpoint preSolve (win : Window) (width height : R) (rounds : nat)
    (asteroids : list Asteroid) : completion (list Asteroid) :=
  match rounds with
  | O => Normal asteroids
  | S rounds' =>
      solved ← resolveOverlaps win asteroids width height 2;
      preSolve win width height rounds' (clampAll win width height solved)
  end.

(** [initAsteroids()]: [container] is [containerRef.current], [projectsData]
    the imported project list.  The positioning of the labels that it
    schedules for a later frame is not part of its result. *)
Definition initAsteroids (win : Window) (draws : nat → R) (container : option Size)
    (projectsData : list Project) (st : Field) (k : nat) : completion (Field * nat) :=
  match container with
  | None => Normal (st, k)
  | Some (mkSize width height) =>
      let '(newAsteroids, k) := spawnAll draws width height projectsData k in
      settled ← preSolve win width height 60 newAsteroids;
      Normal (mkField settled (mkSize width height) (labelRefs st) (labelsReadyRef st)
                      (stableFramesRef st) (lastStableSizeRef st) (canvas st), k)
  end.

(** ** Resize handling *)

Definition resizeCanvasPreserve (devicePixelRatio : R) (container : Size) (st : Field)
  : Field :=
  let dpr := Rmin (orOne devicePixelRatio) 1.5 in
  let '(mkSize width height) := container in
  let canvas := mkCanvas (floor (width * dpr)) (floor (height * dpr)) width height dpr in
  let '(mkSize prevWidth prevHeight) := lastSizeRef st in
  let asteroids :=
    if Rgt_dec prevWidth 0 then
      if Rgt_dec prevHeight 0 then
        if (0 <? length (asteroidsRef st))%nat then
          let sx := width / prevWidth in
          let sy := height / prevHeight in
          if Rge_dec (Rabs (width - prevWidth)) 2 then
            map (fun a => set_y (set_x a (x a * sx)) (y a * sy)) (asteroidsRef st)
          else asteroidsRef st
        else asteroidsRef st
      else asteroidsRef st
    else asteroidsRef st in
  let lastSize := mkSize width height in
  let '(mkSize stableW stableH) := lastStableSizeRef st in
  if Rgt_dec (Rabs (width - stableW)) 1 then
    mkField asteroids lastSize (labelRefs st) false 0 (mkSize width height) canvas
  else if Rgt_dec (Rabs (height - stableH)) 1 then
    mkField asteroids lastSize (labelRefs st) false 0 (mkSize width height) canvas
  else
    mkField asteroids lastSize (labelRefs st) (labelsReadyRef st) (stableFramesRef st)
            (lastStableSizeRef st) canvas.

(** The guard of both resize callbacks:
    [prevW !== 0 && Math.abs(width - prevW) < 2]. *)
Definition unchangedWidth (container : Size) (st : Field) : bool :=
  if Req_dec_T (width (lastSizeRef st)) 0 then false
  else if Rlt_dec (Rabs (width container - width (lastSizeRef st))) 2 then true
  else false.

Definition onViewportResize (devicePixelRatio : R) (container : Size) (st : Field)
  : Field :=
  if unchangedWidth container st then st
  else resizeCanvasPreserve devicePixelRatio container st.

(** The callback of the [ResizeObserver]. *)
Definition onContainerResize (win : Window) (draws : nat → R) (devicePixelRatio : R)
    (container : Size) (projectsData : list Project) (st : Field) (k : nat)
  : completion (Field * nat) :=
  if unchangedWidth container st then Normal (st, k)
  else
    '(st, k) ← initAsteroids win draws (Some container) projectsData st k;
    Normal (resizeCanvasPreserve devicePixelRatio container st, k).

(** ** Animation frame *)

Definition set_rotation (a : Asteroid) (v : R) : Asteroid :=
  mkAsteroid (project a) (x a) (y a) (size a) v (driftX a) (driftY a)
             (rotationSpeed a) (vertices a) (r a).

(** [a.x += a.driftX * dt; a.y += a.driftY * dt;
     a.rotation += a.rotationSpeed * dt;] *)
Definition integrate (dt : R) (a : Asteroid) : Asteroid :=
  let a := set_x a (x a + driftX a * dt) in
  let a := set_y a (y a + driftY a * dt) in
  set_rotation a (rotation a + rotationSpeed a * dt).

(** [for (const key of Object.keys(labelRefs.current)) ... opacity = '1'] *)
Definition reveal (labels : gmap string LabelStyle) : gmap string LabelStyle :=
  (fun el => mkLabelStyle "1" (translate3d el)) <$> labels.

(** The block of [animate] under [if (!prefersReducedMotion)]: integrate
    once, resolve overlaps, clamp. *)
Definition moveBodies (win : Window) (width height dt : R) (asteroids : list Asteroid)
  : completion (list Asteroid) :=
  let moved := map (integrate dt) asteroids in
  solved ← resolveOverlaps win moved width height 2;
  Normal (clampAll win width height solved).

(** One call of [animate(t)] of the asteroid field, without the drawing:
    the state of the field and the new value of [lastT]. *)
Definition animate (win : Window) (devicePixelRatio : R)
    (isIOSSafari prefersReducedMotion : bool) (container : Size)
    (t : R) (st : Field) (lastT : R) : completion (Field * R) :=
  let '(mkSize width height) := container in
  let dtMs := t - lastT in
  let dt := Rmin 2.0 (Rmax 0.5 (dtMs / 16.67)) in
  asteroids ←
    (if prefersReducedMotion then Normal (asteroidsRef st)
     else moveBodies win width height dt (asteroidsRef st));
  let labels :=
    positionLabels devicePixelRatio isIOSSafari (labelsReadyRef st) asteroids
                   (labelRefs st) in
  if labelsReadyRef st then
    Normal (mkField asteroids (lastSizeRef st) labels true (stableFramesRef st)
                    (lastStableSizeRef st) (canvas st), t)
  else
    let frames := S (stableFramesRef st) in
    if (2 <=? frames)%nat then
      Normal (mkField asteroids (lastSizeRef st) (reveal labels) true frames
                      (lastStableSizeRef st) (canvas st), t)
    else
      Normal (mkField asteroids (lastSizeRef st) labels false frames
                      (lastStableSizeRef st) (canvas st), t).

(** ** Hyperspeed transition *)

(** A star [{ x, y, z, size }] of the transition. *)
Record Star : Type := mkStar { starX : R; starY : R; starZ : R; starSize : R }.

(** What is drawn for a star in a frame: the streak from the previous to the
    current screen position, its opacity and width, and the radius of the
    point at its end. *)
Record Streak : Type := mkStreak {
  prevScreenX : R;
  prevScreenY : R;
  screenX : R;
  screenY : R;
  alpha : R;
  lineWidth : R;
  pointRadius : R
}.

Definition duration : R := 800.

(** The element built by [Array.from({ length: 300 }, ...)]. *)
Definition newStar (draws : nat → R) (width height : R) (k : nat) : Star * nat :=
  let '(d1, k) := random draws k in
  let '(d2, k) := random draws k in
  let '(d3, k) := random draws k in
  let '(d4, k) := random draws k in
  (mkStar ((d1 - 0.5) * width * 2) ((d2 - 0.5) * height * 2) (d3 * 1500 + 500) (d4 * 2 + 1),
   k).

Fixpoint createStars (draws : nat → R) (width height : R) (n : nat) (k : nat)
  : list Star * nat :=
  match n with
  | O => ([], k)
  | S n' =>
      let '(s, k) := newStar draws width height k in
      let '(rest, k) := createStars draws width height n' k in
      (s :: rest, k)
  end.

Definition progressOf (startTime currentTime : R) : R :=
  let elapsed := currentTime - startTime in
  Rmin (elapsed / duration) 1.

Definition easeProgress (progress : R) : R :=
  if Rlt_dec progress 0.3 then progress * progress * 10
  else 1 + (progress - 0.3) * 3.

(** The body of [stars.forEach] for one star: the star as it is left, and
    the streak drawn, none when the star is off the screen.  (The streak
    length that the source computes is not used by it.) *)
Definition moveStar (draws : nat → R) (width height progress : R) (star : Star) (k : nat)
  : Star * option Streak * nat :=
  let centerX := width / 2 in
  let centerY := height / 2 in
  let ease := easeProgress progress in
  let z := starZ star - ease * 80 in
  let '(star, k) :=
    if Rle_dec z 0 then
      let '(d1, k) := random draws k in
      let '(d2, k) := random draws k in
      (mkStar ((d1 - 0.5) * width * 2) ((d2 - 0.5) * height * 2) 1500 (starSize star), k)
    else (mkStar (starX star) (starY star) z (starSize star), k) in
  let perspective := 400 / starZ star in
  let sx := centerX + starX star * perspective in
  let sy := centerY + starY star * perspective in
  let prevZ := starZ star + ease * 80 in
  let prevPerspective := 400 / prevZ in
  let px0 := centerX + starX star * prevPerspective in
  let py0 := centerY + starY star * prevPerspective in
  if Rlt_dec sx (-50) then (star, None, k)
  else if Rgt_dec sx (width + 50) then (star, None, k)
  else if Rlt_dec sy (-50) then (star, None, k)
  else if Rgt_dec sy (height + 50) then (star, None, k)
  else
    let alpha := Rmin (0.3 + (1 - starZ star / 1500) * 0.7) 1 in
    (star,
     Some (mkStreak px0 py0 sx sy alpha
                    (starSize star * (0.5 + progress))
                    (starSize star * (0.5 + progress * 0.5))),
     k).

Fixpoint moveStars (draws : nat → R) (width height progress : R) (stars : list Star)
    (k : nat) : list Star * list Streak * nat :=
  match stars with
  | [] => ([], [], k)
  | star :: stars' =>
      let '(star, drawn, k) := moveStar draws width height progress star k in
      let '(rest, streaks, k) := moveStars draws width height progress stars' k in
      (star :: rest, match drawn with Some s => s :: streaks | None => streaks end, k)
  end.

(** What a frame of the transition ends with: another frame is requested,
    or the flash is drawn and [onComplete] is scheduled. *)
Inductive Next : Type := RequestFrame | Complete.

(** One call of [animate(currentTime)] of the transition. *)
Definition hyperspeedFrame (draws : nat → R) (width height startTime currentTime : R)
    (stars : list Star) (k : nat) : list Star * list Streak * nat * Next :=
  let progress := progressOf startTime currentTime in
  let '(stars, streaks, k) := moveStars draws width height progress stars k in
  (stars, streaks, k, if Rlt_dec progress 1 then RequestFrame else Complete).

(** ** Vocabulary of the statements *)

(** The candidate axis of an edge: the unit normal [testAxesFrom] builds. *)
Definition axisOf (e : Pt * Pt) : Pt :=
  normalize (mkPt (- (py e.2 - py e.1)) (px e.2 - px e.1)).

(** The projection interval of a polygon, [(0, 0)] where [projectPoly]
    throws. *)
Definition projRange (poly : list Pt) (axis : Pt) : R * R :=
  match projectPoly poly axis with
  | Normal p => p
  | TypeError => (0, 0)
  end.

(** The projection overlap of two polygons on an axis, as [testAxesFrom]
    computes it. *)
Definition axisOverlap (A B : list Pt) (axis : Pt) : R :=
  Rmin (projRange A axis).2 (projRange B axis).2
  - Rmax (projRange A axis).1 (projRange B axis).1.

(** A point, and a polygon, moved by a vector. *)
Definition movePt (t p : Pt) : Pt := mkPt (px p + px t) (py p + py t).

Definition translate (t : Pt) (poly : list Pt) : list Pt := map (movePt t) poly.

(** What the closure state of [satMTV] holds after the edges [es] have been
    tested without finding a separating axis, from the state [best]: the
    first axis of least overlap seen so far. *)
Definition bestAmong (A B : list Pt) (es : list (Pt * Pt)) (best best' : Best)
  : Prop :=
  match best' with
  | None => best = None ∧ es = []
  | Some (ax, ov) =>
      (best = Some (ax, ov) ∨
       ∃ e, e ∈ es ∧ ax = axisOf e ∧ ov = axisOverlap A B ax) ∧
      (∀ e, e ∈ es → ov <= axisOverlap A B (axisOf e)) ∧
      (∀ ax0 ov0, best = Some (ax0, ov0) → ov <= ov0)
  end.

(** The order of the sort: by [x], then by [y]. *)
Definition lexLt (a b : Pt) : Prop :=
  px a < px b ∨ (px a = px b ∧ py a < py b).

Definition lexLe (a b : Pt) : Prop := lexLt a b ∨ a = b.

(** The edges of a stack of the scan, read in array order: the stack
    [c_m :: ... :: c_1 :: c_0] has the edges [(c_k, c_k+1)]. *)
Fixpoint stackEdges (s : list Pt) : list (Pt * Pt) :=
  match s with
  | x :: ((y :: _) as s') => (y, x) :: stackEdges s'
  | _ => []
  end.

(** [q] is on the left of, or on, every edge of the stack. *)
Definition leftOfAll (s : list Pt) (q : Pt) : Prop :=
  ∀ e, e ∈ stackEdges s → 0 <= cross e.1 e.2 q.

(** The stacks the scan builds on sorted input: the points go forward in
    the order (read in array order) and every interior vertex is a strict
    left turn. *)
Inductive Chain : list Pt → Prop :=
  | Chain_nil : Chain []
  | Chain_one (x : Pt) : Chain [x]
  | Chain_two (x y : Pt) : lexLt y x → Chain [x; y]
  | Chain_cons (x y z : Pt) (s : list Pt) :
      lexLt y x → 0 < cross z y x → Chain (y :: z :: s) →
      Chain (x :: y :: z :: s).

(** The point reflection through the origin; it reverses the order and
    keeps orientations, which turns the second loop of [convexHull] into the
    first. *)
Definition neg (p : Pt) : Pt := mkPt (- px p) (- py p).

(** The turns [(poly[i], poly[(i + 1) % n], poly[(i + 2) % n])] of a
    polygon. *)
Definition turnsOf (poly : list Pt) : list (Pt * Pt * Pt) :=
  map (fun i : nat =>
         (nth i poly (mkPt 0 0),
          nth ((i + 1) mod length poly) poly (mkPt 0 0),
          nth ((i + 2) mod length poly) poly (mkPt 0 0)))
      (seq 0 (length poly)).

(** General position: the points are distinct and no three are collinear. *)
Definition generalPosition (pts : list Pt) : Prop :=
  NoDup pts ∧
  ∀ a b c, a ∈ pts → b ∈ pts → c ∈ pts → a ≠ b → b ≠ c → a ≠ c →
    cross a b c ≠ 0.

(** The sum of a quantity over the bodies of a field. *)
Definition total (f : Asteroid → R) (asteroids : list Asteroid) : R :=
  foldr (fun a acc => f a + acc) 0 asteroids.

(** The square of the speed of a body, twice its kinetic energy for a unit
    mass. *)
Definition speed2 (a : Asteroid) : R := driftX a * driftX a + driftY a * driftY a.

(** Two states of the same body: everything but position and drift agrees. *)
Definition sameBody (a a' : Asteroid) : Prop :=
  project a' = project a ∧ size a' = size a ∧ rotation a' = rotation a ∧
  rotationSpeed a' = rotationSpeed a ∧ vertices a' = vertices a ∧ r a' = r a.

(** A body inside its bounds on an axis, or outside by a penetration that the
    mirroring clamp brings back inside. *)
Definition reboundsInside (lo hi v : R) : Prop :=
  lo <= v <= hi ∨ (v < lo ∧ lo - v + 0.35 <= hi - lo) ∨ (hi < v ∧ v - hi + 0.35 <= hi - lo).

(** The silhouette in world coordinates: the points [rock] of
    [asteroidWorldPoly], which are also the points that [drawAsteroid]
    strokes. *)
Definition rockWorld (a : Asteroid) : list Pt :=
  let rad := (rotation a * PI) / 180 in
  let c := cos rad in
  let s := sin rad in
  map (fun v => mkPt (x a + px v * c - py v * s) (y a + px v * s + py v * c))
      (vertices a).

(** The corners of the label rectangle, as [asteroidWorldPoly] lists them. *)
Definition labelCorners (win : Window) (a : Asteroid) : list Pt :=
  let lr := getLabelRect win a in
  [ mkPt (rx lr) (ry lr);
    mkPt (rx lr + rw lr) (ry lr);
    mkPt (rx lr + rw lr) (ry lr + rh lr);
    mkPt (rx lr) (ry lr + rh lr) ].

(** A body with its position scaled, as [resizeCanvasPreserve] scales it. *)
Definition scaled (sx sy : R) (a : Asteroid) : Asteroid :=
  set_y (set_x a (x a * sx)) (y a * sy).

(** ** Inputs used by the examples *)

(** A project record with nothing in it, and a window at the desktop
    breakpoint. *)
Definition noProject : Project :=
  mkProject "" "" "" "" [] (mkLinks "" "") [] (mkSeed 0 0 0 "").
Definition desktop : Window := mkWindow 1280.

(** A body of radius 40 at x = 0: on a 1000 x 800 desktop viewport it is
    180 pixels to the left of its left bound; it drifts to the right
    (inward). *)
Definition leftOutside : Asteroid :=
  mkAsteroid noProject 0 300 80 0 1 0 0 [] 40.

(** The axis-aligned unit square centred at [(cx, cy)]. *)
Definition unitSquare (cx cy : R) : list Pt :=
  [ mkPt (cx - 1 / 2) (cy - 1 / 2); mkPt (cx + 1 / 2) (cy - 1 / 2);
    mkPt (cx + 1 / 2) (cy + 1 / 2); mkPt (cx - 1 / 2) (cy + 1 / 2) ].

(** Four points in general position, the first inside the triangle of the
    others. *)
Definition fourPoints : list Pt := [mkPt 2 2; mkPt 0 0; mkPt 1 4; mkPt 4 1].

(** A small body: a diamond silhouette of radius 15, not rotated. *)
Definition diamond : list Pt := [mkPt 15 0; mkPt 0 15; mkPt (-15) 0; mkPt 0 (-15)].
Definition rock (cx cy vx vy : R) : Asteroid :=
  mkAsteroid noProject cx cy 30 0 vx vy 0 diamond 15.

(** Its merged collider on a desktop window: the top of the diamond and the
    four corners of the label. *)
Definition pentagon (cx cy : R) : list Pt :=
  [ mkPt (cx - 140) (cy + 33); mkPt cx (cy - 15); mkPt (cx + 140) (cy + 33);
    mkPt (cx + 140) (cy + 77); mkPt (cx - 140) (cy + 77) ].

(** A body with a generated silhouette of size 80, in the middle of a
    1000 x 800 viewport. *)
Definition boulder : Asteroid :=
  mkAsteroid noProject 500 300 80 0 0 0 0 (generateAsteroidVertices (1 / 2) 80) 40.

(** A sequence of draws that are all 1/2, and the state of a field before
    the first frame. *)
Definition evenDraws : nat → R := fun _ => 1 / 2.
Definition emptyField : Field :=
  mkField [] (mkSize 0 0) ∅ false 0 (mkSize 0 0) (mkCanvas 0 0 0 0 0).

(** Two small bodies at rest, 400 pixels apart, on a 1000 x 800 container. *)
Definition twoRocks : Field :=
  mkField [rock 300 300 0 0; rock (300 + 400) 300 0 0] (mkSize 1000 800) ∅ false 0
          (mkSize 1000 800) (mkCanvas 1000 800 1000 800 1).

(** * Properties *)

(** ** Tactics for the decisions on reals *)

(** Case analysis on the first comparison the goal branches on; the
    impossible branch is discharged by linear arithmetic. *)
Ltac rdec_step :=
  match goal with
  | |- context [Rlt_dec ?a ?b] => destruct (Rlt_dec a b)
  | |- context [Rle_dec ?a ?b] => destruct (Rle_dec a b)
  | |- context [Rgt_dec ?a ?b] => destruct (Rgt_dec a b)
  | |- context [Rge_dec ?a ?b] => destruct (Rge_dec a b)
  | |- context [Req_dec_T ?a ?b] => destruct (Req_dec_T a b)
  end.

Ltac rdec := repeat (rdec_step; try lra; cbn [px py fst snd] in * ).

(** ** Label geometry *)

Lemma getLabelDims_cases (win : Window) :
  (innerWidth win >= 1024 ∧ getLabelDims win = (280, 44)) ∨
  (innerWidth win < 1024 ∧ getLabelDims win = (240, 40)).
Proof.
  unfold getLabelDims, LABEL_W_DESKTOP, LABEL_H_DESKTOP.
  destruct (Rge_dec (innerWidth win) 1024); [left | right]; split;
    auto; lra.
Qed.

(** C7. The label rectangle of a body has its top-left corner at
    (x - W/2, y + r + GAP) with GAP = 18, and is W x H = 280 x 44 when the
    window is at least 1024 wide and 240 x 40 otherwise.  It is a function
    of the body's current x, y and r alone (the body record has no label
    field): bodies that agree on these have the same rectangle, and moving
    the body moves the rectangle. *)
Theorem label_rect_geometry (win : Window) (a : Asteroid) :
  LABEL_GAP = 18 ∧
  (∃ W H : R,
      ((innerWidth win >= 1024 ∧ W = 280 ∧ H = 44) ∨
       (innerWidth win < 1024 ∧ W = 240 ∧ H = 40)) ∧
      getLabelRect win a = mkRect (x a - W / 2) (y a + r a + 18) W H) ∧
  (∀ b : Asteroid,
      x b = x a → y b = y a → r b = r a →
      getLabelRect win b = getLabelRect win a) ∧
  (∀ v : R,
      rx (getLabelRect win (set_x a v)) = rx (getLabelRect win a) + (v - x a) ∧
      ry (getLabelRect win (set_y a v)) = ry (getLabelRect win a) + (v - y a)).
Proof.
  split; [reflexivity |].
  unfold getLabelRect, LABEL_GAP.
  destruct (getLabelDims_cases win) as [[Hw ->] | [Hw ->]].
  - split; [exists 280, 44; split; [left |]; auto |].
    split; [intros b -> -> ->; reflexivity |].
    intros v; cbn; split; lra.
  - split; [exists 240, 40; split; [right |]; auto |].
    split; [intros b -> -> ->; reflexivity |].
    intros v; cbn; split; lra.
Qed.

(** ** Wall clamp *)

Section Clamp.
Variables (win : Window) (width height : R).

Lemma clampBounds_formulas (a : Asteroid) :
  clampBounds win a width height =
    mkBounds (40 + Rmax (r a) (fst (getLabelDims win) / 2))
             (width - 40 - Rmax (r a) (fst (getLabelDims win) / 2))
             (40 + r a)
             (Rmax (40 + r a + 50)
                   (height * 0.72 - (r a + 18 + snd (getLabelDims win)))).
Proof.
  unfold clampBounds, LABEL_GAP. destruct (getLabelDims win); reflexivity.
Qed.

Lemma clampBounds_radius (a b : Asteroid) :
  r a = r b → clampBounds win a width height = clampBounds win b width height.
Proof. intros H. rewrite !clampBounds_formulas, H. reflexivity. Qed.

Lemma clampToBounds_r (a : Asteroid) :
  r (clampToBounds win a width height) = r a.
Proof. unfold clampToBounds. rdec; reflexivity. Qed.

Lemma clampToBounds_vertices (a : Asteroid) :
  vertices (clampToBounds win a width height) = vertices a
  ∧ rotation (clampToBounds win a width height) = rotation a.
Proof. unfold clampToBounds. rdec; split; reflexivity. Qed.

(** A body within its bounds is left as it is. *)
Lemma clampToBounds_inside (a : Asteroid) :
  let b := clampBounds win a width height in
  minX b <= x a <= maxX b → minY b <= y a <= maxY b →
  clampToBounds win a width height = a.
Proof.
  intros b Hx Hy. unfold clampToBounds. fold b.
  destruct (Rlt_dec (x a) (minX b)); [lra |].
  destruct (Rgt_dec (x a) (maxX b)); [lra |].
  destruct (Rlt_dec (y a) (minY b)); [lra |].
  destruct (Rgt_dec (y a) (maxY b)); [lra |].
  reflexivity.
Qed.

(** The horizontal half of the clamp, read off the code. *)
Lemma clampToBounds_x (a : Asteroid) :
  let b := clampBounds win a width height in
  let a' := clampToBounds win a width height in
  (x a < minX b →
     x a' = minX b + (minX b - x a) + 0.35 ∧ driftX a' = Rabs (driftX a) * 0.98) ∧
  (minX b <= x a → maxX b < x a →
     x a' = maxX b - (x a - maxX b) - 0.35 ∧ driftX a' = - Rabs (driftX a) * 0.98) ∧
  (minX b <= x a <= maxX b → x a' = x a ∧ driftX a' = driftX a).
Proof.
  intros b a'. subst a'. unfold clampToBounds. fold b.
  repeat split; intros; rdec; cbn; try reflexivity; lra.
Qed.

(** The vertical half. *)
Lemma clampToBounds_y (a : Asteroid) :
  let b := clampBounds win a width height in
  let a' := clampToBounds win a width height in
  (y a < minY b →
     y a' = minY b + (minY b - y a) + 0.35 ∧ driftY a' = Rabs (driftY a) * 0.98) ∧
  (minY b <= y a → maxY b < y a →
     y a' = maxY b - (y a - maxY b) - 0.35 ∧ driftY a' = - Rabs (driftY a) * 0.98) ∧
  (minY b <= y a <= maxY b → y a' = y a ∧ driftY a' = driftY a).
Proof.
  intros b a'. subst a'. unfold clampToBounds. fold b.
  destruct (Rlt_dec (x a) (minX b)); [| destruct (Rgt_dec (x a) (maxX b))];
    cbn [x y set_x set_driftX];
    (repeat split; intros; rdec; cbn; try reflexivity; lra).
Qed.
End Clamp.

Lemma getLabelDims_desktop : getLabelDims desktop = (280, 44).
Proof.
  destruct (getLabelDims_cases desktop) as [[_ H] | [H _]]; [exact H |].
  cbn in H; lra.
Qed.

Lemma leftOutside_bounds :
  clampBounds desktop leftOutside 1000 800 = mkBounds 180 820 80 474.
Proof.
  rewrite clampBounds_formulas, getLabelDims_desktop.
  cbn [fst snd r leftOutside]. unfold Rmax. rdec; f_equal; lra.
Qed.

(** C3, as stated, fails: the body is left of the bound with inward
    (positive) drift, and after the clamp the drift is still positive,
    0.98, not -0.98. *)
Lemma wall_bounce_inward_keeps_sign :
  let b := clampBounds desktop leftOutside 1000 800 in
  let a' := clampToBounds desktop leftOutside 1000 800 in
  x leftOutside < minX b ∧ 0 < driftX leftOutside ∧
  driftX a' = 0.98 ∧ ¬ (driftX a' = - (0.98 * driftX leftOutside)) ∧
  ¬ (driftX a' < 0).
Proof.
  cbv zeta.
  assert (Hlt : x leftOutside < minX (clampBounds desktop leftOutside 1000 800))
    by (rewrite leftOutside_bounds; cbn [minX x leftOutside]; lra).
  destruct (clampToBounds_x desktop 1000 800 leftOutside) as [H _].
  destruct (H Hlt) as [_ Hd]. rewrite Hd.
  cbn [driftX leftOutside]. rewrite Rabs_right by lra.
  repeat split; lra.
Qed.

(** C3, amended.  A body left of its left bound is mirrored to the inside:
    its new x is minX + (minX - x) + 0.35, which is at least minX, and its
    drift X-component becomes |driftX| * 0.98: it points inward and its
    magnitude is scaled by the restitution factor.  Its sign is flipped when
    the drift pointed outward, and kept when it pointed inward. *)
Theorem wall_bounce_left (win : Window) (width height : R) (a : Asteroid) :
  let b := clampBounds win a width height in
  let a' := clampToBounds win a width height in
  x a < minX b →
  minX b <= x a' ∧
  x a' = minX b + (minX b - x a) + 0.35 ∧
  driftX a' = Rabs (driftX a) * 0.98 ∧
  0 <= driftX a' ∧
  Rabs (driftX a') = 0.98 * Rabs (driftX a) ∧
  (driftX a < 0 → driftX a' = - (0.98 * driftX a)) ∧
  (0 <= driftX a → driftX a' = 0.98 * driftX a).
Proof.
  intros b a' Hlt.
  destruct (clampToBounds_x win width height a) as [H _].
  destruct (H Hlt) as [Hx Hd]. fold a' in Hx, Hd. fold b in Hx.
  pose proof (Rabs_pos (driftX a)) as Hp.
  rewrite Hx, Hd.
  repeat split; try lra.
  - rewrite Rabs_right; lra.
  - intros Hneg. rewrite Rabs_left; lra.
  - intros Hpos. rewrite Rabs_right; lra.
Qed.

Lemma wall_bounce_left_witness :
  let b := clampBounds desktop leftOutside 1000 800 in
  let a' := clampToBounds desktop leftOutside 1000 800 in
  minX b <= x a' ∧
  x a' = minX b + (minX b - x leftOutside) + 0.35 ∧
  driftX a' = Rabs (driftX leftOutside) * 0.98 ∧
  0 <= driftX a' ∧
  Rabs (driftX a') = 0.98 * Rabs (driftX leftOutside) ∧
  (driftX leftOutside < 0 → driftX a' = - (0.98 * driftX leftOutside)) ∧
  (0 <= driftX leftOutside → driftX a' = 0.98 * driftX leftOutside).
Proof.
  apply (wall_bounce_left desktop 1000 800 leftOutside).
  rewrite leftOutside_bounds. cbn [minX x leftOutside]. lra.
Defined.

(** ** Pair correction *)

(** The correction touches positions and drifts only. *)
Lemma pairCorrection_shape (mtv : MTV) (A B : Asteroid) :
  let A' := fst (pairCorrection mtv A B) in
  let B' := snd (pairCorrection mtv A B) in
  (r A' = r A ∧ vertices A' = vertices A ∧ rotation A' = rotation A) ∧
  (r B' = r B ∧ vertices B' = vertices B ∧ rotation B' = rotation B).
Proof.
  cbv zeta. unfold pairCorrection. rdec; cbn; auto.
Qed.

(** The positional push: A goes back and B goes forward along the normal,
    each by half of overlap + SEP. *)
Lemma pairCorrection_position (mtv : MTV) (A B : Asteroid) :
  let A' := fst (pairCorrection mtv A B) in
  let B' := snd (pairCorrection mtv A B) in
  let push := (overlap mtv + SEP) * 0.5 in
  x A' = x A - nx mtv * push ∧ y A' = y A - ny mtv * push ∧
  x B' = x B + nx mtv * push ∧ y B' = y B + ny mtv * push.
Proof.
  cbv zeta. unfold pairCorrection. rdec; cbn; auto.
Qed.

(** C9. Whatever the MTV, the pair correction (positional push, normal
    impulse, tangential friction) leaves the sum of the two positions and
    the sum of the two drift velocities unchanged. *)
Theorem pair_correction_conserves_sums (mtv : MTV) (A B : Asteroid) :
  let A' := fst (pairCorrection mtv A B) in
  let B' := snd (pairCorrection mtv A B) in
  x A' + x B' = x A + x B ∧
  y A' + y B' = y A + y B ∧
  driftX A' + driftX B' = driftX A + driftX B ∧
  driftY A' + driftY B' = driftY A + driftY B.
Proof.
  cbv zeta. unfold pairCorrection.
  destruct (Rlt_dec _ 0); cbn; repeat split; ring.
Qed.

(** ** Hit test *)

(** The test of the loop body of [hitTest], for a pointer at [(x0, y0)] in
    container coordinates. *)
Lemma hitTest_find (rect : DOMRect) (asteroids : list Asteroid) (cx cy : R) :
  hitTest (Some rect) asteroids cx cy =
    find (fun a => if Rlt_dec (hypot (cx - left rect - x a) (cy - top rect - y a))
                              (r a + 12) then true else false) asteroids.
Proof. reflexivity. Qed.

(** C8. With the container mounted, [hitTest] returns the first body, in
    array order, whose centre is at Euclidean distance strictly less than
    r + 12 from the pointer (in container coordinates): it is at some index
    i, it satisfies the test and no body at an earlier index does.  It
    returns none exactly when no body satisfies the test.  (Before the
    container is mounted there are no container coordinates, and it returns
    none.) *)
Theorem hit_test_first_match (rect : DOMRect) (asteroids : list Asteroid)
    (clientX clientY : R) :
  let dist := fun a : Asteroid =>
    sqrt ((clientX - left rect - x a) * (clientX - left rect - x a)
          + (clientY - top rect - y a) * (clientY - top rect - y a)) in
  match hitTest (Some rect) asteroids clientX clientY with
  | Some a =>
      ∃ i : nat, asteroids !! i = Some a ∧ dist a < r a + 12 ∧
        ∀ (j : nat) (b : Asteroid),
          (j < i)%nat → asteroids !! j = Some b → ¬ (dist b < r b + 12)
  | None =>
      ∀ b : Asteroid, b ∈ asteroids → ¬ (dist b < r b + 12)
  end ∧
  hitTest None asteroids clientX clientY = None.
Proof.
  intros dist. split; [| reflexivity]. rewrite hitTest_find.
  induction asteroids as [| a0 l IH]; cbn [find].
  - intros b Hb. inversion Hb.
  - fold (hypot (clientX - left rect - x a0) (clientY - top rect - y a0)).
    destruct (Rlt_dec _ (r a0 + 12)) as [Hhit | Hmiss].
    + exists 0%nat. split; [reflexivity |]. split; [exact Hhit |].
      intros j b Hj. lia.
    + destruct (find _ l) as [a |].
      * destruct IH as (i & Hi & Hd & Hfirst).
        exists (S i). split; [exact Hi |]. split; [exact Hd |].
        intros [| j] b Hj Hb.
        -- cbn in Hb. injection Hb as <-. exact Hmiss.
        -- apply (Hfirst j b); [lia | exact Hb].
      * intros b Hb. apply elem_of_cons in Hb as [-> | Hb];
          [exact Hmiss | exact (IH b Hb)].
Qed.

(** ** Silhouette *)

(** Numerals hidden under [INR] are made literal. *)
Ltac inr_consts H :=
  repeat match type of H with
  | context [INR ?n] =>
      let z := eval vm_compute in (Z.of_nat n) in
      replace (INR n) with (IZR z) in H
        by (rewrite INR_IZR_INZ; apply f_equal; vm_compute; reflexivity)
  end.

Lemma sin_1_lb : 0.84 <= sin 1.
Proof.
  assert (H : 0 <= 1 <= PI) by (pose proof PI2_3_2; lra).
  destruct (SIN 1 (proj1 H) (proj2 H)) as [Hlb _].
  unfold sin_lb, sin_approx, sin_term in Hlb. cbn [sum_f_R0] in Hlb.
  inr_consts Hlb. cbn [pow Nat.mul Nat.add] in Hlb.
  lra.
Qed.

Lemma cos_07_lb : 0.76 <= cos 0.7.
Proof.
  assert (H : - PI / 2 <= 0.7 <= PI / 2) by (pose proof PI2_3_2; lra).
  destruct (COS 0.7 (proj1 H) (proj2 H)) as [Hlb _].
  unfold cos_lb, cos_approx, cos_term in Hlb. cbn [sum_f_R0] in Hlb.
  inr_consts Hlb. cbn [pow Nat.mul Nat.add] in Hlb.
  lra.
Qed.

Lemma hypot_polar (a rr : R) :
  0 <= rr → sqrt (cos a * rr * (cos a * rr) + sin a * rr * (sin a * rr)) = rr.
Proof.
  intros Hrr.
  replace (cos a * rr * (cos a * rr) + sin a * rr * (sin a * rr))
    with (rr * rr).
  - apply sqrt_square, Hrr.
  - pose proof (sin2_cos2 a) as H. unfold Rsqr in H.
    replace (cos a * rr * (cos a * rr) + sin a * rr * (sin a * rr))
      with ((sin a * sin a + cos a * cos a) * (rr * rr)) by ring.
    rewrite H. ring.
Qed.

Lemma wobble_bounds (s c : R) :
  0.81 <= 0.92 + sin s * 0.06 + cos c * 0.05 <= 1.03.
Proof.
  pose proof (SIN_bound s). pose proof (COS_bound c). lra.
Qed.

Lemma generateAsteroidVertices_elem (rnd size : R) (v : Pt) :
  v ∈ generateAsteroidVertices rnd size ↔
  ∃ i : nat, (i < 18)%nat ∧
    let angle := (INR i / INR 18) * PI * 2 in
    let wobble := 0.92 + sin (angle * 2 + rnd * PI * 2) * 0.06
                  + cos (angle * 3.2 + rnd * PI * 2 * 0.7) * 0.05 in
    v = mkPt (cos angle * (size / 2 * wobble)) (sin angle * (size / 2 * wobble)).
Proof.
  unfold generateAsteroidVertices. rewrite list_elem_of_fmap.
  split.
  - intros (i & -> & Hi). apply elem_of_seq in Hi. exists i. split; [lia | reflexivity].
  - intros (i & Hi & ->). exists i. split; [reflexivity |]. apply elem_of_seq. lia.
Qed.

(** C10. For every size > 0 and every random draw, the silhouette has 18
    vertices and each lies at a distance from the local origin between
    0.81 * (size / 2) and 1.03 * (size / 2).  The upper part of the range is
    reached beyond the collision circle: for the draw 1 / (2 pi) the first
    vertex is farther than size / 2 from the origin, and for size 4000 it is
    farther than size / 2 + 12, the radius used by the hit test. *)
Theorem silhouette_radius_bound (rnd size : R) :
  0 < size →
  length (generateAsteroidVertices rnd size) = 18%nat ∧
  (∀ v : Pt, v ∈ generateAsteroidVertices rnd size →
     0.81 * (size / 2) <= sqrt (px v * px v + py v * py v) <= 1.03 * (size / 2)) ∧
  (∃ (rnd0 : R) (v0 : Pt),
     0 <= rnd0 < 1 ∧ v0 ∈ generateAsteroidVertices rnd0 size ∧
     size / 2 < sqrt (px v0 * px v0 + py v0 * py v0)) ∧
  (∃ (rnd0 size0 : R) (v0 : Pt),
     0 <= rnd0 < 1 ∧ 0 < size0 ∧ v0 ∈ generateAsteroidVertices rnd0 size0 ∧
     size0 / 2 + 12 < sqrt (px v0 * px v0 + py v0 * py v0)).
Proof.
  intros Hsize.
  assert (Hout : ∀ s : R, 0 < s →
            ∃ v0 : Pt, v0 ∈ generateAsteroidVertices (/ (2 * PI)) s ∧
              1.008 * (s / 2) <= sqrt (px v0 * px v0 + py v0 * py v0)).
  { intros s Hs.
    eexists. split.
    - apply generateAsteroidVertices_elem. exists 0%nat. split; [lia | reflexivity].
    - cbn [px py].
      assert (HPI : PI <> 0) by (pose proof PI_RGT_0; lra).
      replace (INR 0 / INR 18 * PI * 2) with 0
        by (change (INR 0) with 0; unfold Rdiv; ring).
      replace (0 * 2 + / (2 * PI) * PI * 2) with 1 by (field; exact HPI).
      replace (0 * 3.2 + / (2 * PI) * PI * 2 * 0.7) with 0.7 by (field; exact HPI).
      pose proof sin_1_lb as Hs1. pose proof cos_07_lb as Hc1.
      assert (Hw : 1.008 <= 0.92 + sin 1 * 0.06 + cos 0.7 * 0.05) by lra.
      assert (Hm : 1.008 * (s / 2) <= s / 2 * (0.92 + sin 1 * 0.06 + cos 0.7 * 0.05)).
      { rewrite (Rmult_comm 1.008). apply Rmult_le_compat_l; lra. }
      rewrite hypot_polar; lra. }
  assert (Hrnd : 0 <= / (2 * PI) < 1).
  { pose proof PI2_3_2 as HP.
    assert (0 < / (2 * PI)) by (apply Rinv_0_lt_compat; lra).
    split; [lra |].
    rewrite <- Rinv_1. apply Rinv_lt_contravar; lra. }
  split; [| split; [| split]].
  - unfold generateAsteroidVertices. rewrite length_map, length_seq. reflexivity.
  - intros v Hv. apply generateAsteroidVertices_elem in Hv as (i & _ & ->).
    cbn [px py].
    match goal with |- context [size / 2 * ?w] => 
      assert (Hw : 0.81 <= w <= 1.03) by apply wobble_bounds;
      assert (Hlo : 0.81 * (size / 2) <= size / 2 * w)
        by (rewrite (Rmult_comm 0.81); apply Rmult_le_compat_l; lra);
      assert (Hhi : size / 2 * w <= 1.03 * (size / 2))
        by (rewrite (Rmult_comm 1.03); apply Rmult_le_compat_l; lra);
      rewrite hypot_polar; lra end.
  - destruct (Hout size Hsize) as (v0 & Hv0 & Hd).
    exists (/ (2 * PI)), v0. repeat split; try tauto. nra.
  - destruct (Hout 4000 ltac:(lra)) as (v0 & Hv0 & Hd).
    exists (/ (2 * PI)), 4000, v0. repeat split; try tauto; lra.
Qed.

Lemma silhouette_radius_bound_witness :
  length (generateAsteroidVertices (1 / 2) 80) = 18%nat ∧
  (∀ v : Pt, v ∈ generateAsteroidVertices (1 / 2) 80 →
     0.81 * (80 / 2) <= sqrt (px v * px v + py v * py v) <= 1.03 * (80 / 2)) ∧
  (∃ (rnd0 : R) (v0 : Pt),
     0 <= rnd0 < 1 ∧ v0 ∈ generateAsteroidVertices rnd0 80 ∧
     80 / 2 < sqrt (px v0 * px v0 + py v0 * py v0)) ∧
  (∃ (rnd0 size0 : R) (v0 : Pt),
     0 <= rnd0 < 1 ∧ 0 < size0 ∧ v0 ∈ generateAsteroidVertices rnd0 size0 ∧
     size0 / 2 + 12 < sqrt (px v0 * px v0 + py v0 * py v0)).
Proof.
  apply (silhouette_radius_bound (1 / 2) 80). lra.
Defined.

(** ** Projections *)

Section Projection.
Variable axis : Pt.

Let step (acc : R * R) (p : Pt) : R * R :=
  let d := dot p axis in
  (if Rlt_dec d acc.1 then d else acc.1, if Rgt_dec d acc.2 then d else acc.2).

Lemma projectPoly_cons (p0 : Pt) (rest : list Pt) :
  projectPoly (p0 :: rest) axis =
    Normal (fold_left step rest (dot p0 axis, dot p0 axis)).
Proof. reflexivity. Qed.

Lemma project_fold_range (rest : list Pt) (mn mx : R) :
  mn <= mx →
  let res := fold_left step rest (mn, mx) in
  res.1 <= mn ∧ mx <= res.2 ∧
  (∀ p, p ∈ rest → res.1 <= dot p axis <= res.2) ∧
  (res.1 = mn ∨ ∃ p, p ∈ rest ∧ dot p axis = res.1) ∧
  (res.2 = mx ∨ ∃ p, p ∈ rest ∧ dot p axis = res.2).
Proof.
  revert mn mx. induction rest as [| q rest IH]; intros mn mx Hle; cbn [fold_left].
  - cbn. split_and!; try lra; auto. intros p Hp. inversion Hp.
  - set (acc := step (mn, mx) q).
    assert (Hacc : acc.1 <= mn ∧ mx <= acc.2 ∧ acc.1 <= dot q axis <= acc.2 ∧
                   (acc.1 = mn ∨ acc.1 = dot q axis) ∧
                   (acc.2 = mx ∨ acc.2 = dot q axis)).
    { subst acc. unfold step. cbn [fst snd].
      destruct (Rlt_dec (dot q axis) mn), (Rgt_dec (dot q axis) mx);
        split_and!; auto; lra. }
    destruct Hacc as (H1 & H2 & H3 & H4 & H5).
    destruct acc as [mn' mx'] eqn:Eacc. cbn [fst snd] in *.
    specialize (IH mn' mx' ltac:(lra)). cbv zeta in IH.
    destruct IH as (I1 & I2 & I3 & I4 & I5).
    cbv zeta. split_and!; try lra.
    + intros p Hp. apply elem_of_cons in Hp as [-> | Hp]; [lra | apply I3, Hp].
    + destruct I4 as [E | (p & Hp & E)].
      * destruct H4 as [E' | E']; [left; lra |].
        right. exists q. split; [apply elem_of_cons; auto | lra].
      * right. exists p. split; [apply elem_of_cons; auto | exact E].
    + destruct I5 as [E | (p & Hp & E)].
      * destruct H5 as [E' | E']; [left; lra |].
        right. exists q. split; [apply elem_of_cons; auto | lra].
      * right. exists p. split; [apply elem_of_cons; auto | exact E].
Qed.

(** On a polygon with a vertex, [projectPoly] returns the least and the
    greatest projection of its vertices. *)
Lemma projectPoly_range (poly : list Pt) :
  poly ≠ [] →
  projectPoly poly axis = Normal (projRange poly axis) ∧
  (∀ p, p ∈ poly → (projRange poly axis).1 <= dot p axis <= (projRange poly axis).2) ∧
  (∃ p, p ∈ poly ∧ dot p axis = (projRange poly axis).1) ∧
  (∃ p, p ∈ poly ∧ dot p axis = (projRange poly axis).2).
Proof.
  destruct poly as [| p0 rest]; [congruence | intros _].
  unfold projRange. rewrite projectPoly_cons.
  destruct (project_fold_range rest (dot p0 axis) (dot p0 axis) ltac:(lra))
    as (H1 & H2 & H3 & H4 & H5).
  split; [reflexivity |]. split; [| split].
  - intros p Hp. apply elem_of_cons in Hp as [-> | Hp]; [lra | apply H3, Hp].
  - destruct H4 as [E | (p & Hp & E)].
    + exists p0. split; [apply elem_of_cons; auto | lra].
    + exists p. split; [apply elem_of_cons; auto | exact E].
  - destruct H5 as [E | (p & Hp & E)].
    + exists p0. split; [apply elem_of_cons; auto | lra].
    + exists p. split; [apply elem_of_cons; auto | exact E].
Qed.

(** The interval is determined by these properties. *)
Lemma projRange_unique (poly : list Pt) (lo hi : R) :
  (∀ p, p ∈ poly → lo <= dot p axis <= hi) →
  (∃ p, p ∈ poly ∧ dot p axis = lo) →
  (∃ p, p ∈ poly ∧ dot p axis = hi) →
  projRange poly axis = (lo, hi).
Proof.
  intros Hall (pl & Hpl & El) (ph & Hph & Eh).
  assert (Hne : poly ≠ []) by (intros ->; inversion Hpl).
  destruct (projectPoly_range poly Hne) as (_ & Hr & (ql & Hql & Fl) & (qh & Hqh & Fh)).
  destruct (projRange poly axis) as [mn mx]. cbn [fst snd] in *.
  pose proof (Hr pl Hpl). pose proof (Hr ph Hph).
  pose proof (Hall ql Hql). pose proof (Hall qh Hqh).
  f_equal; lra.
Qed.

Lemma projRange_le (poly : list Pt) :
  poly ≠ [] → (projRange poly axis).1 <= (projRange poly axis).2.
Proof.
  intros Hne. destruct (projectPoly_range poly Hne) as (_ & Hr & (p & Hp & _) & _).
  pose proof (Hr p Hp). lra.
Qed.
End Projection.

(** ** The loop over candidate axes *)

Section Axes.
Variables A B : list Pt.
Hypothesis HA : A ≠ [].
Hypothesis HB : B ≠ [].

Lemma testAxes_cons (e : Pt * Pt) (es : list (Pt * Pt)) (best : Best) :
  testAxes A B (e :: es) best =
    let ov := axisOverlap A B (axisOf e) in
    if Rle_dec ov 0 then Normal Separated
    else testAxes A B es
           match best with
           | None => Some (axisOf e, ov)
           | Some (_, bestOverlap) =>
               if Rlt_dec ov bestOverlap then Some (axisOf e, ov) else best
           end.
Proof.
  destruct e as [p1 p2]. cbn [testAxes px py].
  change (normalize _) with (axisOf (p1, p2)).
  destruct (projectPoly_range (axisOf (p1, p2)) A HA) as [-> _].
  destruct (projectPoly_range (axisOf (p1, p2)) B HB) as [-> _].
  reflexivity.
Qed.

Lemma testAxes_spec (es : list (Pt * Pt)) (best : Best) :
  ∃ res, testAxes A B es best = Normal res ∧
    match res with
    | Separated => ∃ e, e ∈ es ∧ axisOverlap A B (axisOf e) <= 0
    | NotSeparated best' =>
        (∀ e, e ∈ es → 0 < axisOverlap A B (axisOf e)) ∧
        bestAmong A B es best best'
    end.
Proof.
  revert best. induction es as [| e es IH]; intros best.
  - exists (NotSeparated best). split; [reflexivity |]. split.
    + intros e He. inversion He.
    + unfold bestAmong. destruct best as [[ax ov] |]; [| auto].
      split_and!; [left; reflexivity | intros e He; inversion He |].
      intros ax0 ov0 [= <- <-]. lra.
  - rewrite testAxes_cons. cbv zeta.
    destruct (Rle_dec (axisOverlap A B (axisOf e)) 0) as [Hsep | Hpos].
    { exists Separated. split; [reflexivity |]. exists e. split; [left | exact Hsep]. }
    match goal with |- context [testAxes A B es ?b] => set (b1 := b) end.
    destruct (IH b1) as (res & Hres & Hspec). exists res. split; [exact Hres |].
    destruct res as [| best'].
    { destruct Hspec as (e' & He' & Hle). exists e'. split; [right; exact He' | exact Hle]. }
    destruct Hspec as [Hall Hbest]. split.
    { intros e' He'. apply elem_of_cons in He' as [-> | He']; [lra | apply Hall, He']. }
    unfold bestAmong in *. destruct best' as [[ax ov] |].
    2: { destruct Hbest as [Hb1 _]. subst b1. destruct best as [[? ?] |]; [| discriminate].
         destruct (Rlt_dec _ _); discriminate. }
    destruct Hbest as (Hfrom & Hmin & Hle1).
    assert (Hb1 : ∃ ax1 ov1, b1 = Some (ax1, ov1) ∧ ov1 <= axisOverlap A B (axisOf e) ∧
               (∀ ax0 ov0, best = Some (ax0, ov0) → ov1 <= ov0) ∧
               (best = Some (ax1, ov1) ∨
                (ax1 = axisOf e ∧ ov1 = axisOverlap A B (axisOf e)))).
    { subst b1. destruct best as [[ax0 ov0] |].
      - destruct (Rlt_dec (axisOverlap A B (axisOf e)) ov0).
        + eexists _, _. split_and!; [reflexivity | lra | | right; auto].
          intros ? ? [= <- <-]. lra.
        + exists ax0, ov0. split_and!; [reflexivity | lra | | left; reflexivity].
          intros ? ? [= <- <-]. lra.
      - eexists _, _. split_and!; [reflexivity | lra | | right; auto]. discriminate. }
    destruct Hb1 as (ax1 & ov1 & Eb1 & Hov1 & Hle0 & Hsrc).
    pose proof (Hle1 ax1 ov1 Eb1) as Hle.
    split_and!.
    + destruct Hfrom as [E | (e' & He' & Eax & Eov)].
      * rewrite Eb1 in E. injection E as <- <-.
        destruct Hsrc as [Hs | [Hs1 Hs2]]; [left; exact Hs |].
        right. exists e. split; [left |]. split; [exact Hs1 | rewrite Hs1; exact Hs2].
      * right. exists e'. split; [right; exact He' | auto].
    + intros e' He'. apply elem_of_cons in He' as [-> | He']; [lra | apply Hmin, He'].
    + intros ax0 ov0 E0. specialize (Hle0 ax0 ov0 E0). lra.
Qed.
End Axes.

(** ** Edges *)

Lemma length_edgesOf (poly : list Pt) : length (edgesOf poly) = length poly.
Proof. unfold edgesOf. rewrite length_map, length_seq. reflexivity. Qed.

Lemma edgesOf_nonempty (poly : list Pt) : poly ≠ [] → edgesOf poly ≠ [].
Proof.
  intros Hne He. apply (f_equal length) in He. rewrite length_edgesOf in He.
  destruct poly; [congruence | discriminate].
Qed.

Lemma elem_of_edgesOf (poly : list Pt) (e : Pt * Pt) :
  e ∈ edgesOf poly ↔
  ∃ i : nat, (i < length poly)%nat ∧
    e = (nth i poly (mkPt 0 0), nth ((i + 1) mod length poly) poly (mkPt 0 0)).
Proof.
  unfold edgesOf. rewrite list_elem_of_fmap. split.
  - intros (i & -> & Hi). apply elem_of_seq in Hi. exists i. split; [lia | reflexivity].
  - intros (i & Hi & ->). exists i. split; [reflexivity | apply elem_of_seq; lia].
Qed.

Lemma edgesOf_endpoints (poly : list Pt) (e : Pt * Pt) :
  e ∈ edgesOf poly → e.1 ∈ poly ∧ e.2 ∈ poly.
Proof.
  intros He. apply elem_of_edgesOf in He as (i & Hi & ->). cbn [fst snd].
  split; apply list_elem_of_In, nth_In; [exact Hi |].
  apply Nat.mod_upper_bound. lia.
Qed.

(** ** The separating axis test *)

Section SAT.
Variables A B : list Pt.
Hypothesis HA : A ≠ [].
Hypothesis HB : B ≠ [].

(** What [satMTV] returns on polygons that have a vertex each: none exactly
    when some edge normal of either polygon has zero or negative overlap;
    otherwise the first edge normal of least overlap, turned so that it
    points from the centroid of [A] to that of [B]. *)
Lemma satMTV_spec :
  let dir := mkPt (px (centroid B) - px (centroid A))
                  (py (centroid B) - py (centroid A)) in
  ∃ res, satMTV A B = Normal res ∧
    match res with
    | None =>
        ∃ e, e ∈ edgesOf A ++ edgesOf B ∧ axisOverlap A B (axisOf e) <= 0
    | Some m =>
        (∀ e, e ∈ edgesOf A ++ edgesOf B →
           0 < axisOverlap A B (axisOf e) ∧
           overlap m <= axisOverlap A B (axisOf e)) ∧
        (∃ e, e ∈ edgesOf A ++ edgesOf B ∧
           overlap m = axisOverlap A B (axisOf e) ∧
           ((0 <= dot dir (axisOf e) ∧
             nx m = px (axisOf e) ∧ ny m = py (axisOf e)) ∨
            (dot dir (axisOf e) < 0 ∧
             nx m = - px (axisOf e) ∧ ny m = - py (axisOf e)))) ∧
        0 <= dot dir (mkPt (nx m) (ny m))
    end.
Proof.
  intros dir. unfold satMTV, testAxesFrom.
  destruct (testAxes_spec A B HA HB (edgesOf A) None) as (r1 & -> & H1).
  cbn [mbind completion_bind].
  destruct r1 as [| best1].
  { exists None. split; [reflexivity |].
    destruct H1 as (e & He & Hle). exists e. split; [| exact Hle].
    apply elem_of_app. left. exact He. }
  destruct H1 as [Hall1 Hbest1].
  destruct (testAxes_spec A B HA HB (edgesOf B) best1) as (r2 & -> & H2).
  cbn [mbind completion_bind].
  destruct r2 as [| best2].
  { exists None. split; [reflexivity |].
    destruct H2 as (e & He & Hle). exists e. split; [| exact Hle].
    apply elem_of_app. right. exact He. }
  destruct H2 as [Hall2 Hbest2].
  destruct best2 as [[ax ov] |].
  2: { destruct Hbest2 as [_ HeB]. exfalso. revert HeB. apply edgesOf_nonempty, HB. }
  fold dir.
  eexists (Some _). split; [reflexivity |]. cbn [overlap nx ny].
  unfold bestAmong in Hbest1, Hbest2.
  destruct Hbest2 as (Hfrom2 & Hmin2 & Hle2).
  assert (Hsrc : ∃ e, e ∈ edgesOf A ++ edgesOf B ∧ ax = axisOf e ∧
                      ov = axisOverlap A B (axisOf e)).
  { destruct Hfrom2 as [E | (e & He & Eax & Eov)].
    - subst best1. destruct Hbest1 as ([E | (e & He & Eax & Eov)] & _); [discriminate |].
      exists e. split; [apply elem_of_app; left; exact He |]. subst ax. auto.
    - exists e. split; [apply elem_of_app; right; exact He |]. subst ax. auto. }
  assert (Hmin : ∀ e, e ∈ edgesOf A ++ edgesOf B → ov <= axisOverlap A B (axisOf e)).
  { intros e He. apply elem_of_app in He as [He | He]; [| apply Hmin2, He].
    destruct best1 as [[ax1 ov1] |].
    - destruct Hbest1 as (_ & Hmin1 & _).
      specialize (Hle2 ax1 ov1 eq_refl). specialize (Hmin1 e He). lra.
    - destruct Hbest1 as [_ HeA]. rewrite HeA in He. inversion He. }
  split_and!.
  - intros e He. split; [| apply Hmin, He].
    apply elem_of_app in He as [He | He]; [apply Hall1, He | apply Hall2, He].
  - destruct Hsrc as (e & He & -> & Eov). exists e. split; [exact He |].
    split; [exact Eov |].
    destruct (Rlt_dec (dot dir (axisOf e)) 0) as [Hneg | Hpos]; cbn [px py].
    + right. auto.
    + left. split; [lra | auto].
  - destruct (Rlt_dec (dot dir ax) 0) as [Hneg | Hpos]; cbn [px py].
    + unfold dot in *. cbn [px py] in *. lra.
    + destruct ax as [ax1 ax2]; cbn [px py]. lra.
Qed.

Lemma satMTV_total : ∃ res, satMTV A B = Normal res.
Proof. destruct satMTV_spec as (res & H & _). exists res. exact H. Qed.

(** A separating edge normal makes [satMTV] return none. *)
Lemma satMTV_separated (e : Pt * Pt) :
  e ∈ edgesOf A ++ edgesOf B → axisOverlap A B (axisOf e) <= 0 →
  satMTV A B = Normal None.
Proof.
  intros He Hle. destruct satMTV_spec as (res & -> & Hres).
  destruct res as [m |]; [| reflexivity].
  destruct Hres as (Hall & _). destruct (Hall e He) as [Hpos _]. lra.
Qed.

(** Overlap on every edge normal makes it return a vector. *)
Lemma satMTV_overlapping :
  (∀ e, e ∈ edgesOf A ++ edgesOf B → 0 < axisOverlap A B (axisOf e)) →
  ∃ m, satMTV A B = Normal (Some m).
Proof.
  intros Hall. destruct satMTV_spec as (res & -> & Hres).
  destruct res as [m |]; [exists m; reflexivity |].
  destruct Hres as (e & He & Hle). specialize (Hall e He). lra.
Qed.
End SAT.

(** Whenever [satMTV] returns a vector, it points from the centroid of [A]
    toward the centroid of [B]. *)
Lemma satMTV_direction (A B : list Pt) (m : MTV) :
  satMTV A B = Normal (Some m) →
  0 <= dot (mkPt (px (centroid B) - px (centroid A))
                 (py (centroid B) - py (centroid A)))
           (mkPt (nx m) (ny m)).
Proof.
  unfold satMTV. generalize (centroid A), (centroid B). intros cA cB.
  destruct (testAxesFrom A B A None) as [[| best1] |]; cbn [mbind completion_bind];
    try discriminate.
  destruct (testAxesFrom A B B best1) as [[| [[ax ov] |]] |];
    cbn [mbind completion_bind]; try discriminate.
  intros [= <-]. cbn [nx ny].
  destruct (Rlt_dec _ 0) as [Hneg | Hpos]; cbn [px py].
  - unfold dot in *. cbn [px py] in *. lra.
  - destruct ax as [ax1 ax2]; cbn [px py]. lra.
Qed.

Lemma satMTV_nonempty (A B : list Pt) (m : MTV) :
  satMTV A B = Normal (Some m) → A ≠ [] ∧ B ≠ [].
Proof.
  intros H. destruct A as [| a0 A'].
  - exfalso. unfold satMTV, testAxesFrom in H.
    change (edgesOf []) with (@nil (Pt * Pt)) in H.
    cbn [testAxes mbind completion_bind] in H.
    destruct (edgesOf B) as [| [p1 p2] es]; [discriminate |].
    cbn [testAxes projectPoly mbind completion_bind] in H. discriminate.
  - split; [discriminate |]. intros ->.
    unfold satMTV, testAxesFrom in H.
    destruct (edgesOf (a0 :: A')) as [| [p1 p2] es] eqn:E.
    + apply (f_equal length) in E. rewrite length_edgesOf in E. discriminate.
    + cbn [testAxes] in H. rewrite projectPoly_cons in H.
      cbn [mbind completion_bind projectPoly] in H. discriminate.
Qed.

(** ** Points *)

Lemma Pt_eq (a b : Pt) : px a = px b → py a = py b → a = b.
Proof. destruct a, b; cbn; intros -> ->; reflexivity. Qed.

(** ** Planar facts behind the monotone chain *)

Section Plane.
Implicit Types a b c p q u v : Pt.

Lemma cross_cyclic o a b : cross o a b = cross a b o.
Proof. unfold cross. ring. Qed.

Lemma cross_swap o a b : cross o b a = - cross o a b.
Proof. unfold cross. ring. Qed.

Lemma cross_same_l o a : cross o o a = 0.
Proof. unfold cross. ring. Qed.

Lemma cross_same_r o a : cross o a a = 0.
Proof. unfold cross. ring. Qed.

Lemma cross_same_m o a : cross o a o = 0.
Proof. unfold cross. ring. Qed.

Lemma lexLt_irrefl a : ¬ lexLt a a.
Proof. unfold lexLt. lra. Qed.

Lemma lexLt_trans a b c : lexLt a b → lexLt b c → lexLt a c.
Proof. unfold lexLt. lra. Qed.

Lemma lexLt_le_trans a b c : lexLt a b → lexLe b c → lexLt a c.
Proof. intros H [H' | <-]; [eapply lexLt_trans; eauto | exact H]. Qed.

Lemma lexLe_lt_trans a b c : lexLe a b → lexLt b c → lexLt a c.
Proof. intros [H | ->] H'; [eapply lexLt_trans; eauto | exact H']. Qed.

Lemma lexLe_trans a b c : lexLe a b → lexLe b c → lexLe a c.
Proof. intros [H | ->] H'; [left; eapply lexLt_le_trans; eauto | exact H']. Qed.

Lemma lexLe_refl a : lexLe a a.
Proof. right. reflexivity. Qed.

Lemma lexLe_antisym a b : lexLe a b → lexLe b a → a = b.
Proof.
  intros [H | H] [H' | H']; auto. exfalso. unfold lexLt in *. lra.
Qed.

Lemma lex_total a b : lexLt a b ∨ a = b ∨ lexLt b a.
Proof.
  unfold lexLt.
  destruct (Rtotal_order (px a) (px b)) as [H | [H | H]]; auto.
  destruct (Rtotal_order (py a) (py b)) as [H' | [H' | H']]; auto.
  right. left. apply Pt_eq; assumption.
Qed.

Lemma lexLe_or_lt a b : lexLe a b ∨ lexLt b a.
Proof. destruct (lex_total a b) as [H | [H | H]]; unfold lexLe; auto. Qed.

(** A point over a segment of a half-plane is in the half-plane: if [a] and
    [b] are on the left of the edge [u -> v], which goes forward in the
    order, and [q] is between [a] and [b] in the order and on the left of
    [a -> b], then [q] is on the left of [u -> v]. *)
Lemma left_of_convex u v a b q :
  lexLt u v → lexLe a q → lexLe q b →
  0 <= cross u v a → 0 <= cross u v b → 0 <= cross a b q →
  0 <= cross u v q.
Proof.
  intros Huv Haq Hqb Ha Hb Hq.
  destruct Haq as [Haq | ->]; [| exact Ha].
  destruct Hqb as [Hqb | ->]; [| exact Hb].
  unfold lexLt, cross in *.
  destruct (Rtotal_order (px a) (px b)) as [Hab | [Hab | Hab]].
  - assert (He : (px b - px a) * ((px v - px u) * (py q - py u) - (py v - py u) * (px q - px u)) =
                 (px b - px q) * ((px v - px u) * (py a - py u) - (py v - py u) * (px a - px u))
                 + (px q - px a) * ((px v - px u) * (py b - py u) - (py v - py u) * (px b - px u))
                 + (px v - px u) * ((px b - px a) * (py q - py a) - (py b - py a) * (px q - px a)))
      by ring.
    assert (H1 : 0 <= px b - px q) by lra.
    assert (H2 : 0 <= px q - px a) by lra.
    assert (H3 : 0 <= px v - px u) by lra.
    pose proof (Rmult_le_pos _ _ H1 Ha).
    pose proof (Rmult_le_pos _ _ H2 Hb).
    pose proof (Rmult_le_pos _ _ H3 Hq).
    nra.
  - assert (Hqx : px q = px a) by lra.
    assert (He : (py b - py a) * ((px v - px u) * (py q - py u) - (py v - py u) * (px q - px u)) =
                 (py b - py q) * ((px v - px u) * (py a - py u) - (py v - py u) * (px a - px u))
                 + (py q - py a) * ((px v - px u) * (py b - py u) - (py v - py u) * (px b - px u)))
      by (rewrite Hqx, Hab; ring).
    assert (H1 : 0 <= py b - py q) by lra.
    assert (H2 : 0 <= py q - py a) by lra.
    pose proof (Rmult_le_pos _ _ H1 Ha).
    pose proof (Rmult_le_pos _ _ H2 Hb).
    nra.
  - lra.
Qed.

(** A left turn followed by a left turn, along points that go forward in
    the order, keeps the last point on the left of the first edge. *)
Lemma left_turns_compose a b c p :
  lexLt a b → lexLt b c → lexLt c p →
  0 < cross a b c → 0 < cross b c p → 0 < cross a b p.
Proof.
  unfold lexLt, cross. intros Hab Hbc Hcp H1 H2.
  assert (He : (px c - px b) * ((px b - px a) * (py p - py a) - (py b - py a) * (px p - px a)) =
               (px c - px b + (px p - px c)) * ((px b - px a) * (py c - py a) - (py b - py a) * (px c - px a))
               + (px b - px a) * ((px c - px b) * (py p - py b) - (py c - py b) * (px p - px b)))
    by ring.
  assert (Hc : 0 < px c - px b).
  { destruct (Rtotal_order (px b) (px c)) as [H | [H | H]]; [lra | | lra].
    exfalso. nra. }
  assert (0 <= px p - px c) by lra.
  assert (0 <= px b - px a) by lra.
  nra.
Qed.

(** The new edge [b -> p] after a left turn at [b] leaves on its left every
    point that is before [b] in the order and on the left of [a -> b]. *)
Lemma left_of_new_edge a b p q :
  lexLt a b → lexLt b p → lexLe q b →
  0 < cross a b p → 0 <= cross a b q → 0 <= cross b p q.
Proof.
  intros Hab Hbp [Hqb | ->] H1 H2; [| rewrite cross_same_m; lra].
  unfold lexLt, cross in *.
  assert (He : (px b - px a) * ((px p - px b) * (py q - py b) - (py p - py b) * (px q - px b)) =
               (px p - px b) * ((px b - px a) * (py q - py a) - (py b - py a) * (px q - px a))
               + (px b - px q) * ((px b - px a) * (py p - py a) - (py b - py a) * (px p - px a)))
    by ring.
  assert (Hc : 0 < px b - px a).
  { destruct (Rtotal_order (px a) (px b)) as [H | [H | H]]; [lra | | lra].
    exfalso. nra. }
  assert (0 <= px p - px b) by lra.
  assert (0 <= px b - px q) by lra.
  nra.
Qed.
End Plane.

(** ** The scan on a sorted list *)

Lemma Chain_tail (x : Pt) (s : list Pt) : Chain (x :: s) → Chain s.
Proof. inversion 1; subst; auto using Chain. Qed.

Lemma Chain_head_lt (x y : Pt) (s : list Pt) : Chain (x :: y :: s) → lexLt y x.
Proof. inversion 1; subst; assumption. Qed.

Lemma Chain_below_head (x : Pt) (s : list Pt) :
  Chain (x :: s) → ∀ y, y ∈ s → lexLt y x.
Proof.
  revert x. induction s as [| z s IH]; intros x HC y Hy; [inversion Hy |].
  pose proof (Chain_head_lt _ _ _ HC) as Hzx.
  apply elem_of_cons in Hy as [-> | Hy]; [exact Hzx |].
  eapply lexLt_trans; [| exact Hzx]. apply IH; [eapply Chain_tail; eauto | exact Hy].
Qed.

Lemma Chain_NoDup (s : list Pt) : Chain s → NoDup s.
Proof.
  induction s as [| x s IH]; intros HC; constructor.
  - intros Hx. eapply lexLt_irrefl, Chain_below_head; eauto.
  - apply IH. eapply Chain_tail; eauto.
Qed.

Lemma stackEdges_cons2 (x y : Pt) (s : list Pt) :
  stackEdges (x :: y :: s) = (y, x) :: stackEdges (y :: s).
Proof. reflexivity. Qed.

Lemma leftOfAll_cons2 (x y : Pt) (s : list Pt) (q : Pt) :
  leftOfAll (x :: y :: s) q ↔ 0 <= cross y x q ∧ leftOfAll (y :: s) q.
Proof.
  unfold leftOfAll. rewrite stackEdges_cons2. split.
  - intros H. split; [apply (H (y, x)); left | intros e He; apply H; right; exact He].
  - intros [H1 H2] e He. apply elem_of_cons in He as [-> | He]; [exact H1 | apply H2, He].
Qed.

Lemma leftOfAll_single (x q : Pt) : leftOfAll [x] q.
Proof. intros e He. inversion He. Qed.

Lemma stackEdges_forward (s : list Pt) :
  Chain s → ∀ e, e ∈ stackEdges s → lexLt e.1 e.2.
Proof.
  induction s as [| x [| y s] IH]; intros HC e He; try (inversion He; fail).
  rewrite stackEdges_cons2 in He. apply elem_of_cons in He as [-> | He].
  - cbn. eapply Chain_head_lt; eauto.
  - apply IH; [eapply Chain_tail; eauto | exact He].
Qed.

Lemma stackEdges_endpoints (s : list Pt) (e : Pt * Pt) :
  e ∈ stackEdges s → e.1 ∈ s ∧ e.2 ∈ s.
Proof.
  induction s as [| x [| y s] IH]; intros He; try (inversion He; fail).
  rewrite stackEdges_cons2 in He. apply elem_of_cons in He as [-> | He].
  - cbn. split; [right; left | left].
  - destruct (IH He). split; right; assumption.
Qed.

(** A point past the head that turns left at the head is strictly on the
    left of every edge of the chain. *)
Lemma Chain_left_of_all (x y : Pt) (s : list Pt) (p : Pt) :
  Chain (x :: y :: s) → lexLt x p → 0 < cross y x p →
  ∀ e, e ∈ stackEdges (x :: y :: s) → 0 < cross e.1 e.2 p.
Proof.
  revert x y p. induction s as [| z s IH]; intros x y p HC Hxp Hturn e He.
  - rewrite stackEdges_cons2 in He. apply elem_of_cons in He as [-> | He];
      [exact Hturn | inversion He].
  - rewrite stackEdges_cons2 in He. apply elem_of_cons in He as [-> | He];
      [exact Hturn |].
    inversion HC as [| | | ? ? ? ? Hyx Hzyx HC']; subst.
    apply (IH y z p HC'); [eapply lexLt_trans; eauto | | exact He].
    apply (left_turns_compose z y x p); auto.
    eapply Chain_head_lt; eauto.
Qed.

(** The head of a chain is on the left of, or on, each of its edges. *)
Lemma Chain_head_left (x : Pt) (s : list Pt) :
  Chain (x :: s) → leftOfAll (x :: s) x.
Proof.
  intros HC. destruct s as [| y s]; [apply leftOfAll_single |].
  apply leftOfAll_cons2. split; [rewrite cross_same_r; lra |].
  destruct s as [| z s]; [apply leftOfAll_single |].
  inversion HC as [| | | ? ? ? ? Hyx Hzyx HC']; subst.
  intros e He. apply Rlt_le. apply (Chain_left_of_all y z s x HC' Hyx Hzyx e He).
Qed.

Lemma popWhile_cons2 (x y : Pt) (s : list Pt) (p : Pt) :
  popWhile (x :: y :: s) p =
    if Rle_dec (cross y x p) 0 then popWhile (y :: s) p else x :: y :: s.
Proof. reflexivity. Qed.

Lemma popWhile_suffix (s : list Pt) (p : Pt) : popWhile s p `suffix_of` s.
Proof.
  induction s as [| x [| y s] IH]; try reflexivity. rewrite popWhile_cons2.
  destruct (Rle_dec (cross y x p) 0); [| reflexivity].
  apply suffix_cons_r, IH.
Qed.

Lemma popWhile_nonempty (s : list Pt) (p : Pt) : s ≠ [] → popWhile s p ≠ [].
Proof.
  induction s as [| x [| y s] IH]; intros H; try (cbn; congruence).
  rewrite popWhile_cons2.
  destruct (Rle_dec (cross y x p) 0); [apply IH |]; congruence.
Qed.

Lemma popWhile_last (s : list Pt) (p : Pt) : last (popWhile s p) = last s.
Proof.
  induction s as [| x [| y s] IH]; try reflexivity. rewrite popWhile_cons2.
  destruct (Rle_dec (cross y x p) 0); [| reflexivity].
  rewrite IH. reflexivity.
Qed.

(** Pushing a point that is past the head keeps the stack a chain. *)
Lemma Chain_pushPt (s : list Pt) (p : Pt) :
  Chain s → (∀ x, x ∈ s → lexLt x p) → Chain (pushPt s p).
Proof.
  unfold pushPt. induction s as [| x [| y s] IH]; intros HC Hlt.
  - constructor.
  - constructor. apply Hlt. left.
  - rewrite popWhile_cons2. destruct (Rle_dec (cross y x p) 0) as [Hpop | Hkeep].
    + apply IH; [eapply Chain_tail; eauto |]. intros z Hz. apply Hlt. right. exact Hz.
    + constructor; [apply Hlt; left | lra | exact HC].
Qed.

(** The new point is on the left of, or on, every edge of the new stack. *)
Lemma pushPt_left_self (s : list Pt) (p : Pt) :
  Chain s → (∀ x, x ∈ s → lexLt x p) → leftOfAll (pushPt s p) p.
Proof.
  intros HC Hlt. apply Chain_head_left. apply Chain_pushPt; assumption.
Qed.

(** The points already seen stay on the left of every edge of the new
    stack. *)
Lemma pushPt_left_seen (s : list Pt) (p q : Pt) (p0 : Pt) :
  Chain s → last s = Some p0 → (∀ x, x ∈ s → lexLt x p) →
  leftOfAll s q → lexLe p0 q → (∀ x, head s = Some x → lexLe q x) →
  leftOfAll (pushPt s p) q.
Proof.
  unfold pushPt. revert q.
  induction s as [| x [| y s] IH]; intros q HC Hlast Hlt Hq Hp0 Hhd;
    [| | rewrite popWhile_cons2].
  - discriminate.
  - cbn [popWhile]. cbn in Hlast. injection Hlast as <-.
    assert (q = x) as -> by (apply lexLe_antisym; [apply Hhd; reflexivity | exact Hp0]).
    apply leftOfAll_cons2. split; [rewrite cross_same_m; lra | apply leftOfAll_single].
  - pose proof (Chain_head_lt _ _ _ HC) as Hyx.
    assert (Hxp : lexLt x p) by (apply Hlt; left).
    assert (Hqx : lexLe q x) by (apply Hhd; reflexivity).
    apply leftOfAll_cons2 in Hq as [Hq1 Hq2].
    destruct (Rle_dec (cross y x p) 0) as [Hpop | Hkeep].
    + assert (HC' : Chain (y :: s)) by (eapply Chain_tail; eauto).
      assert (Hlt' : ∀ z, z ∈ y :: s → lexLt z p) by (intros z Hz; apply Hlt; right; exact Hz).
      assert (Hlast' : last (y :: s) = Some p0) by exact Hlast.
      assert (Hp0y : lexLe p0 y).
      { destruct s as [| z s]; [cbn in Hlast; injection Hlast as <-; apply lexLe_refl |].
        left. apply (Chain_below_head y (z :: s) HC').
        apply list_elem_of_lookup. exists (length s). 
        rewrite <- Hlast. rewrite last_lookup. reflexivity. }
      destruct (lexLe_or_lt q y) as [Hqy | Hyq].
      { apply IH; auto. intros z [= <-]. exact Hqy. }
      (* q lies between the popped head and the stack below it *)
      set (R := p :: popWhile (y :: s) p).
      assert (HR : Chain R) by (apply (Chain_pushPt (y :: s) p); assumption).
      assert (Hy : leftOfAll R y).
      { apply IH; auto; [apply Chain_head_left; exact HC' |].
        intros z [= <-]. apply lexLe_refl. }
      assert (Hp : leftOfAll R p) by (apply (pushPt_left_self (y :: s) p); assumption).
      assert (Hx : leftOfAll R x).
      { intros e He. apply (left_of_convex e.1 e.2 y p x).
        - apply (stackEdges_forward R HR e He).
        - left. exact Hyx.
        - left. exact Hxp.
        - apply Hy, He.
        - apply Hp, He.
        - rewrite cross_swap. lra. }
      intros e He. apply (left_of_convex e.1 e.2 y x q).
      * apply (stackEdges_forward R HR e He).
      * left. exact Hyq.
      * exact Hqx.
      * apply Hy, He.
      * apply Hx, He.
      * exact Hq1.
    + apply leftOfAll_cons2. split.
      * apply (left_of_new_edge y x p q); auto. lra.
      * apply leftOfAll_cons2. split; assumption.
Qed.

(** ** The sort *)

Lemma compareFn_le (a b : Pt) : compareFn a b <= 0 ↔ lexLe a b.
Proof.
  unfold compareFn, lexLe, lexLt.
  destruct (Req_dec_T (px a) (px b)) as [E | N]; split.
  - intros H. destruct (Rle_lt_or_eq_dec _ _ H) as [Hlt | Heq].
    + left. right. split; [exact E | lra].
    + right. apply Pt_eq; lra.
  - intros [[H | [_ H]] | ->]; lra.
  - intros H. left. left. lra.
  - intros [[H | [H _]] | ->]; lra.
Qed.

Lemma insertPt_perm (a : Pt) (l : list Pt) : insertPt a l ≡ₚ a :: l.
Proof.
  induction l as [| b l IH]; cbn [insertPt]; [reflexivity |].
  destruct (Rle_dec (compareFn a b) 0); [reflexivity |].
  rewrite IH. apply Permutation_swap.
Qed.

Lemma sort_perm (l : list Pt) : sort l ≡ₚ l.
Proof.
  induction l as [| a l IH]; [reflexivity |].
  unfold sort in *. cbn [foldr]. rewrite insertPt_perm, IH. reflexivity.
Qed.

Lemma insertPt_sorted (a : Pt) (l : list Pt) :
  StronglySorted lexLe l → StronglySorted lexLe (insertPt a l).
Proof.
  induction l as [| b l IH]; intros Hs; cbn [insertPt].
  - repeat constructor.
  - apply StronglySorted_inv in Hs as [Hs Hb].
    destruct (Rle_dec (compareFn a b) 0) as [Hle | Hgt].
    + apply compareFn_le in Hle. constructor; [constructor; assumption |].
      constructor; [exact Hle |].
      eapply Forall_impl; [exact Hb |]. intros c Hc. eapply lexLe_trans; eauto.
    + constructor; [apply IH, Hs |].
      assert (Hba : lexLe b a).
      { destruct (lexLe_or_lt a b) as [H | H]; [| left; exact H].
        apply compareFn_le in H. lra. }
      rewrite (insertPt_perm a l). constructor; assumption.
Qed.

Lemma sort_sorted (l : list Pt) : StronglySorted lexLe (sort l).
Proof.
  induction l as [| a l IH]; [constructor |].
  unfold sort in *. cbn [foldr]. apply insertPt_sorted, IH.
Qed.

(** Distinct points are sorted strictly. *)
Lemma sort_strict (l : list Pt) : NoDup l → StronglySorted lexLt (sort l).
Proof.
  intros Hnd. rewrite <- (sort_perm l) in Hnd.
  pose proof (sort_sorted l) as Hs. revert Hnd Hs.
  generalize (sort l). clear l. intros l. induction l as [| a l IH]; intros Hnd Hs.
  - constructor.
  - apply NoDup_cons in Hnd as [Ha Hnd]. apply StronglySorted_inv in Hs as [Hs Hall].
    constructor; [apply IH; assumption |].
    rewrite Forall_forall in *. intros b Hb.
    destruct (Hall b Hb) as [H | ->]; [exact H | contradiction].
Qed.

(** ** The scan as a whole *)

(** The stack after the points [rest], from a stack that is right for the
    points [seen]. *)
Lemma scan_invariant (p0 : Pt) (rest : list Pt) :
  ∀ (s seen : list Pt),
    Chain s → last s = Some p0 →
    (∀ x, x ∈ s → x ∈ seen) →
    (∀ q, q ∈ seen → leftOfAll s q ∧ lexLe p0 q ∧ ∀ x, head s = Some x → lexLe q x) →
    StronglySorted lexLt rest →
    (∀ q p, q ∈ seen → p ∈ rest → lexLt q p) →
    let s' := fold_left pushPt rest s in
    Chain s' ∧ last s' = Some p0 ∧
    head s' = head (reverse rest ++ s) ∧
    (∀ x, x ∈ s' → x ∈ seen ∨ x ∈ rest) ∧
    (∀ q, q ∈ seen ∨ q ∈ rest → leftOfAll s' q).
Proof.
  induction rest as [| p rest IH]; intros s seen HC Hlast Hsub Hseen Hsorted Hlt.
  - cbn. split_and!; auto.
    + intros q [Hq | Hq]; [apply Hseen, Hq | inversion Hq].
  - cbn [fold_left]. apply StronglySorted_inv in Hsorted as [Hsorted Hp].
    rewrite Forall_forall in Hp.
    assert (Hsp : ∀ x, x ∈ s → lexLt x p).
    { intros x Hx. apply Hlt; [apply Hsub, Hx | left]. }
    assert (Hne : s ≠ []) by (intros ->; discriminate).
    specialize (IH (pushPt s p) (p :: seen)).
    destruct IH as (I1 & I2 & I3 & I4 & I5).
    + apply Chain_pushPt; assumption.
    + unfold pushPt. rewrite last_cons, popWhile_last, Hlast. reflexivity.
    + intros x Hx. unfold pushPt in Hx. apply elem_of_cons in Hx as [-> | Hx]; [left |].
      right. apply Hsub. eapply elem_of_suffix; [exact Hx | apply popWhile_suffix].
    + intros q Hq. apply elem_of_cons in Hq as [-> | Hq].
      * split_and!.
        -- apply pushPt_left_self; assumption.
        -- destruct s as [| x s]; [congruence |].
           destruct (Hseen x (Hsub x ltac:(left))) as (_ & Hx & _).
           left. eapply lexLe_lt_trans; [exact Hx | apply Hsp; left].
        -- intros x [= <-]. apply lexLe_refl.
      * destruct (Hseen q Hq) as (Hq1 & Hq2 & Hq3). split_and!.
        -- apply (pushPt_left_seen s p q p0); assumption.
        -- exact Hq2.
        -- intros x [= <-]. left. apply Hlt; [exact Hq | left].
    + exact Hsorted.
    + intros q p' Hq Hp'. apply elem_of_cons in Hq as [-> | Hq].
      * apply Hp, Hp'.
      * apply Hlt; [exact Hq | right; exact Hp'].
    + cbv zeta. split_and!; auto.
      * rewrite I3, reverse_cons, <- app_assoc. cbn [app].
        destruct (reverse rest); reflexivity.
      * intros x Hx. destruct (I4 x Hx) as [Hx' | Hx'].
        -- apply elem_of_cons in Hx' as [-> | Hx']; [right; left | left; exact Hx'].
        -- right. right. exact Hx'.
      * intros q [Hq | Hq]; apply I5.
        -- left. right. exact Hq.
        -- apply elem_of_cons in Hq as [-> | Hq]; [left; left | right; exact Hq].
Qed.

(** The scan of a strictly sorted list: a chain from the first to the last
    point, made of points of the list, with every point of the list on the
    left of, or on, each of its edges. *)
Lemma chain_sorted (p0 : Pt) (rest : list Pt) :
  StronglySorted lexLt (p0 :: rest) →
  let s := chain (p0 :: rest) in
  Chain s ∧ last s = Some p0 ∧ head s = last (p0 :: rest) ∧
  (∀ x, x ∈ s → x ∈ p0 :: rest) ∧
  (∀ q, q ∈ p0 :: rest → leftOfAll s q).
Proof.
  intros Hs. apply StronglySorted_inv in Hs as [Hs Hp0]. rewrite Forall_forall in Hp0.
  unfold chain. cbn [fold_left]. change (pushPt [] p0) with [p0].
  destruct (scan_invariant p0 rest [p0] [p0]) as (I1 & I2 & I3 & I4 & I5).
  - constructor.
  - reflexivity.
  - auto.
  - intros q Hq. apply list_elem_of_singleton in Hq as ->. split_and!.
    + apply leftOfAll_single.
    + apply lexLe_refl.
    + intros x [= <-]. apply lexLe_refl.
  - exact Hs.
  - intros q p Hq Hp. apply list_elem_of_singleton in Hq as ->. apply Hp0, Hp.
  - cbv zeta. split_and!; auto.
    + rewrite I3, <- reverse_cons. apply head_reverse.
    + intros x Hx. destruct (I4 x Hx) as [Hx' | Hx'].
      * apply list_elem_of_singleton in Hx' as ->. left.
      * right. exact Hx'.
    + intros q Hq. apply I5. apply elem_of_cons in Hq as [-> | Hq]; [left; left | right; exact Hq].
Qed.

(** ** The second loop, by symmetry *)

Lemma neg_involutive (p : Pt) : neg (neg p) = p.
Proof. apply Pt_eq; cbn; lra. Qed.

Lemma cross_neg (o a b : Pt) : cross (neg o) (neg a) (neg b) = cross o a b.
Proof. unfold cross, neg. cbn [px py]. ring. Qed.

Lemma lexLt_neg (a b : Pt) : lexLt (neg a) (neg b) ↔ lexLt b a.
Proof. unfold lexLt, neg. cbn [px py]. split; intros [H | [H1 H2]]; lra. Qed.

#[local] Instance neg_inj : Inj (=) (=) neg.
Proof. intros a b H. rewrite <- (neg_involutive a), H. apply neg_involutive. Qed.

Lemma head_fmap {X Y : Type} (f : X → Y) (l : list X) :
  head (f <$> l) = f <$> head l.
Proof. destruct l; reflexivity. Qed.

Lemma map_neg_involutive (l : list Pt) : map neg (map neg l) = l.
Proof.
  rewrite map_map. rewrite <- (map_id l) at 2. apply map_ext. apply neg_involutive.
Qed.

Lemma elem_of_map_neg (x : Pt) (l : list Pt) : x ∈ map neg l ↔ neg x ∈ l.
Proof.
  rewrite list_elem_of_fmap. split.
  - intros (y & -> & Hy). rewrite neg_involutive. exact Hy.
  - intros H. exists (neg x). rewrite neg_involutive. auto.
Qed.

Lemma popWhile_neg (s : list Pt) (p : Pt) :
  popWhile (map neg s) (neg p) = map neg (popWhile s p).
Proof.
  induction s as [| x [| y s] IH]; try reflexivity.
  change (map neg (x :: y :: s)) with (neg x :: neg y :: map neg s).
  rewrite !popWhile_cons2, cross_neg.
  destruct (Rle_dec (cross y x p) 0); [exact IH | reflexivity].
Qed.

Lemma fold_pushPt_neg (l s : list Pt) :
  fold_left pushPt (map neg l) (map neg s) = map neg (fold_left pushPt l s).
Proof.
  revert s. induction l as [| p l IH]; intros s; [reflexivity |].
  cbn [map fold_left]. rewrite <- IH. f_equal.
  unfold pushPt. rewrite popWhile_neg. reflexivity.
Qed.

Lemma chain_neg (l : list Pt) : chain (map neg l) = map neg (chain l).
Proof. apply (fold_pushPt_neg l []). Qed.

Lemma stackEdges_neg (s : list Pt) :
  stackEdges (map neg s) = map (fun e => (neg e.1, neg e.2)) (stackEdges s).
Proof.
  induction s as [| x [| y s] IH]; try reflexivity.
  change (map neg (x :: y :: s)) with (neg x :: neg y :: map neg s).
  rewrite !stackEdges_cons2. cbn [map fst snd]. f_equal. exact IH.
Qed.

Lemma leftOfAll_neg (s : list Pt) (q : Pt) :
  leftOfAll (map neg s) (neg q) ↔ leftOfAll s q.
Proof.
  unfold leftOfAll. rewrite stackEdges_neg. split.
  - intros H e He. rewrite <- cross_neg.
    apply (H (neg e.1, neg e.2)). apply list_elem_of_fmap. exists e. auto.
  - intros H e He. apply list_elem_of_fmap in He as (e' & -> & He').
    cbn [fst snd]. rewrite cross_neg. apply H, He'.
Qed.

Lemma sorted_neg_reverse (l : list Pt) :
  StronglySorted lexLt l → StronglySorted lexLt (map neg (reverse l)).
Proof.
  induction l as [| a l IH]; intros Hs; [constructor |].
  apply StronglySorted_inv in Hs as [Hs Ha]. rewrite Forall_forall in Ha.
  rewrite reverse_cons, map_app. cbn [map].
  apply StronglySorted_app_2; [| apply IH, Hs | repeat constructor].
  intros x y Hx Hy. apply list_elem_of_singleton in Hy as ->.
  apply elem_of_map_neg in Hx. rewrite elem_of_reverse in Hx.
  specialize (Ha _ Hx). apply lexLt_neg. rewrite neg_involutive. exact Ha.
Qed.

(** The scan of the reversed list: a chain from the last to the first
    point, seen through the reflection. *)
Lemma chain_sorted_reverse (p : list Pt) :
  p ≠ [] → StronglySorted lexLt p →
  let u := chain (reverse p) in
  Chain (map neg u) ∧ last u = last p ∧ head u = head p ∧
  (∀ x, x ∈ u → x ∈ p) ∧
  (∀ q, q ∈ p → leftOfAll u q).
Proof.
  intros Hne Hs. cbv zeta.
  pose proof (sorted_neg_reverse p Hs) as Hs'.
  destruct (map neg (reverse p)) as [| n0 rest] eqn:E.
  { apply (f_equal length) in E. rewrite length_map, length_reverse in E.
    destruct p; [congruence | discriminate]. }
  destruct (chain_sorted n0 rest Hs') as (I1 & I2 & I3 & I4 & I5).
  rewrite <- E, chain_neg in I1, I2, I3, I4, I5.
  assert (Hn0 : head (map neg (reverse p)) = Some n0) by (rewrite E; reflexivity).
  change (map neg ?l) with (neg <$> l) in I2, I3, Hn0.
  rewrite fmap_last in I2, I3. rewrite head_fmap in I3, Hn0.
  rewrite head_reverse in Hn0. rewrite last_reverse in I3.
  split_and!.
  - exact I1.
  - apply (inj (fmap neg)). rewrite I2, Hn0. reflexivity.
  - apply (inj (fmap neg)). exact I3.
  - intros x Hx. apply elem_of_reverse. rewrite <- (map_neg_involutive (reverse p)).
    apply elem_of_map_neg, I4, elem_of_map_neg. rewrite neg_involutive. exact Hx.
  - intros q Hq. apply leftOfAll_neg. apply I5.
    apply elem_of_map_neg. rewrite neg_involutive. apply elem_of_reverse. exact Hq.
Qed.

(** ** The edges of the hull *)

(** An edge of a polygon joins two neighbours of the polygon closed by its
    first vertex. *)
Lemma edgesOf_adjacent (poly : list Pt) (e : Pt * Pt) :
  e ∈ edgesOf poly →
  ∃ h0 l1 l2, head poly = Some h0 ∧ poly ++ [h0] = l1 ++ e.1 :: e.2 :: l2.
Proof.
  intros He. apply elem_of_edgesOf in He as (i & Hi & ->). cbn [fst snd].
  destruct poly as [| h0 poly']; [cbn in Hi; lia |].
  set (poly := h0 :: poly') in *. exists h0.
  destruct (lookup_lt_is_Some_2 poly i Hi) as [a Ha].
  rewrite (nth_lookup_Some _ _ _ _ Ha).
  destruct (decide (i + 1 < length poly)%nat) as [Hlt | Hge].
  - rewrite Nat.mod_small by exact Hlt.
    destruct (lookup_lt_is_Some_2 poly (i + 1) Hlt) as [b Hb].
    rewrite (nth_lookup_Some _ _ _ _ Hb).
    exists (take i poly), (drop (S (i + 1)) poly ++ [h0]). split; [reflexivity |].
    rewrite <- (take_drop_middle poly i a Ha) at 1.
    rewrite <- app_assoc. cbn [app]. do 2 f_equal.
    replace (S i) with (i + 1)%nat in * by lia.
    rewrite <- (take_drop_middle poly (i + 1) b Hb) at 1.
    rewrite drop_app_length'; [reflexivity |].
    rewrite length_take. lia.
  - assert (Hn : (i + 1 = length poly)%nat) by lia.
    rewrite Hn, Nat.Div0.mod_same. cbn [nth poly].
    exists (take i poly), []. split; [reflexivity |].
    rewrite <- (take_drop_middle poly i a Ha) at 1.
    rewrite <- app_assoc. cbn [app]. do 2 f_equal.
    rewrite drop_ge by lia. reflexivity.
Qed.

Lemma stackEdges_adjacent (s : list Pt) (a b : Pt) :
  (a, b) ∈ stackEdges s ↔ ∃ l1 l2, s = l1 ++ b :: a :: l2.
Proof.
  induction s as [| x [| y s] IH].
  - split; [inversion 1 | intros (l1 & l2 & H); destruct l1; discriminate].
  - split; [inversion 1 | intros (l1 & l2 & H); destruct l1 as [| ? [| ? ?]]; discriminate].
  - rewrite stackEdges_cons2, elem_of_cons, IH. split.
    + intros [[= -> ->] | (l1 & l2 & ->)].
      * exists [], s. reflexivity.
      * exists (x :: l1), l2. reflexivity.
    + intros (l1 & l2 & H). destruct l1 as [| z l1].
      * injection H as -> -> ->. left. reflexivity.
      * injection H as -> H. right. exists l1, l2. exact H.
Qed.

(** Neighbours in a concatenation are neighbours in one of the parts, or
    the last of the first part and the first of the second. *)
Lemma adjacent_app (X Y l1 l2 : list Pt) (a b : Pt) :
  X ++ Y = l1 ++ a :: b :: l2 →
  (∃ k1 k2, X = k1 ++ a :: b :: k2) ∨
  (∃ k1 k2, X = k1 ++ [a] ∧ Y = b :: k2) ∨
  (∃ k1 k2, Y = k1 ++ a :: b :: k2).
Proof.
  revert l1. induction X as [| x X IH]; intros l1 H.
  - right. right. exists l1, l2. exact H.
  - destruct l1 as [| z l1].
    + cbn in H. injection H as -> H. destruct X as [| x' X].
      * right. left. exists [], l2. split; [reflexivity | exact H].
      * injection H as -> H. left. exists [], X. reflexivity.
    + injection H as -> H. destruct (IH l1 H) as [(k1 & k2 & ->) | [(k1 & k2 & -> & ->) | (k1 & k2 & ->)]].
      * left. exists (z :: k1), k2. reflexivity.
      * right. left. exists (z :: k1), k2. split; reflexivity.
      * right. right. exists k1, k2. reflexivity.
Qed.

(** The edges of the polygon returned after the two scans are edges of the
    two stacks. *)
Lemma hull_edges (L U : list Pt) (p0 pn : Pt) (e : Pt * Pt) :
  p0 ≠ pn →
  head L = Some pn → last L = Some p0 → head U = Some p0 → last U = Some pn →
  e ∈ edgesOf (reverse (tail L) ++ reverse (tail U)) →
  e ∈ stackEdges L ∨ e ∈ stackEdges U.
Proof.
  intros Hne HhL HlL HhU HlU He.
  destruct L as [| x L']; [discriminate |]. injection HhL as ->.
  destruct U as [| x U']; [discriminate |]. injection HhU as ->.
  cbn [tail] in He.
  assert (HL' : last L' = Some p0).
  { destruct L' as [| y L'']; [cbn in HlL; congruence | exact HlL]. }
  apply edgesOf_adjacent in He as (h0 & l1 & l2 & Hh & Heq).
  destruct e as [a b]. cbn [fst snd] in Heq.
  assert (h0 = p0) as ->.
  { apply last_Some in HL' as (L'' & ->). rewrite reverse_snoc in Hh.
    cbn in Hh. congruence. }
  rewrite <- app_assoc, <- reverse_cons in Heq.
  apply adjacent_app in Heq as [(k1 & k2 & H) | [(k1 & k2 & H1 & H2) | (k1 & k2 & H)]].
  - left. apply stackEdges_adjacent.
    apply (f_equal reverse) in H. rewrite reverse_involutive in H. subst L'.
    rewrite reverse_app, !reverse_cons, <- !app_assoc. cbn [app].
    exists (pn :: reverse k2), (reverse k1). reflexivity.
  - left. apply stackEdges_adjacent.
    apply (f_equal reverse) in H1. rewrite reverse_involutive, reverse_snoc in H1.
    subst L'.
    assert (b = pn) as ->.
    { apply (f_equal head) in H2. rewrite head_reverse, HlU in H2. cbn in H2. congruence. }
    exists [], (reverse k1). reflexivity.
  - right. apply stackEdges_adjacent.
    apply (f_equal reverse) in H. rewrite reverse_involutive in H. rewrite H.
    rewrite reverse_app, !reverse_cons, <- !app_assoc. cbn [app].
    exists (reverse k2), (reverse k1). reflexivity.
Qed.

(** ** Correctness of [convexHull] *)

#[local] Instance Pt_eq_dec : EqDecision Pt.
Proof.
  intros a b. destruct (Req_dec_T (px a) (px b)) as [Hx | Hx].
  - destruct (Req_dec_T (py a) (py b)) as [Hy | Hy].
    + left. apply Pt_eq; assumption.
    + right. intros ->. apply Hy. reflexivity.
  - right. intros ->. apply Hx. reflexivity.
Defined.

(** A vertex of a stack other than its last one ends an edge of the stack. *)
Lemma stackEdges_into (s : list Pt) (x : Pt) :
  x ∈ s → last s ≠ Some x → ∃ a, (a, x) ∈ stackEdges s.
Proof.
  induction s as [| y [| z s] IH]; intros Hx Hlast.
  - inversion Hx.
  - apply list_elem_of_singleton in Hx as ->. cbn in Hlast. congruence.
  - rewrite stackEdges_cons2. apply elem_of_cons in Hx as [-> | Hx].
    + exists z. left.
    + destruct (IH Hx Hlast) as (a & Ha). exists a. right. exact Ha.
Qed.

Lemma elem_of_tail {X : Type} (x : X) (l : list X) : x ∈ tail l → x ∈ l.
Proof. destruct l; [auto | right; assumption]. Qed.

(** Among three or more distinct points, one differs from two given ones. *)
Lemma third_point (pts : list Pt) (a b : Pt) :
  NoDup pts → (3 <= length pts)%nat → ∃ q, q ∈ pts ∧ q ≠ a ∧ q ≠ b.
Proof.
  intros Hnd Hlen.
  destruct (decide (Exists (fun q => q ≠ a ∧ q ≠ b) pts)) as [H | H].
  - apply Exists_exists in H as (q & Hq & H). exists q. auto.
  - exfalso. apply not_Exists_Forall in H; [| intros q; apply _].
    rewrite Forall_forall in H.
    assert (Hsub : pts ⊆+ [a; b]).
    { apply NoDup_submseteq; [exact Hnd |]. intros q Hq. specialize (H q Hq). cbn in H.
      destruct (decide (q = a)) as [-> | Hqa]; [left |].
      destruct (decide (q = b)) as [-> | Hqb]; [right; left |].
      exfalso. apply H. auto. }
    apply submseteq_length in Hsub. cbn in Hsub. lia.
Qed.

(** The two scans of [convexHull], on more than one distinct point. *)
Lemma hull_scans (pts : list Pt) :
  NoDup pts → (2 <= length pts)%nat →
  let lower := chain (sort pts) in
  let upper := chain (reverse (sort pts)) in
  ∃ p0 pn, p0 ≠ pn ∧
    Chain lower ∧ head lower = Some pn ∧ last lower = Some p0 ∧
    Chain (map neg upper) ∧ head upper = Some p0 ∧ last upper = Some pn ∧
    (∀ x, x ∈ lower → x ∈ pts) ∧ (∀ x, x ∈ upper → x ∈ pts) ∧
    (∀ q, q ∈ pts → leftOfAll lower q ∧ leftOfAll upper q).
Proof.
  intros Hnd Hlen. cbv zeta.
  pose proof (sort_strict pts Hnd) as Hs. pose proof (sort_perm pts) as Hperm.
  assert (Hlp : length (sort pts) = length pts) by (rewrite Hperm; reflexivity).
  destruct (sort pts) as [| p0 rest] eqn:Ep; [cbn in Hlp; lia |].
  assert (Hne : p0 :: rest ≠ []) by discriminate.
  destruct (chain_sorted p0 rest Hs) as (L1 & L2 & L3 & L4 & L5).
  destruct (chain_sorted_reverse (p0 :: rest) Hne Hs) as (U1 & U2 & U3 & U4 & U5).
  destruct (last (p0 :: rest)) as [pn |] eqn:El.
  2: { apply last_None in El. discriminate. }
  assert (Hpn : pn ∈ rest).
  { destruct rest as [| r1 rest']; [cbn in Hlp; lia |].
    rewrite last_cons_cons in El. apply last_Some_elem_of, El. }
  exists p0, pn.
  assert (H0n : lexLt p0 pn).
  { apply StronglySorted_inv in Hs as [_ H0]. rewrite Forall_forall in H0. apply H0, Hpn. }
  split_and!; auto.
  - intros ->. eapply lexLt_irrefl, H0n.
  - intros x Hx. rewrite <- Hperm. apply L4, Hx.
  - intros x Hx. rewrite <- Hperm. apply U4, Hx.
  - intros q Hq. rewrite <- Hperm in Hq. split; [apply L5, Hq | apply U5, Hq].
Qed.

Section Hull.
Variables (pts L U : list Pt) (p0 pn : Pt).
Hypothesis Hgp : generalPosition pts.
Hypothesis Hlen : (3 <= length pts)%nat.
Hypothesis Hne : p0 ≠ pn.
Hypothesis HCL : Chain L.
Hypothesis HhL : head L = Some pn.
Hypothesis HlL : last L = Some p0.
Hypothesis HCU : Chain (map neg U).
Hypothesis HhU : head U = Some p0.
Hypothesis HlU : last U = Some pn.
Hypothesis HsL : ∀ x, x ∈ L → x ∈ pts.
Hypothesis HsU : ∀ x, x ∈ U → x ∈ pts.
Hypothesis Hleft : ∀ q, q ∈ pts → leftOfAll L q ∧ leftOfAll U q.

Let hull := reverse (tail L) ++ reverse (tail U).

Lemma hull_subset (x : Pt) : x ∈ hull → x ∈ pts.
Proof.
  unfold hull. rewrite elem_of_app, !elem_of_reverse.
  intros [Hx | Hx]; apply elem_of_tail in Hx; auto.
Qed.

(** Every input point is on the left of, or on, every edge of the hull. *)
Lemma hull_contains (q : Pt) (e : Pt * Pt) :
  q ∈ pts → e ∈ edgesOf hull → 0 <= cross e.1 e.2 q.
Proof.
  intros Hq He. destruct (Hleft q Hq) as [H1 H2].
  destruct (hull_edges L U p0 pn e Hne HhL HlL HhU HlU He) as [H | H];
    [apply H1, H | apply H2, H].
Qed.

Lemma hull_NoDup : NoDup hull.
Proof.
  pose proof (Chain_NoDup _ HCL) as HndL.
  assert (HndU : NoDup U).
  { apply (NoDup_fmap neg). apply Chain_NoDup, HCU. }
  unfold hull. clear hull.
  destruct L as [| l0 L']; [discriminate |]. injection HhL as ->.
  destruct U as [| u0 U']; [discriminate |]. injection HhU as ->.
  cbn [tail].
  apply NoDup_cons in HndL as [HpnL HndL]. apply NoDup_cons in HndU as [Hp0U HndU].
  apply NoDup_app. split_and!;
    [rewrite reverse_Permutation; exact HndL | | rewrite reverse_Permutation; exact HndU].
  intros x HxL HxU. rewrite elem_of_reverse in HxL, HxU.
  assert (Hx0 : x ≠ p0) by (intros ->; contradiction).
  assert (Hxn : x ≠ pn) by (intros ->; contradiction).
  destruct (stackEdges_into (pn :: L') x) as (a & Ha).
  { right. exact HxL. } { rewrite HlL. congruence. }
  destruct (stackEdges_into (p0 :: U') x) as (c & Hc).
  { right. exact HxU. } { rewrite HlU. congruence. }
  pose proof (stackEdges_forward _ HCL _ Ha) as Hax. cbn [fst snd] in Hax.
  assert (Hxc : lexLt x c).
  { apply lexLt_neg.
    apply (stackEdges_forward _ HCU (neg c, neg x)).
    rewrite stackEdges_neg. apply list_elem_of_fmap. exists (c, x). auto. }
  destruct (stackEdges_endpoints _ _ Ha) as [HaL _].
  destruct (stackEdges_endpoints _ _ Hc) as [HcU _]. cbn [fst snd] in HaL, HcU.
  assert (Hap : a ∈ pts) by (apply HsL, HaL).
  assert (Hcp : c ∈ pts) by (apply HsU, HcU).
  assert (Hxp : x ∈ pts) by (apply HsL; right; exact HxL).
  destruct (Hleft c Hcp) as [H1 _]. destruct (Hleft a Hap) as [_ H2].
  specialize (H1 _ Ha). specialize (H2 _ Hc). cbn [fst snd] in H1, H2.
  destruct Hgp as [_ Hncol].
  apply (Hncol a x c); auto.
  - intros ->. eapply lexLt_irrefl, Hax.
  - intros ->. eapply lexLt_irrefl, Hxc.
  - intros ->. eapply lexLt_irrefl, lexLt_trans; eauto.
  - rewrite (cross_cyclic c x a), cross_swap, <- (cross_cyclic a x c) in H2. lra.
Qed.

Lemma hull_length : (3 <= length hull)%nat.
Proof.
  destruct (third_point pts p0 pn) as (q & Hq & Hq0 & Hqn); [apply Hgp | lia |].
  destruct (Hleft q Hq) as [H1 H2].
  unfold hull. clear hull.
  destruct L as [| l0 L']; [discriminate |]. injection HhL as ->.
  destruct U as [| u0 U']; [discriminate |]. injection HhU as ->.
  cbn [tail]. rewrite length_app, !length_reverse.
  destruct L' as [| l1 L'']; [cbn in HlL; congruence |].
  destruct U' as [| u1 U'']; [cbn in HlU; congruence |].
  destruct L'' as [| l2 L'']; destruct U'' as [| u2 U'']; cbn [length]; try lia.
  exfalso. cbn in HlL, HlU. injection HlL as ->. injection HlU as ->.
  specialize (H1 (p0, pn) ltac:(left)). specialize (H2 (pn, p0) ltac:(left)).
  cbn [fst snd] in H1, H2.
  destruct Hgp as [_ Hncol]. apply (Hncol p0 pn q); auto.
  - apply HsL. right. left.
  - apply HsL. left.
  - rewrite (cross_cyclic pn p0 q), cross_swap in H2. lra.
Qed.
End Hull.

Lemma elem_of_turnsOf (poly : list Pt) (t : Pt * Pt * Pt) :
  t ∈ turnsOf poly ↔
  ∃ i : nat, (i < length poly)%nat ∧
    t = (nth i poly (mkPt 0 0),
         nth ((i + 1) mod length poly) poly (mkPt 0 0),
         nth ((i + 2) mod length poly) poly (mkPt 0 0)).
Proof.
  unfold turnsOf. rewrite list_elem_of_fmap. split.
  - intros (i & -> & Hi). apply elem_of_seq in Hi. exists i. split; [lia | reflexivity].
  - intros (i & Hi & ->). exists i. split; [reflexivity | apply elem_of_seq; lia].
Qed.

Lemma succ_mod_small (i k n : nat) :
  (i < n)%nat → (k <= 2)%nat → (3 <= n)%nat →
  ((i + k) mod n = i + k ∧ i + k < n)%nat ∨ ((i + k) mod n = i + k - n ∧ n <= i + k)%nat.
Proof.
  intros Hi Hk Hn. destruct (decide (i + k < n)%nat) as [H | H].
  - left. split; [apply Nat.mod_small, H | exact H].
  - right. split; [| lia]. symmetry. apply (Nat.mod_unique _ _ 1); lia.
Qed.

(** A turn of a polygon: an edge, then a vertex; on three or more distinct
    vertices the three points are distinct. *)
Lemma turnsOf_parts (poly : list Pt) (t : Pt * Pt * Pt) :
  t ∈ turnsOf poly →
  (t.1.1, t.1.2) ∈ edgesOf poly ∧ t.2 ∈ poly ∧
  (NoDup poly → (3 <= length poly)%nat →
   t.1.1 ≠ t.1.2 ∧ t.1.2 ≠ t.2 ∧ t.1.1 ≠ t.2).
Proof.
  intros Ht. apply elem_of_turnsOf in Ht as (i & Hi & ->). cbn [fst snd].
  assert (Hn : length poly ≠ 0%nat) by lia.
  split_and!.
  - apply elem_of_edgesOf. exists i. auto.
  - apply list_elem_of_In, nth_In, Nat.mod_upper_bound, Hn.
  - intros Hnd Hlen. apply NoDup_ListNoDup in Hnd. rewrite NoDup_nth in Hnd.
    pose proof (Nat.mod_upper_bound (i + 1) (length poly) Hn) as H1.
    pose proof (Nat.mod_upper_bound (i + 2) (length poly) Hn) as H2.
    destruct (succ_mod_small i 1 (length poly)) as [[E1 ?] | [E1 ?]]; try lia;
    destruct (succ_mod_small i 2 (length poly)) as [[E2 ?] | [E2 ?]]; try lia;
      (split_and!; intros Heq; apply Hnd in Heq; lia).
Qed.

Lemma edgesOf_1 (a : Pt) : edgesOf [a] = [(a, a)].
Proof. reflexivity. Qed.
Lemma edgesOf_2 (a b : Pt) : edgesOf [a; b] = [(a, b); (b, a)].
Proof. reflexivity. Qed.
Lemma edgesOf_3 (a b c : Pt) : edgesOf [a; b; c] = [(a, b); (b, c); (c, a)].
Proof. reflexivity. Qed.
Lemma turnsOf_1 (a : Pt) : turnsOf [a] = [(a, a, a)].
Proof. reflexivity. Qed.
Lemma turnsOf_2 (a b : Pt) : turnsOf [a; b] = [(a, b, a); (b, a, b)].
Proof. reflexivity. Qed.
Lemma turnsOf_3 (a b c : Pt) :
  turnsOf [a; b; c] = [(a, b, c); (b, c, a); (c, a, b)].
Proof. reflexivity. Qed.

(** Every element of an explicit list: one goal per element. *)
Ltac each_elem H :=
  repeat (apply elem_of_cons in H as [H | H]; [subst |]);
  [.. | inversion H].

(** C5. [convexHull] returns an input of at most three points unchanged.
    On points in general position its vertices are input points, all
    distinct, at least three when the input has three or more; the vertices
    wind consistently (every turn is to the left, or every turn is to the
    right, and strictly so from three vertices on); and every input point
    is on or inside the polygon: on the inner side of, or on, every edge,
    so none is outside.  With more than three points the polygon winds to
    the left. *)
Theorem convex_hull_correct (pts : list Pt) :
  let hull := convexHull pts in
  ((length pts <= 3)%nat → hull = pts) ∧
  (generalPosition pts →
   (∀ v, v ∈ hull → v ∈ pts) ∧
   NoDup hull ∧
   ((3 <= length pts)%nat → (3 <= length hull)%nat) ∧
   (((∀ t, t ∈ turnsOf hull → 0 <= cross t.1.1 t.1.2 t.2) ∧
     (∀ q e, q ∈ pts → e ∈ edgesOf hull → 0 <= cross e.1 e.2 q)) ∨
    ((3 >= length pts)%nat ∧
     (∀ t, t ∈ turnsOf hull → cross t.1.1 t.1.2 t.2 <= 0) ∧
     (∀ q e, q ∈ pts → e ∈ edgesOf hull → cross e.1 e.2 q <= 0))) ∧
   ((3 <= length hull)%nat → ∀ t, t ∈ turnsOf hull → cross t.1.1 t.1.2 t.2 ≠ 0)).
Proof.
  cbv zeta. split.
  { intros Hsmall. unfold convexHull.
    destruct (Nat.leb_spec (length pts) 3); [reflexivity | lia]. }
  intros Hgp.
  assert (Hstrict : ∀ h : list Pt,
             (∀ v, v ∈ h → v ∈ pts) → NoDup h → (3 <= length h)%nat →
             ∀ t, t ∈ turnsOf h → cross t.1.1 t.1.2 t.2 ≠ 0).
  { intros h Hsub Hnd Hlen t Ht.
    destruct (turnsOf_parts h t Ht) as (He & H3 & Hdist).
    destruct (Hdist Hnd Hlen) as (D1 & D2 & D3).
    destruct (edgesOf_endpoints h _ He) as [H1 H2]. cbn [fst snd] in H1, H2.
    apply (proj2 Hgp); auto. }
  destruct (Nat.leb_spec (length pts) 3) as [Hsmall | Hbig].
  - (* at most three points: the input is returned *)
    assert (Eh : convexHull pts = pts).
    { unfold convexHull. destruct (Nat.leb_spec (length pts) 3); [reflexivity | lia]. }
    rewrite Eh. destruct Hgp as [Hnd Hncol].
    split_and!; [auto | exact Hnd | auto | | intros Hl; apply Hstrict; auto].
    destruct pts as [| a [| b [| c [| d l]]]]; [| | | | cbn in Hsmall; lia].
    + left. split; [intros t Ht; inversion Ht | intros q e Hq He; inversion He].
    + left. rewrite turnsOf_1, edgesOf_1. split.
      * intros t Ht. each_elem Ht. cbn [fst snd]. rewrite cross_same_l. lra.
      * intros q e Hq He. each_elem He. cbn [fst snd]. rewrite cross_same_l. lra.
    + left. rewrite turnsOf_2, edgesOf_2. split.
      * intros t Ht. each_elem Ht; cbn [fst snd]; rewrite cross_same_m; lra.
      * intros q e Hq He. each_elem He; each_elem Hq; cbn [fst snd];
          rewrite ?cross_same_m, ?cross_same_r; lra.
    + rewrite turnsOf_3, edgesOf_3.
      destruct (Rle_dec 0 (cross a b c)) as [Hccw | Hcw]; [left | right; split; [cbn; lia |]].
      * split.
        -- intros t Ht. each_elem Ht; cbn [fst snd];
             rewrite <- ?(cross_cyclic a b c), ?(cross_cyclic c a b); lra.
        -- intros q e Hq He. each_elem He; each_elem Hq; cbn [fst snd];
             rewrite ?cross_same_m, ?cross_same_r,
               <- ?(cross_cyclic a b c), ?(cross_cyclic c a b); lra.
      * split.
        -- intros t Ht. each_elem Ht; cbn [fst snd];
             rewrite <- ?(cross_cyclic a b c), ?(cross_cyclic c a b); lra.
        -- intros q e Hq He. each_elem He; each_elem Hq; cbn [fst snd];
             rewrite ?cross_same_m, ?cross_same_r,
               <- ?(cross_cyclic a b c), ?(cross_cyclic c a b); lra.
  - (* more than three points: the two scans *)
    assert (Eh : convexHull pts = reverse (tail (chain (sort pts)))
                                  ++ reverse (tail (chain (reverse (sort pts))))).
    { unfold convexHull. destruct (Nat.leb_spec (length pts) 3); [lia | reflexivity]. }
    rewrite Eh.
    destruct (hull_scans pts (proj1 Hgp) ltac:(lia))
      as (p0 & pn & Hne & HCL & HhL & HlL & HCU & HhU & HlU & HsL & HsU & Hleft).
    set (L := chain (sort pts)) in *. set (U := chain (reverse (sort pts))) in *.
    assert (Hsub : ∀ x, x ∈ reverse (tail L) ++ reverse (tail U) → x ∈ pts)
      by (eapply hull_subset; eauto).
    assert (Hcont : ∀ q e, q ∈ pts → e ∈ edgesOf (reverse (tail L) ++ reverse (tail U)) →
                           0 <= cross e.1 e.2 q)
      by (eapply hull_contains; eauto).
    assert (Hnd : NoDup (reverse (tail L) ++ reverse (tail U)))
      by (eapply hull_NoDup; eauto).
    assert (Hl3 : (3 <= length (reverse (tail L) ++ reverse (tail U)))%nat)
      by (eapply (hull_length pts L U p0 pn); eauto; lia).
    split_and!; [exact Hsub | exact Hnd | auto | | intros _; apply Hstrict; auto].
    left. split.
    + intros t Ht. destruct (turnsOf_parts _ t Ht) as (He & H3 & _).
      apply (Hcont t.2 _ (Hsub _ H3) He).
    + intros q e Hq He. apply Hcont; assumption.
Qed.

(** ** Evaluating the geometry on given points *)

Lemma hypot_eq (a b len : R) :
  0 <= len → len * len = a * a + b * b → hypot a b = len.
Proof.
  intros Hl He. unfold hypot. rewrite <- He. apply sqrt_square, Hl.
Qed.

Lemma hypot_nonneg (a b : R) : 0 <= hypot a b.
Proof. apply sqrt_pos. Qed.

Lemma hypot_sqr (a b : R) : hypot a b * hypot a b = a * a + b * b.
Proof. unfold hypot. apply sqrt_sqrt. nra. Qed.

Lemma normalize_eq (v : Pt) (len : R) :
  0 < len → len * len = px v * px v + py v * py v →
  normalize v = mkPt (px v / len) (py v / len).
Proof.
  intros Hl He. unfold normalize. rewrite (hypot_eq _ _ len) by lra.
  destruct (Req_dec_T len 0); [lra | reflexivity].
Qed.

(** The axis of an edge whose length is known. *)
Lemma axisOf_eq (p1 p2 : Pt) (len : R) :
  0 < len →
  len * len = (px p2 - px p1) * (px p2 - px p1) + (py p2 - py p1) * (py p2 - py p1) →
  axisOf (p1, p2) = mkPt (- (py p2 - py p1) / len) ((px p2 - px p1) / len).
Proof.
  intros Hl He. unfold axisOf. cbn [fst snd].
  rewrite (normalize_eq _ len); cbn [px py]; [reflexivity | exact Hl | lra].
Qed.

(** Membership in an explicit list, by enumeration. *)
Ltac in_list :=
  repeat first [ apply list_elem_of_here | apply list_elem_of_further ].

(** One vertex of the explicit polygon satisfies a linear equation. *)
Ltac pick_in l :=
  lazymatch l with
  | ?a :: ?l' =>
      first [ exists a; split; [in_list | unfold dot; cbn [px py]; lra]
            | pick_in l' ]
  end.
Ltac pick_vertex :=
  lazymatch goal with |- ∃ p, p ∈ ?l ∧ _ => pick_in l end.

(** [projRange poly axis = (lo, hi)] on an explicit polygon. *)
Ltac prove_range :=
  apply projRange_unique;
  [ let p := fresh "p" in let Hp := fresh "Hp" in
    intros p Hp; each_elem Hp; unfold dot; cbn [px py]; lra
  | pick_vertex | pick_vertex ].

Lemma axisOverlap_eq (A B : list Pt) (axis : Pt) (a0 a1 b0 b1 : R) :
  projRange A axis = (a0, a1) → projRange B axis = (b0, b1) →
  axisOverlap A B axis = Rmin a1 b1 - Rmax a0 b0.
Proof. unfold axisOverlap. intros -> ->. reflexivity. Qed.

Lemma edgesOf_4 (a b c d : Pt) :
  edgesOf [a; b; c; d] = [(a, b); (b, c); (c, d); (d, a)].
Proof. reflexivity. Qed.

(** ** Two overlapping unit squares *)

Section Squares.
Variables cx cy d : R.
Hypothesis Hd : -1 < d < 1.

Let A := unitSquare cx cy.
Let B := unitSquare (cx + d) cy.

Lemma centroid_unitSquare (x0 y0 : R) : centroid (unitSquare x0 y0) = mkPt x0 y0.
Proof.
  unfold centroid, unitSquare. cbn [fold_left length fst snd px py INR].
  apply Pt_eq; cbn [px py]; field.
Qed.

Lemma squares_range_x (sx : R) :
  sx = 1 ∨ sx = -1 →
  axisOverlap A B (mkPt sx 0) = 1 - Rabs d.
Proof.
  intros Hs. subst A B. unfold unitSquare.
  destruct Hs as [-> | ->].
  - rewrite (axisOverlap_eq _ _ _ (cx - 1 / 2) (cx + 1 / 2)
               (cx + d - 1 / 2) (cx + d + 1 / 2)) by prove_range.
    unfold Rmin, Rmax, Rabs; destruct (Rcase_abs d); rdec; lra.
  - rewrite (axisOverlap_eq _ _ _ (- (cx + 1 / 2)) (- (cx - 1 / 2))
               (- (cx + d + 1 / 2)) (- (cx + d - 1 / 2))) by prove_range.
    unfold Rmin, Rmax, Rabs; destruct (Rcase_abs d); rdec; lra.
Qed.

Lemma squares_range_y (sy : R) :
  sy = 1 ∨ sy = -1 →
  axisOverlap A B (mkPt 0 sy) = 1.
Proof.
  intros Hs. subst A B. unfold unitSquare.
  destruct Hs as [-> | ->].
  - rewrite (axisOverlap_eq _ _ _ (cy - 1 / 2) (cy + 1 / 2)
               (cy - 1 / 2) (cy + 1 / 2)) by prove_range.
    unfold Rmin, Rmax. rdec; lra.
  - rewrite (axisOverlap_eq _ _ _ (- (cy + 1 / 2)) (- (cy - 1 / 2))
               (- (cy + 1 / 2)) (- (cy - 1 / 2))) by prove_range.
    unfold Rmin, Rmax. rdec; lra.
Qed.

(** The eight candidate axes are the four axis directions. *)
Lemma squares_axes (e : Pt * Pt) :
  e ∈ edgesOf A ++ edgesOf B →
  (∃ sy, (sy = 1 ∨ sy = -1) ∧ axisOf e = mkPt 0 sy) ∨
  (∃ sx, (sx = 1 ∨ sx = -1) ∧ axisOf e = mkPt sx 0).
Proof.
  subst A B. unfold unitSquare. rewrite !edgesOf_4. cbn [app].
  intros He. each_elem He;
    rewrite (axisOf_eq _ _ 1) by (cbn [px py]; lra); cbn [px py].
  1, 5: left; exists 1; split; [auto | apply Pt_eq; cbn [px py]; lra].
  1, 4: right; exists (-1); split; [auto | apply Pt_eq; cbn [px py]; lra].
  1, 3: left; exists (-1); split; [auto | apply Pt_eq; cbn [px py]; lra].
  1, 2: right; exists 1; split; [auto | apply Pt_eq; cbn [px py]; lra].
Qed.

Lemma squares_mtv :
  ∃ m, satMTV A B = Normal (Some m) ∧
       (d ≠ 0 → overlap m = 1 - Rabs d ∧ ny m = 0 ∧
                ((0 < d ∧ nx m = 1) ∨ (d < 0 ∧ nx m = -1))).
Proof.
  assert (HA : A ≠ []) by discriminate.
  assert (HB : B ≠ []) by discriminate.
  assert (Habs : 0 <= Rabs d < 1) by (unfold Rabs; destruct (Rcase_abs d); lra).
  assert (Hov : ∀ e, e ∈ edgesOf A ++ edgesOf B →
            (∃ sy, (sy = 1 ∨ sy = -1) ∧ axisOf e = mkPt 0 sy ∧
                   axisOverlap A B (axisOf e) = 1) ∨
            (∃ sx, (sx = 1 ∨ sx = -1) ∧ axisOf e = mkPt sx 0 ∧
                   axisOverlap A B (axisOf e) = 1 - Rabs d)).
  { intros e He. destruct (squares_axes e He) as [(sy & Hs & E) | (sx & Hs & E)].
    - left. exists sy. rewrite E. auto using squares_range_y.
    - right. exists sx. rewrite E. auto using squares_range_x. }
  destruct (satMTV_spec A B HA HB) as (res & Hres & Hspec).
  assert (EA : centroid A = mkPt cx cy) by apply centroid_unitSquare.
  assert (EB : centroid B = mkPt (cx + d) cy) by apply centroid_unitSquare.
  rewrite EA, EB in Hspec. cbn [px py] in Hspec.
  destruct res as [m |].
  2: { destruct Hspec as (e & He & Hle).
       destruct (Hov e He) as [(s & _ & _ & E) | (s & _ & _ & E)]; lra. }
  exists m. split; [exact Hres |]. intros Hd0.
  destruct Hspec as (Hall & (e & He & Em & Hdir) & _).
  assert (Hx : ∃ e0, e0 ∈ edgesOf A ++ edgesOf B ∧ axisOverlap A B (axisOf e0) = 1 - Rabs d).
  { exists (mkPt (cx + 1 / 2) (cy - 1 / 2), mkPt (cx + 1 / 2) (cy + 1 / 2)).
    split; [subst A B; unfold unitSquare; rewrite !edgesOf_4; in_list |].
    rewrite (axisOf_eq _ _ 1) by (cbn [px py]; lra). cbn [px py].
    replace (mkPt (- (cy + 1 / 2 - (cy - 1 / 2)) / 1) ((cx + 1 / 2 - (cx + 1 / 2)) / 1))
      with (mkPt (-1) 0) by (apply Pt_eq; cbn [px py]; lra).
    apply squares_range_x. auto. }
  destruct Hx as (e0 & He0 & Ee0).
  destruct (Hall e0 He0) as [_ Hmin]. rewrite Ee0 in Hmin.
  assert (HdR : 0 < Rabs d) by (apply Rabs_pos_lt; exact Hd0).
  destruct (Hov e He) as [(s & Hs & Eax & E) | (s & Hs & Eax & E)]; [lra |].
  rewrite Eax in Hdir. unfold dot in Hdir. cbn [px py] in Hdir.
  split; [lra |].
  destruct Hdir as [(Hge & Hnx & Hny) | (Hlt & Hnx & Hny)];
    (split; [lra |]); destruct Hs as [-> | ->];
    destruct (Rlt_dec 0 d); try (left; split; lra); try (right; split; lra).
Qed.
End Squares.

(** The squares at offset 1/2: the vector returned is (1, 0) with overlap
    1/2. *)
Lemma squares_half_mtv :
  satMTV (unitSquare 0 0) (unitSquare (0 + 1 / 2) 0) =
    Normal (Some (mkMTV 1 0 (1 / 2))).
Proof.
  destruct (squares_mtv 0 0 (1 / 2) ltac:(lra)) as (m & Hm & Hspec).
  rewrite Hm. destruct (Hspec ltac:(lra)) as (Hov & Hny & [[_ Hnx] | [Hneg _]]); [| lra].
  destruct m as [mx my mo]. cbn [nx ny overlap] in *.
  rewrite Rabs_right in Hov by lra.
  do 2 f_equal. f_equal; lra.
Qed.

(** C4. Whenever [satMTV] returns a vector, its dot product with the vector
    from the centroid of [A] to the centroid of [B] is non-negative.  For
    two axis-aligned unit squares whose centres differ by [d] along X, with
    |d| < 1, it returns a vector; when [d] is not zero that vector is the
    unit X direction with the sign of [d], and its overlap is 1 - |d|, the
    least overlap over the candidate axes. *)
Theorem mtv_direction :
  (∀ (A B : list Pt) (m : MTV),
     satMTV A B = Normal (Some m) →
     0 <= dot (mkPt (px (centroid B) - px (centroid A))
                    (py (centroid B) - py (centroid A)))
              (mkPt (nx m) (ny m))) ∧
  (∀ cx cy d : R,
     -1 < d < 1 →
     let A := unitSquare cx cy in
     let B := unitSquare (cx + d) cy in
     px (centroid B) - px (centroid A) = d ∧
     ∃ m : MTV,
       satMTV A B = Normal (Some m) ∧
       (0 < d → 0 < nx m) ∧ (d < 0 → nx m < 0) ∧
       (d ≠ 0 → nx m * nx m = 1 ∧ ny m = 0 ∧ overlap m = 1 - Rabs d)).
Proof.
  split; [exact satMTV_direction |].
  intros cx cy d Hd A B. subst A B.
  rewrite !centroid_unitSquare. cbn [px py]. split; [lra |].
  destruct (squares_mtv cx cy d Hd) as (m & Hm & Hspec).
  exists m. split; [exact Hm |]. split_and!.
  - intros Hpos. destruct (Hspec ltac:(lra)) as (_ & _ & [[_ ->] | [Hneg _]]); lra.
  - intros Hneg. destruct (Hspec ltac:(lra)) as (_ & _ & [[Hpos _] | [_ ->]]); lra.
  - intros Hd0. destruct (Hspec Hd0) as (Hov & Hny & [[_ ->] | [_ ->]]);
      split_and!; auto; lra.
Qed.

Lemma mtv_direction_witness :
  0 <= dot (mkPt (px (centroid (unitSquare (0 + 1 / 2) 0)) - px (centroid (unitSquare 0 0)))
                 (py (centroid (unitSquare (0 + 1 / 2) 0)) - py (centroid (unitSquare 0 0))))
           (mkPt (nx (mkMTV 1 0 (1 / 2))) (ny (mkMTV 1 0 (1 / 2)))).
Proof.
  apply (proj1 mtv_direction (unitSquare 0 0) (unitSquare (0 + 1 / 2) 0)
               (mkMTV 1 0 (1 / 2))).
  exact squares_half_mtv.
Defined.

(** ** Running the hull on given points *)

Lemma insertPt_before (a b : Pt) (l : list Pt) :
  lexLe a b → insertPt a (b :: l) = a :: b :: l.
Proof.
  intros H. cbn [insertPt]. apply compareFn_le in H.
  destruct (Rle_dec (compareFn a b) 0); [reflexivity | contradiction].
Qed.

Lemma insertPt_after (a b : Pt) (l : list Pt) :
  lexLt b a → insertPt a (b :: l) = b :: insertPt a l.
Proof.
  intros H. cbn [insertPt].
  destruct (Rle_dec (compareFn a b) 0) as [Hle | ]; [| reflexivity].
  apply compareFn_le in Hle. exfalso.
  eapply lexLt_irrefl, lexLt_le_trans; eauto.
Qed.

Lemma insertPt_nil (a : Pt) : insertPt a [] = [a].
Proof. reflexivity. Qed.

Lemma sort_cons (a : Pt) (l : list Pt) : sort (a :: l) = insertPt a (sort l).
Proof. reflexivity. Qed.

Lemma popWhile_pop (x y : Pt) (s : list Pt) (p : Pt) :
  cross y x p <= 0 → popWhile (x :: y :: s) p = popWhile (y :: s) p.
Proof.
  intros H. rewrite popWhile_cons2. destruct (Rle_dec _ _); [reflexivity | contradiction].
Qed.

Lemma popWhile_keep (x y : Pt) (s : list Pt) (p : Pt) :
  0 < cross y x p → popWhile (x :: y :: s) p = x :: y :: s.
Proof.
  intros H. rewrite popWhile_cons2. destruct (Rle_dec _ _); [lra | reflexivity].
Qed.

Lemma popWhile_1 (x p : Pt) : popWhile [x] p = [x].
Proof. reflexivity. Qed.

Lemma popWhile_0 (p : Pt) : popWhile [] p = [].
Proof. reflexivity. Qed.

Lemma chain_fold (p : list Pt) : chain p = fold_left pushPt p [].
Proof. reflexivity. Qed.

Lemma fold_pushPt_cons (p : Pt) (l s : list Pt) :
  fold_left pushPt (p :: l) s = fold_left pushPt l (p :: popWhile s p).
Proof. reflexivity. Qed.

Ltac lex_side := unfold lexLe, lexLt; cbn [px py]; lra.

(** Sorting an explicit list of points. *)
Ltac eval_insert :=
  repeat first
    [ rewrite insertPt_before by lex_side
    | rewrite insertPt_after by lex_side
    | rewrite insertPt_nil ].
Ltac eval_sort :=
  rewrite ?sort_cons; change (sort []) with (@nil Pt); eval_insert.

(** Scanning an explicit list of points. *)
Ltac eval_scan :=
  rewrite ?chain_fold;
  repeat (rewrite fold_pushPt_cons;
          repeat first
            [ rewrite popWhile_pop by (unfold cross; cbn [px py]; lra)
            | rewrite popWhile_keep by (unfold cross; cbn [px py]; lra)
            | rewrite popWhile_1 | rewrite popWhile_0 ]);
  cbn [fold_left].

Example convexHull_fourPoints :
  convexHull fourPoints = [mkPt 0 0; mkPt 4 1; mkPt 1 4].
Proof.
  unfold convexHull, fourPoints. cbn [length Nat.leb].
  assert (Es : sort [mkPt 2 2; mkPt 0 0; mkPt 1 4; mkPt 4 1] =
               [mkPt 0 0; mkPt 1 4; mkPt 2 2; mkPt 4 1]).
  { eval_sort. reflexivity. }
  rewrite Es.
  assert (El : chain [mkPt 0 0; mkPt 1 4; mkPt 2 2; mkPt 4 1] = [mkPt 4 1; mkPt 0 0]).
  { eval_scan. reflexivity. }
  assert (Eu : chain (reverse [mkPt 0 0; mkPt 1 4; mkPt 2 2; mkPt 4 1]) =
               [mkPt 0 0; mkPt 1 4; mkPt 4 1]).
  { cbn [reverse rev_append]. eval_scan. reflexivity. }
  rewrite El, Eu. reflexivity.
Qed.

Lemma Pt_inv (a b c d : R) : mkPt a b = mkPt c d → a = c ∧ b = d.
Proof. intros [= -> ->]. auto. Qed.

(** Two explicit points differ. *)
Ltac pt_neq :=
  let H := fresh in
  intros H; apply Pt_inv in H; lra.

(** An explicit list of points has no repetition. *)
Ltac nodup_pts :=
  repeat (apply NoDup_cons; split;
          [ let H := fresh in
            intros H;
            repeat (apply elem_of_cons in H as [H | H]; [apply Pt_inv in H; lra |]);
            inversion H
          | ]);
  apply NoDup_nil; exact I.

Lemma fourPoints_general : generalPosition fourPoints.
Proof.
  unfold fourPoints. split; [nodup_pts |].
  intros a b c Ha Hb Hc Hab Hbc Hac.
  each_elem Ha; each_elem Hb; each_elem Hc;
    try (exfalso; apply Hab; reflexivity);
    try (exfalso; apply Hbc; reflexivity);
    try (exfalso; apply Hac; reflexivity);
    unfold cross; cbn [px py]; lra.
Qed.

Lemma convex_hull_correct_witness :
  let hull := convexHull fourPoints in
  (∀ v, v ∈ hull → v ∈ fourPoints) ∧
  NoDup hull ∧
  ((3 <= length fourPoints)%nat → (3 <= length hull)%nat) ∧
  (((∀ t, t ∈ turnsOf hull → 0 <= cross t.1.1 t.1.2 t.2) ∧
    (∀ q e, q ∈ fourPoints → e ∈ edgesOf hull → 0 <= cross e.1 e.2 q)) ∨
   ((3 >= length fourPoints)%nat ∧
    (∀ t, t ∈ turnsOf hull → cross t.1.1 t.1.2 t.2 <= 0) ∧
    (∀ q e, q ∈ fourPoints → e ∈ edgesOf hull → cross e.1 e.2 q <= 0))) ∧
  ((3 <= length hull)%nat → ∀ t, t ∈ turnsOf hull → cross t.1.1 t.1.2 t.2 ≠ 0).
Proof.
  apply (proj2 (convex_hull_correct fourPoints)). exact fourPoints_general.
Defined.

(** ** Moving a polygon *)

Section Move.
Variable t : Pt.

Lemma translate_map (poly : list Pt) : translate t poly = map (movePt t) poly.
Proof. reflexivity. Qed.

Lemma cross_move (o a b : Pt) :
  cross (movePt t o) (movePt t a) (movePt t b) = cross o a b.
Proof. unfold cross, movePt. cbn [px py]. ring. Qed.

Lemma lexLe_move (a b : Pt) : lexLe (movePt t a) (movePt t b) ↔ lexLe a b.
Proof.
  unfold lexLe, lexLt, movePt. cbn [px py]. split.
  - intros [[H | [H1 H2]] | H].
    + left. left. lra.
    + left. right. lra.
    + apply Pt_inv in H. right. apply Pt_eq; lra.
  - intros [[H | [H1 H2]] | ->]; [left; left; lra | left; right; lra | right; reflexivity].
Qed.

Lemma insertPt_move (a : Pt) (l : list Pt) :
  insertPt (movePt t a) (map (movePt t) l) = map (movePt t) (insertPt a l).
Proof.
  induction l as [| b l IH]; [reflexivity |].
  cbn [map insertPt].
  destruct (Rle_dec (compareFn (movePt t a) (movePt t b)) 0) as [H | H];
    destruct (Rle_dec (compareFn a b) 0) as [H' | H'].
  - reflexivity.
  - exfalso. apply H'. apply compareFn_le, lexLe_move, compareFn_le, H.
  - exfalso. apply H. apply compareFn_le, lexLe_move, compareFn_le, H'.
  - cbn [map]. f_equal. exact IH.
Qed.

Lemma sort_move (l : list Pt) : sort (map (movePt t) l) = map (movePt t) (sort l).
Proof.
  induction l as [| a l IH]; [reflexivity |].
  cbn [map]. rewrite !sort_cons, IH. apply insertPt_move.
Qed.

Lemma popWhile_move (s : list Pt) (p : Pt) :
  popWhile (map (movePt t) s) (movePt t p) = map (movePt t) (popWhile s p).
Proof.
  induction s as [| x [| y s] IH]; try reflexivity.
  change (map (movePt t) (x :: y :: s))
    with (movePt t x :: movePt t y :: map (movePt t) s).
  rewrite !popWhile_cons2, cross_move.
  destruct (Rle_dec (cross y x p) 0); [exact IH | reflexivity].
Qed.

Lemma fold_pushPt_move (l s : list Pt) :
  fold_left pushPt (map (movePt t) l) (map (movePt t) s) =
    map (movePt t) (fold_left pushPt l s).
Proof.
  revert s. induction l as [| p l IH]; intros s; [reflexivity |].
  cbn [map fold_left]. rewrite <- IH. f_equal.
  unfold pushPt. rewrite popWhile_move. reflexivity.
Qed.

Lemma chain_move (l : list Pt) : chain (map (movePt t) l) = map (movePt t) (chain l).
Proof. apply (fold_pushPt_move l []). Qed.

Lemma map_tail {X Y : Type} (f : X → Y) (l : list X) : map f (tail l) = tail (map f l).
Proof. destruct l; reflexivity. Qed.

(** The hull of the moved points is the moved hull. *)
Lemma convexHull_move (pts : list Pt) :
  convexHull (translate t pts) = translate t (convexHull pts).
Proof.
  rewrite !translate_map. unfold convexHull. rewrite length_map.
  destruct (length pts <=? 3)%nat; [reflexivity |].
  rewrite sort_move.
  change (map (movePt t) ?l) with (movePt t <$> l).
  rewrite <- fmap_reverse.
  change (movePt t <$> ?l) with (map (movePt t) l).
  rewrite !chain_move.
  rewrite map_app. rewrite <- !map_tail.
  change (map (movePt t) ?l) with (movePt t <$> l).
  rewrite !fmap_reverse. reflexivity.
Qed.

Lemma dot_move (p axis : Pt) : dot (movePt t p) axis = dot p axis + dot t axis.
Proof. unfold dot, movePt. cbn [px py]. ring. Qed.

Lemma projRange_move (poly : list Pt) (axis : Pt) :
  poly ≠ [] →
  projRange (translate t poly) axis =
    ((projRange poly axis).1 + dot t axis, (projRange poly axis).2 + dot t axis).
Proof.
  intros Hne.
  destruct (projectPoly_range axis poly Hne) as (_ & Hr & (pl & Hpl & El) & (ph & Hph & Eh)).
  rewrite translate_map. apply projRange_unique.
  - intros p Hp. apply list_elem_of_fmap in Hp as (q & -> & Hq).
    rewrite dot_move. specialize (Hr q Hq). lra.
  - exists (movePt t pl). split; [apply list_elem_of_fmap; eauto |].
    rewrite dot_move. lra.
  - exists (movePt t ph). split; [apply list_elem_of_fmap; eauto |].
    rewrite dot_move. lra.
Qed.

Lemma axisOf_move (p1 p2 : Pt) : axisOf (movePt t p1, movePt t p2) = axisOf (p1, p2).
Proof.
  unfold axisOf. cbn [fst snd]. f_equal.
  unfold movePt. apply Pt_eq; cbn [px py]; lra.
Qed.

Lemma edgesOf_move (poly : list Pt) (e : Pt * Pt) :
  e ∈ edgesOf poly → (movePt t e.1, movePt t e.2) ∈ edgesOf (translate t poly).
Proof.
  intros He. apply elem_of_edgesOf in He as (i & Hi & ->). cbn [fst snd].
  apply elem_of_edgesOf. rewrite translate_map, length_map. exists i. split; [exact Hi |].
  assert (Hn : length poly ≠ 0%nat) by lia.
  pose proof (Nat.mod_upper_bound (i + 1) (length poly) Hn) as Hm.
  f_equal.
  - rewrite (nth_indep (map (movePt t) poly) _ (movePt t (mkPt 0 0)))
      by (rewrite length_map; exact Hi).
    symmetry. apply map_nth.
  - rewrite (nth_indep (map (movePt t) poly) _ (movePt t (mkPt 0 0)))
      by (rewrite length_map; exact Hm).
    symmetry. apply map_nth.
Qed.
End Move.

(** ** The merged collider *)

Lemma length_popWhile_pos (s : list Pt) (p : Pt) :
  s ≠ [] → (1 <= length (popWhile s p))%nat.
Proof.
  intros H. pose proof (popWhile_nonempty s p H).
  destruct (popWhile s p); [congruence | cbn; lia].
Qed.

Lemma length_fold_pushPt (l s : list Pt) :
  (2 <= length s)%nat ∨ (s ≠ [] ∧ l ≠ []) →
  (2 <= length (fold_left pushPt l s))%nat.
Proof.
  revert s. induction l as [| p l IH]; intros s H.
  - cbn. destruct H as [H | [_ H]]; [exact H | congruence].
  - cbn [fold_left]. apply IH. left. unfold pushPt. cbn [length].
    assert (s ≠ []) by (destruct H as [H | [H _]]; [intros ->; cbn in H; lia | exact H]).
    pose proof (length_popWhile_pos s p ltac:(assumption)). lia.
Qed.

Lemma length_chain (p : list Pt) : (2 <= length p)%nat → (2 <= length (chain p))%nat.
Proof.
  intros H. destruct p as [| p0 [| p1 rest]]; try (cbn in H; lia).
  unfold chain.
  change (fold_left pushPt (p0 :: p1 :: rest) []) with (fold_left pushPt (p1 :: rest) [p0]).
  apply length_fold_pushPt. right. split; discriminate.
Qed.

(** [convexHull] returns a vertex whenever it is given a point. *)
Lemma convexHull_nonempty (pts : list Pt) : pts ≠ [] → convexHull pts ≠ [].
Proof.
  intros Hne. unfold convexHull.
  destruct (Nat.leb_spec (length pts) 3) as [H | H]; [exact Hne |].
  assert (Hs : (2 <= length (sort pts))%nat) by (rewrite sort_perm; lia).
  pose proof (length_chain _ Hs) as HL.
  intros E. apply (f_equal length) in E.
  rewrite length_app, !length_reverse in E. cbn in E.
  destruct (chain (sort pts)) as [| ? [| ? ?]]; cbn in *; lia.
Qed.

Section Collider.
Variable win : Window.

Lemma asteroidWorldPoly_nonempty (a : Asteroid) : asteroidWorldPoly win a ≠ [].
Proof.
  unfold asteroidWorldPoly. apply convexHull_nonempty.
  intros E. apply (f_equal length) in E. rewrite length_app in E. cbn in E. lia.
Qed.

(** The collider depends on the position, the rotation, the silhouette and
    the radius of the body only, and moves with the body. *)
Lemma asteroidWorldPoly_moved (a a' : Asteroid) (dx dy : R) :
  rotation a' = rotation a → vertices a' = vertices a → r a' = r a →
  x a' = x a + dx → y a' = y a + dy →
  asteroidWorldPoly win a' = translate (mkPt dx dy) (asteroidWorldPoly win a).
Proof.
  intros Hrot Hv Hr Hx Hy. unfold asteroidWorldPoly.
  rewrite <- convexHull_move. f_equal.
  rewrite translate_map, map_app. f_equal.
  - rewrite Hrot, Hv, map_map. apply map_ext. intros v.
    unfold movePt. apply Pt_eq; cbn [px py]; lra.
  - unfold getLabelRect. destruct (getLabelDims win) as [w h].
    cbn [map rx ry rw rh]. unfold movePt.
    repeat (f_equal; [apply Pt_eq; cbn [px py]; lra |]).
    f_equal. apply Pt_eq; cbn [px py]; lra.
Qed.

Lemma asteroidWorldPoly_same (a a' : Asteroid) :
  rotation a' = rotation a → vertices a' = vertices a → r a' = r a →
  x a' = x a → y a' = y a →
  asteroidWorldPoly win a' = asteroidWorldPoly win a.
Proof.
  intros Hrot Hv Hr Hx Hy. unfold asteroidWorldPoly, getLabelRect.
  rewrite Hrot, Hv, Hr, Hx, Hy. reflexivity.
Qed.
End Collider.

(** ** The solver loops *)

Section Solver.
Variables (win : Window) (width height : R).

Lemma satMTV_colliders (A B : Asteroid) :
  ∃ res, satMTV (asteroidWorldPoly win A) (asteroidWorldPoly win B) = Normal res.
Proof. apply satMTV_total; apply asteroidWorldPoly_nonempty. Qed.

(** The body of the pair loop never throws and keeps the array length. *)
Lemma resolvePair_total (i j : nat) (asteroids : list Asteroid) :
  ∃ out, resolvePair win i j asteroids = Normal out ∧ length out = length asteroids.
Proof.
  unfold resolvePair.
  destruct (asteroids !! i) as [A |]; [| eauto].
  destruct (asteroids !! j) as [B |]; [| eauto].
  destruct (satMTV_colliders A B) as (res & ->). cbn [mbind completion_bind].
  destruct res as [m |]; [| eauto].
  destruct (pairCorrection m A B) as [A' B'].
  eexists. split; [reflexivity |]. rewrite !length_insert. reflexivity.
Qed.

Lemma forEachIndex_total (body : nat → list Asteroid → completion (list Asteroid))
    (js : list nat) (asteroids : list Asteroid) :
  (∀ j l, ∃ out, body j l = Normal out ∧ length out = length l) →
  ∃ out, forEachIndex body js asteroids = Normal out ∧ length out = length asteroids.
Proof.
  intros Hbody. revert asteroids. induction js as [| j js IH]; intros asteroids.
  - exists asteroids. auto.
  - cbn [forEachIndex]. destruct (Hbody j asteroids) as (mid & -> & Hlen).
    cbn [mbind completion_bind]. destruct (IH mid) as (out & -> & Hlen').
    exists out. split; [reflexivity | congruence].
Qed.

Lemma forEachIndex_id (body : nat → list Asteroid → completion (list Asteroid))
    (js : list nat) (asteroids : list Asteroid) :
  (∀ j, j ∈ js → body j asteroids = Normal asteroids) →
  forEachIndex body js asteroids = Normal asteroids.
Proof.
  induction js as [| j js IH]; intros Hbody; [reflexivity |].
  cbn [forEachIndex]. rewrite (Hbody j) by left. cbn [mbind completion_bind].
  apply IH. intros j' Hj'. apply Hbody. right. exact Hj'.
Qed.

Lemma pairLoop_total (asteroids : list Asteroid) :
  ∃ out, pairLoop win asteroids = Normal out ∧ length out = length asteroids.
Proof.
  unfold pairLoop. apply forEachIndex_total.
  intros i l. apply forEachIndex_total. intros j l'. apply resolvePair_total.
Qed.

Lemma length_clampAll (asteroids : list Asteroid) :
  length (clampAll win width height asteroids) = length asteroids.
Proof. unfold clampAll. apply length_map. Qed.


(** [resolveOverlaps] always returns, with as many bodies as it was given. *)
Lemma resolveOverlaps_total (iterations : nat) (asteroids : list Asteroid) :
  ∃ out, resolveOverlaps win asteroids width height iterations = Normal out ∧
         length out = length asteroids.
Proof.
  revert asteroids. induction iterations as [| n IH]; intros asteroids.
  - exists asteroids. auto.
  - cbn [resolveOverlaps]. destruct (pairLoop_total asteroids) as (mid & -> & Hlen).
    cbn [mbind completion_bind].
    destruct (IH (clampAll win width height mid)) as (out & -> & Hlen').
    exists out. split; [reflexivity |]. rewrite Hlen', length_clampAll. exact Hlen.
Qed.


(** A pass over bodies that are pairwise separated and within their bounds
    changes nothing. *)
Lemma pairLoop_separated (asteroids : list Asteroid) :
  (∀ i j A B, (i < j)%nat → asteroids !! i = Some A → asteroids !! j = Some B →
     satMTV (asteroidWorldPoly win A) (asteroidWorldPoly win B) = Normal None) →
  pairLoop win asteroids = Normal asteroids.
Proof.
  intros Hsep. unfold pairLoop. apply forEachIndex_id. intros i Hi.
  apply forEachIndex_id. intros j Hj. apply elem_of_seq in Hj.
  unfold resolvePair.
  destruct (asteroids !! i) as [A |] eqn:EA; [| reflexivity].
  destruct (asteroids !! j) as [B |] eqn:EB; [| reflexivity].
  rewrite (Hsep i j A B) by (auto; lia). reflexivity.
Qed.

Lemma clampAll_inside (asteroids : list Asteroid) :
  (∀ a, a ∈ asteroids →
     let b := clampBounds win a width height in
     minX b <= x a <= maxX b ∧ minY b <= y a <= maxY b) →
  clampAll win width height asteroids = asteroids.
Proof.
  intros Hin. unfold clampAll. rewrite <- (map_id asteroids) at 2.
  apply map_ext_in. intros a Ha. apply list_elem_of_In in Ha.
  destruct (Hin a Ha) as [Hx Hy]. apply clampToBounds_inside; assumption.
Qed.
End Solver.

(** A configuration that is pairwise separated and within bounds is a fixed
    point of the solver. *)
Lemma resolveOverlaps_fixed (win : Window) (asteroids : list Asteroid)
    (width height : R) (iterations : nat) :
  (∀ i j A B, (i < j)%nat → asteroids !! i = Some A → asteroids !! j = Some B →
     satMTV (asteroidWorldPoly win A) (asteroidWorldPoly win B) = Normal None) →
  (∀ a, a ∈ asteroids →
     let b := clampBounds win a width height in
     minX b <= x a <= maxX b ∧ minY b <= y a <= maxY b) →
  resolveOverlaps win asteroids width height iterations = Normal asteroids.
Proof.
  intros Hsep Hin.
  induction iterations as [| n IH]; [reflexivity |].
  cbn [resolveOverlaps]. rewrite (pairLoop_separated win asteroids Hsep).
  cbn [mbind completion_bind]. rewrite (clampAll_inside win width height asteroids Hin).
  exact IH.
Qed.

(** C6. On a configuration in which [satMTV] returns none for every pair of
    merged colliders and every body is within its clamp bounds,
    [resolveOverlaps] returns the configuration it was given, whatever the
    number of iterations, and the clamp of every body that follows the call
    leaves it as it is: no position changes at all, so every position delta
    is below any positive epsilon. *)
Theorem resolve_fixed_point (win : Window) (asteroids : list Asteroid)
    (width height : R) (iterations : nat) :
  (∀ i j A B, (i < j)%nat → asteroids !! i = Some A → asteroids !! j = Some B →
     satMTV (asteroidWorldPoly win A) (asteroidWorldPoly win B) = Normal None) →
  (∀ a, a ∈ asteroids →
     let b := clampBounds win a width height in
     minX b <= x a <= maxX b ∧ minY b <= y a <= maxY b) →
  resolveOverlaps win asteroids width height iterations = Normal asteroids ∧
  clampAll win width height asteroids = asteroids ∧
  ∀ out i a a' eps,
    resolveOverlaps win asteroids width height iterations = Normal out →
    asteroids !! i = Some a → out !! i = Some a' → 0 < eps →
    Rabs (x a' - x a) < eps ∧ Rabs (y a' - y a) < eps.
Proof.
  intros Hsep Hin.
  pose proof (resolveOverlaps_fixed win asteroids width height iterations Hsep Hin) as Hfix.
  split; [exact Hfix |]. split; [apply clampAll_inside, Hin |].
  intros out i a a' eps Hout Ha Ha' Heps. rewrite Hfix in Hout. injection Hout as <-.
  rewrite Ha in Ha'. injection Ha' as <-.
  rewrite !Rminus_diag, Rabs_R0. auto.
Qed.

(** ** A concrete body and its collider *)

Lemma rock_points (cx cy vx vy : R) :
  asteroidWorldPoly desktop (rock cx cy vx vy) =
    convexHull [ mkPt (cx + 15) cy; mkPt cx (cy + 15); mkPt (cx - 15) cy;
                 mkPt cx (cy - 15);
                 mkPt (cx - 140) (cy + 33); mkPt (cx + 140) (cy + 33);
                 mkPt (cx + 140) (cy + 77); mkPt (cx - 140) (cy + 77) ].
Proof.
  unfold asteroidWorldPoly, getLabelRect. rewrite getLabelDims_desktop.
  cbn [rotation vertices x y r rock diamond map app rx ry rw rh px py].
  replace (0 * PI / 180) with 0 by lra. rewrite cos_0, sin_0.
  unfold LABEL_GAP. f_equal.
  repeat (f_equal; [apply Pt_eq; cbn [px py]; lra |]).
  f_equal. apply Pt_eq; cbn [px py]; lra.
Qed.

Lemma collider_rock (cx cy vx vy : R) :
  asteroidWorldPoly desktop (rock cx cy vx vy) = pentagon cx cy.
Proof.
  rewrite rock_points. unfold convexHull. cbn [length Nat.leb].
  match goal with |- context [sort ?l] =>
    assert (Es : sort l =
      [ mkPt (cx - 140) (cy + 33); mkPt (cx - 140) (cy + 77); mkPt (cx - 15) cy;
        mkPt cx (cy - 15); mkPt cx (cy + 15); mkPt (cx + 15) cy;
        mkPt (cx + 140) (cy + 33); mkPt (cx + 140) (cy + 77) ])
      by (eval_sort; reflexivity);
    rewrite Es; clear Es
  end.
  match goal with |- context [chain (reverse ?l)] =>
    assert (El : chain l =
      [ mkPt (cx + 140) (cy + 77); mkPt (cx + 140) (cy + 33); mkPt cx (cy - 15);
        mkPt (cx - 140) (cy + 33) ])
      by (eval_scan; reflexivity);
    assert (Eu : chain (reverse l) =
      [ mkPt (cx - 140) (cy + 33); mkPt (cx - 140) (cy + 77);
        mkPt (cx + 140) (cy + 77) ])
      by (cbn [reverse rev_append]; eval_scan; reflexivity);
    rewrite El, Eu
  end.
  reflexivity.
Qed.

Lemma edgesOf_5 (a b c d e : Pt) :
  edgesOf [a; b; c; d; e] = [(a, b); (b, c); (c, d); (d, e); (e, a)].
Proof. reflexivity. Qed.

(** The first element of an explicit list for which a tactic succeeds. *)
Ltac try_each l k :=
  lazymatch l with
  | ?a :: ?l' => first [ k a | try_each l' k ]
  end.

(** The projection interval of an explicit polygon, found among its
    vertices. *)
Ltac range_by pmin pmax :=
  apply projRange_unique;
  [ let p := fresh "p" in let Hp := fresh "Hp" in
    intros p Hp; each_elem Hp; unfold dot; cbn [px py]; lra
  | exists pmin; split; [in_list | reflexivity]
  | exists pmax; split; [in_list | reflexivity] ].

Ltac find_range poly axis H :=
  try_each poly ltac:(fun pmin =>
    try_each poly ltac:(fun pmax =>
      assert (H : projRange poly axis = (dot pmin axis, dot pmax axis))
        by range_by pmin pmax)).

(** The overlap of two explicit polygons on an explicit axis. *)
Ltac eval_overlap :=
  lazymatch goal with
  | |- context [axisOverlap ?A ?B ?ax] =>
      let HA := fresh "HA" in
      let HB := fresh "HB" in
      find_range A ax HA; find_range B ax HB;
      rewrite (axisOverlap_eq A B ax _ _ _ _ HA HB); clear HA HB;
      unfold dot; cbn [px py]; unfold Rmin, Rmax; rdec
  end.

(** The axis of an explicit edge whose length is one of [lens]. *)
Ltac eval_axis lens :=
  try_each lens ltac:(fun len =>
    rewrite (axisOf_eq _ _ len) by (cbn [px py]; lra));
  cbn [px py].

(** A polygon overlaps itself on the normal of an edge that has a vertex
    off its line. *)
Lemma axisOverlap_self_pos (P : list Pt) (p1 p2 q : Pt) :
  p1 ∈ P → q ∈ P → cross p1 p2 q ≠ 0 →
  0 < axisOverlap P P (axisOf (p1, p2)).
Proof.
  intros Hp1 Hq Hc.
  assert (HP : P ≠ []) by (intros ->; inversion Hq).
  set (ax := axisOf (p1, p2)).
  destruct (projectPoly_range ax P HP) as (_ & Hr & _ & _).
  pose proof (Hr p1 Hp1) as H1. pose proof (Hr q Hq) as H2.
  unfold axisOverlap. destruct (projRange P ax) as [lo hi]. cbn [fst snd] in *.
  rewrite Rmin_left, Rmax_left by lra.
  assert (Hd : dot q ax - dot p1 ax ≠ 0); [| lra].
  subst ax. unfold axisOf, normalize. cbn [fst snd px py].
  set (len := if Req_dec_T _ 0 then 1e-9 else _).
  assert (Hlen : 0 < len).
  { subst len. destruct (Req_dec_T _ 0); [lra |].
    pose proof (hypot_nonneg (- (py p2 - py p1)) (px p2 - px p1)). lra. }
  unfold dot. cbn [px py].
  replace (px q * (- (py p2 - py p1) / len) + py q * ((px p2 - px p1) / len)
           - (px p1 * (- (py p2 - py p1) / len) + py p1 * ((px p2 - px p1) / len)))
    with (cross p1 p2 q / len) by (unfold cross; field; lra).
  intros H0. apply Hc.
  apply (Rmult_eq_reg_r (/ len)); [| apply Rinv_neq_0_compat; lra].
  rewrite Rmult_0_l. exact H0.
Qed.

(** Two bodies of this kind at the same place overlap. *)
Lemma pentagon_self_overlap (cx cy : R) :
  ∃ m, satMTV (pentagon cx cy) (pentagon cx cy) = Normal (Some m).
Proof.
  apply satMTV_overlapping; try discriminate.
  intros e He. apply elem_of_app in He. assert (He' : e ∈ edgesOf (pentagon cx cy)) by tauto.
  clear He. unfold pentagon in *. rewrite edgesOf_5 in He'.
  each_elem He'.
  - apply (axisOverlap_self_pos _ _ _ (mkPt (cx + 140) (cy + 77)));
      [in_list | in_list | unfold cross; cbn [px py]; lra].
  - apply (axisOverlap_self_pos _ _ _ (mkPt (cx - 140) (cy + 77)));
      [in_list | in_list | unfold cross; cbn [px py]; lra].
  - apply (axisOverlap_self_pos _ _ _ (mkPt (cx - 140) (cy + 77)));
      [in_list | in_list | unfold cross; cbn [px py]; lra].
  - apply (axisOverlap_self_pos _ _ _ (mkPt cx (cy - 15)));
      [in_list | in_list | unfold cross; cbn [px py]; lra].
  - apply (axisOverlap_self_pos _ _ _ (mkPt (cx + 140) (cy + 77)));
      [in_list | in_list | unfold cross; cbn [px py]; lra].
Qed.

(** Two bodies of this kind side by side, more than a label apart, are
    separated. *)
Lemma pentagon_side_by_side (cx cy d : R) :
  280 <= d →
  satMTV (pentagon cx cy) (pentagon (cx + d) cy) = Normal None.
Proof.
  intros Hd.
  assert (HA : pentagon cx cy ≠ []) by discriminate.
  assert (HB : pentagon (cx + d) cy ≠ []) by discriminate.
  apply (satMTV_separated _ _ HA HB
           (mkPt (cx + 140) (cy + 33), mkPt (cx + 140) (cy + 77))).
  - apply elem_of_app. left. unfold pentagon. rewrite edgesOf_5. in_list.
  - unfold pentagon. eval_axis (44 :: nil). eval_overlap; lra.
Qed.

(** One body 80 below the other: the least overlap, 12, is on the vertical
    axis, and the vector returned points down, from the first body to the
    second. *)
Lemma pentagon_stacked_mtv (cx cy : R) :
  satMTV (pentagon cx cy) (pentagon cx (cy + 80)) = Normal (Some (mkMTV 0 1 12)).
Proof.
  set (A := pentagon cx cy). set (B := pentagon cx (cy + 80)).
  assert (Htable : ∀ e, e ∈ edgesOf A ++ edgesOf B →
            (axisOf e = mkPt 0 (-1) ∧ axisOverlap A B (axisOf e) = 12) ∨
            12 < axisOverlap A B (axisOf e)).
  { intros e He. subst A B. unfold pentagon in *. rewrite !edgesOf_5 in He.
    cbn [app] in He.
    each_elem He; eval_axis (44 :: 280 :: 148 :: nil);
      first [ left; split; [apply Pt_eq; cbn [px py]; lra | eval_overlap; lra]
            | right; eval_overlap; lra ]. }
  assert (HA : A ≠ []) by discriminate.
  assert (HB : B ≠ []) by discriminate.
  destruct (satMTV_spec A B HA HB) as (res & Hres & Hspec).
  rewrite Hres. clear Hres.
  assert (EA : centroid A = mkPt cx (cy + 41)).
  { subst A. unfold centroid, pentagon. cbn [fold_left length fst snd px py INR].
    apply Pt_eq; cbn [px py]; field. }
  assert (EB : centroid B = mkPt cx (cy + 121)).
  { subst B. unfold centroid, pentagon. cbn [fold_left length fst snd px py INR].
    apply Pt_eq; cbn [px py]; field. }
  rewrite EA, EB in Hspec. cbn [px py] in Hspec.
  destruct res as [m |].
  2: { destruct Hspec as (e & He & Hle). destruct (Htable e He) as [[_ H] | H]; lra. }
  destruct Hspec as (Hall & (e & He & Em & Hdir) & _).
  assert (Hmin : overlap m <= 12).
  { destruct (Hall (mkPt (cx + 140) (cy + 77), mkPt (cx - 140) (cy + 77))) as [_ H].
    - apply elem_of_app. left. subst A. unfold pentagon. rewrite edgesOf_5. in_list.
    - destruct (Htable (mkPt (cx + 140) (cy + 77), mkPt (cx - 140) (cy + 77))) as [[_ H'] | H'].
      + apply elem_of_app. left. subst A. unfold pentagon. rewrite edgesOf_5. in_list.
      + lra.
      + assert (Hax : axisOf (mkPt (cx + 140) (cy + 77), mkPt (cx - 140) (cy + 77)) = mkPt 0 (-1)).
        { rewrite (axisOf_eq _ _ 280) by (cbn [px py]; lra).
          apply Pt_eq; cbn [px py]; lra. }
        exfalso. rewrite Hax in H'.
        assert (H12 : axisOverlap A B (mkPt 0 (-1)) = 12).
        { subst A B. unfold pentagon. eval_overlap; lra. }
        lra. }
  destruct (Htable e He) as [[Hax Hov] | Hgt]; [| lra].
  rewrite Hax in Hdir. unfold dot in Hdir. cbn [px py] in Hdir.
  destruct Hdir as [(Hge & _) | (_ & Hnx & Hny)]; [lra |].
  destruct m as [mx my mo]. cbn [nx ny overlap] in *.
  do 2 f_equal. f_equal; lra.
Qed.

(** Two bodies of this kind at the same place: the least overlap, 92, is on
    the vertical axis, the normal of the lower edge of the label. *)
Lemma pentagon_same_mtv (cx cy : R) :
  satMTV (pentagon cx cy) (pentagon cx cy) = Normal (Some (mkMTV 0 (-1) 92)).
Proof.
  set (A := pentagon cx cy).
  assert (Htable : ∀ e, e ∈ edgesOf A ++ edgesOf A →
            (axisOf e = mkPt 0 (-1) ∧ axisOverlap A A (axisOf e) = 92) ∨
            92 < axisOverlap A A (axisOf e)).
  { intros e He. subst A. unfold pentagon in *. rewrite !edgesOf_5 in He.
    cbn [app] in He.
    each_elem He; eval_axis (44 :: 280 :: 148 :: nil);
      first [ left; split; [apply Pt_eq; cbn [px py]; lra | eval_overlap; lra]
            | right; eval_overlap; lra ]. }
  assert (HA : A ≠ []) by discriminate.
  destruct (satMTV_spec A A HA HA) as (res & Hres & Hspec).
  rewrite Hres. clear Hres.
  rewrite !Rminus_diag in Hspec.
  destruct res as [m |].
  2: { destruct Hspec as (e & He & Hle). destruct (Htable e He) as [[_ H] | H]; lra. }
  destruct Hspec as (Hall & (e & He & Em & Hdir) & _).
  assert (Hmin : overlap m <= 92).
  { assert (Hin : (mkPt (cx + 140) (cy + 77), mkPt (cx - 140) (cy + 77))
                  ∈ edgesOf A ++ edgesOf A).
    { apply elem_of_app. left. subst A. unfold pentagon. rewrite edgesOf_5. in_list. }
    destruct (Hall _ Hin) as [_ H].
    destruct (Htable _ Hin) as [[_ H'] | H']; [lra |].
    assert (Hax : axisOf (mkPt (cx + 140) (cy + 77), mkPt (cx - 140) (cy + 77)) = mkPt 0 (-1)).
    { rewrite (axisOf_eq _ _ 280) by (cbn [px py]; lra).
      apply Pt_eq; cbn [px py]; lra. }
    exfalso. rewrite Hax in H'.
    assert (H92 : axisOverlap A A (mkPt 0 (-1)) = 92).
    { subst A. unfold pentagon. eval_overlap; lra. }
    lra. }
  destruct (Htable e He) as [[Hax Hov] | Hgt]; [| lra].
  rewrite Hax in Hdir. unfold dot in Hdir. cbn [px py] in Hdir.
  destruct Hdir as [(_ & Hnx & Hny) | (Hlt & _)]; [| lra].
  destruct m as [mx my mo]. cbn [nx ny overlap] in *.
  do 2 f_equal. f_equal; lra.
Qed.

(** ** Containment *)

Lemma rock_bounds (cx cy vx vy width : R) :
  clampBounds desktop (rock cx cy vx vy) width 800 = mkBounds 180 (width - 180) 55 499.
Proof.
  rewrite clampBounds_formulas, getLabelDims_desktop.
  cbn [fst snd r rock]. unfold Rmax. rdec; f_equal; lra.
Qed.




(** ** Separation *)

Lemma dot_neg_r (p axis : Pt) : dot p (neg axis) = - dot p axis.
Proof. unfold dot, neg. cbn [px py]. ring. Qed.

(** Projecting on the opposite axis mirrors the interval. *)
Lemma projRange_neg (poly : list Pt) (axis : Pt) :
  poly ≠ [] →
  projRange poly (neg axis) = (- (projRange poly axis).2, - (projRange poly axis).1).
Proof.
  intros Hne.
  destruct (projectPoly_range axis poly Hne) as (_ & Hr & (pl & Hpl & El) & (ph & Hph & Eh)).
  apply projRange_unique.
  - intros p Hp. rewrite dot_neg_r. specialize (Hr p Hp). lra.
  - exists ph. split; [exact Hph |]. rewrite dot_neg_r. lra.
  - exists pl. split; [exact Hpl |]. rewrite dot_neg_r. lra.
Qed.

Lemma axisOverlap_neg (A B : list Pt) (axis : Pt) :
  A ≠ [] → B ≠ [] → axisOverlap A B (neg axis) = axisOverlap A B axis.
Proof.
  intros HA HB. unfold axisOverlap. rewrite !projRange_neg by assumption.
  cbn [fst snd]. unfold Rmin, Rmax. rdec; lra.
Qed.

(** An axis on which two polygons overlap is a unit vector. *)
Lemma axisOf_unit (A B : list Pt) (e : Pt * Pt) :
  A ≠ [] → B ≠ [] → 0 < axisOverlap A B (axisOf e) →
  dot (axisOf e) (axisOf e) = 1.
Proof.
  intros HA HB Hov. destruct e as [p1 p2].
  set (vx := - (py p2 - py p1)). set (vy := px p2 - px p1).
  destruct (Req_dec_T (hypot vx vy) 0) as [Hz | Hnz].
  - exfalso.
    assert (Hv : vx = 0 ∧ vy = 0).
    { pose proof (hypot_sqr vx vy) as Hs. rewrite Hz in Hs. nra. }
    assert (Hax : axisOf (p1, p2) = mkPt 0 0).
    { unfold axisOf, normalize. cbn [fst snd px py]. fold vx vy.
      destruct Hv as [-> ->]. apply Pt_eq; cbn [px py]; unfold Rdiv; ring. }
    rewrite Hax in Hov.
    assert (HrA : projRange A (mkPt 0 0) = (0, 0)).
    { destruct A as [| a0 A']; [congruence |]. apply projRange_unique.
      - intros p _. unfold dot. cbn [px py]. lra.
      - exists a0. split; [left | unfold dot; cbn [px py]; lra].
      - exists a0. split; [left | unfold dot; cbn [px py]; lra]. }
    assert (HrB : projRange B (mkPt 0 0) = (0, 0)).
    { destruct B as [| b0 B']; [congruence |]. apply projRange_unique.
      - intros p _. unfold dot. cbn [px py]. lra.
      - exists b0. split; [left | unfold dot; cbn [px py]; lra].
      - exists b0. split; [left | unfold dot; cbn [px py]; lra]. }
    unfold axisOverlap in Hov. rewrite HrA, HrB in Hov. cbn [fst snd] in Hov.
    rewrite Rmin_left, Rmax_left in Hov by lra. lra.
  - unfold axisOf, normalize. cbn [fst snd px py]. fold vx vy.
    destruct (Req_dec_T (hypot vx vy) 0); [contradiction |].
    unfold dot. cbn [px py]. pose proof (hypot_sqr vx vy) as Hs.
    field_simplify_eq; [lra | exact Hnz].
Qed.

Section Separation.
Variables (win : Window) (A B : Asteroid) (m : MTV).

Let polyA := asteroidWorldPoly win A.
Let polyB := asteroidWorldPoly win B.
Let n := mkPt (nx m) (ny m).
Let A' := (pairCorrection m A B).1.
Let B' := (pairCorrection m A B).2.
Let push := (overlap m + SEP) * 0.5.

Hypothesis Hmtv : satMTV polyA polyB = Normal (Some m).

(** The vector returned is a unit edge normal of one of the two colliders,
    or its opposite, and its overlap is their overlap on it. *)
Lemma mtv_edge :
  ∃ e, e ∈ edgesOf polyA ++ edgesOf polyB ∧
       (axisOf e = n ∨ axisOf e = neg n) ∧
       overlap m = axisOverlap polyA polyB n ∧
       0 < overlap m ∧ dot n n = 1.
Proof.
  assert (HA : polyA ≠ []) by apply asteroidWorldPoly_nonempty.
  assert (HB : polyB ≠ []) by apply asteroidWorldPoly_nonempty.
  destruct (satMTV_spec polyA polyB HA HB) as (res & Hres & Hspec).
  rewrite Hmtv in Hres. injection Hres as <-.
  destruct Hspec as (Hall & (e & He & Em & Hdir) & _).
  destruct (Hall e He) as [Hpos _].
  pose proof (axisOf_unit polyA polyB e HA HB Hpos) as Hunit.
  exists e. split; [exact He |].
  destruct Hdir as [(_ & Hnx & Hny) | (_ & Hnx & Hny)].
  - assert (En : axisOf e = n) by (unfold n; apply Pt_eq; cbn [px py]; lra).
    rewrite <- En. split_and!; auto. lra.
  - assert (En : axisOf e = neg n) by (unfold n, neg; apply Pt_eq; cbn [px py]; lra).
    assert (En' : n = neg (axisOf e)) by (rewrite En, neg_involutive; reflexivity).
    split_and!; auto.
    + rewrite En', axisOverlap_neg by assumption. exact Em.
    + lra.
    + rewrite En'. unfold dot, neg in *. cbn [px py]. lra.
Qed.

Lemma corrected_colliders :
  asteroidWorldPoly win A' = translate (mkPt (- (nx m * push)) (- (ny m * push))) polyA ∧
  asteroidWorldPoly win B' = translate (mkPt (nx m * push) (ny m * push)) polyB.
Proof.
  destruct (pairCorrection_shape m A B) as [(HrA & HvA & HoA) (HrB & HvB & HoB)].
  destruct (pairCorrection_position m A B) as (HxA & HyA & HxB & HyB).
  fold A' in HrA, HvA, HoA, HxA, HyA. fold B' in HrB, HvB, HoB, HxB, HyB.
  fold push in HxA, HyA, HxB, HyB.
  split; apply asteroidWorldPoly_moved; auto; lra.
Qed.

Hypothesis Hlo : (projRange polyA n).1 <= (projRange polyB n).1.
Hypothesis Hhi : (projRange polyA n).2 <= (projRange polyB n).2.

Lemma corrected_overlap :
  axisOverlap (asteroidWorldPoly win A') (asteroidWorldPoly win B') n = - SEP.
Proof.
  assert (HA : polyA ≠ []) by apply asteroidWorldPoly_nonempty.
  assert (HB : polyB ≠ []) by apply asteroidWorldPoly_nonempty.
  destruct mtv_edge as (e & _ & _ & Eov & Hpos & Hunit).
  destruct corrected_colliders as [-> ->].
  unfold axisOverlap in *. rewrite !projRange_move by assumption.
  cbn [fst snd].
  pose proof (projRange_le n polyA HA) as HleA.
  pose proof (projRange_le n polyB HB) as HleB.
  destruct (projRange polyA n) as [a0 a1]. destruct (projRange polyB n) as [b0 b1].
  cbn [fst snd] in *.
  assert (Ed1 : dot (mkPt (- (nx m * push)) (- (ny m * push))) n = - push).
  { unfold dot, n in *. cbn [px py] in *.
    replace (- (nx m * push) * nx m + - (ny m * push) * ny m)
      with (- push * (nx m * nx m + ny m * ny m)) by ring.
    rewrite Hunit. ring. }
  assert (Ed2 : dot (mkPt (nx m * push) (ny m * push)) n = push).
  { unfold dot, n in *. cbn [px py] in *.
    replace (nx m * push * nx m + ny m * push * ny m)
      with (push * (nx m * nx m + ny m * ny m)) by ring.
    rewrite Hunit. ring. }
  rewrite Ed1, Ed2.
  assert (Hpush : 0 < push) by (unfold push, SEP; lra).
  rewrite Rmin_left, Rmax_right in Eov by lra.
  rewrite Rmin_left, Rmax_right by lra.
  unfold push, SEP in *. lra.
Qed.

Lemma corrected_separated :
  satMTV (asteroidWorldPoly win A') (asteroidWorldPoly win B') = Normal None.
Proof.
  assert (HA' : asteroidWorldPoly win A' ≠ []) by apply asteroidWorldPoly_nonempty.
  assert (HB' : asteroidWorldPoly win B' ≠ []) by apply asteroidWorldPoly_nonempty.
  pose proof corrected_overlap as Hov.
  destruct mtv_edge as (e & He & Hax & _).
  destruct corrected_colliders as [EA EB].
  assert (Hsep : ∀ t, axisOverlap (asteroidWorldPoly win A') (asteroidWorldPoly win B')
                        (axisOf (movePt t e.1, movePt t e.2)) <= 0).
  { intros t. rewrite axisOf_move. destruct e as [p1 p2]. cbn [fst snd].
    destruct Hax as [-> | ->]; [| rewrite axisOverlap_neg by assumption];
      rewrite Hov; unfold SEP; lra. }
  apply elem_of_app in He as [He | He].
  - set (t := mkPt (- (nx m * push)) (- (ny m * push))) in *.
    apply (satMTV_separated _ _ HA' HB' (movePt t e.1, movePt t e.2)); [| apply Hsep].
    apply elem_of_app. left. rewrite EA. apply edgesOf_move, He.
  - set (t := mkPt (nx m * push) (ny m * push)) in *.
    apply (satMTV_separated _ _ HA' HB' (movePt t e.1, movePt t e.2)); [| apply Hsep].
    apply elem_of_app. right. rewrite EB. apply edgesOf_move, He.
Qed.
End Separation.

(** ** Two bodies *)

Lemma pairLoop_two (win : Window) (A B : Asteroid) :
  pairLoop win [A; B] = resolvePair win 0 1 [A; B].
Proof.
  unfold pairLoop. cbn [length seq Nat.add Nat.sub forEachIndex].
  destruct (resolvePair win 0 1 [A; B]); reflexivity.
Qed.

Lemma pairLoop_two_overlapping (win : Window) (A B : Asteroid) (m : MTV) :
  satMTV (asteroidWorldPoly win A) (asteroidWorldPoly win B) = Normal (Some m) →
  pairLoop win [A; B] =
    Normal [(pairCorrection m A B).1; (pairCorrection m A B).2].
Proof.
  intros Hm. rewrite pairLoop_two. unfold resolvePair.
  cbn [lookup list_lookup]. rewrite Hm. cbn [mbind completion_bind].
  destruct (pairCorrection m A B) as [A' B']. reflexivity.
Qed.

Lemma two_separated (win : Window) (A B : Asteroid) :
  satMTV (asteroidWorldPoly win A) (asteroidWorldPoly win B) = Normal None →
  ∀ i j A0 B0, (i < j)%nat → [A; B] !! i = Some A0 → [A; B] !! j = Some B0 →
    satMTV (asteroidWorldPoly win A0) (asteroidWorldPoly win B0) = Normal None.
Proof.
  intros Hsep i j A0 B0 Hij Hi Hj.
  destruct j as [| [| j]]; [lia | | discriminate].
  destruct i as [| i]; [| lia].
  cbn in Hi, Hj. injection Hi as <-. injection Hj as <-. exact Hsep.
Qed.

(** C1, as stated, fails.  Two bodies that do not overlap, the first one
    150 pixels left of its left bound: the pair loop moves nothing, the
    clamp mirrors the first body about the bound onto the second, and the
    pass ends with the two colliders coinciding. *)
Lemma no_overlap_counterexample :
  satMTV (asteroidWorldPoly desktop (rock 30 300 0 0))
         (asteroidWorldPoly desktop (rock (30 + 300.35) 300 0 0)) = Normal None ∧
  ∃ (A B : Asteroid) (m : MTV),
    resolveOverlaps desktop [rock 30 300 0 0; rock (30 + 300.35) 300 0 0] 1000 800 1
      = Normal [A; B] ∧
    satMTV (asteroidWorldPoly desktop A) (asteroidWorldPoly desktop B)
      = Normal (Some m).
Proof.
  set (A0 := rock 30 300 0 0). set (B0 := rock (30 + 300.35) 300 0 0).
  assert (Hsep : satMTV (asteroidWorldPoly desktop A0) (asteroidWorldPoly desktop B0)
                 = Normal None).
  { subst A0 B0. rewrite !collider_rock. apply pentagon_side_by_side. lra. }
  split; [exact Hsep |].
  set (A1 := clampToBounds desktop A0 1000 800).
  assert (HB : clampToBounds desktop B0 1000 800 = B0).
  { apply clampToBounds_inside; subst B0; rewrite rock_bounds;
      cbn [minX maxX minY maxY x y rock]; lra. }
  assert (Hres : resolveOverlaps desktop [A0; B0] 1000 800 1 = Normal [A1; B0]).
  { cbn [resolveOverlaps]. rewrite (pairLoop_separated desktop [A0; B0]).
    - cbn [mbind completion_bind clampAll map]. rewrite HB. reflexivity.
    - apply two_separated, Hsep. }
  assert (Hpoly : asteroidWorldPoly desktop A1 = pentagon (30 + 300.35) 300).
  { rewrite <- (collider_rock (30 + 300.35) 300 0 0).
    destruct (clampToBounds_vertices desktop 1000 800 A0) as [Hv Hrot].
    destruct (clampToBounds_x desktop 1000 800 A0) as [Hx _].
    destruct (clampToBounds_y desktop 1000 800 A0) as (_ & _ & Hy).
    subst A0. rewrite rock_bounds in Hx, Hy. cbn [minX maxX minY maxY x y rock] in Hx, Hy.
    destruct (Hx ltac:(lra)) as [Hx' _]. destruct (Hy ltac:(lra)) as [Hy' _].
    apply asteroidWorldPoly_same; unfold A1.
    - rewrite Hrot. reflexivity.
    - rewrite Hv. reflexivity.
    - rewrite clampToBounds_r. reflexivity.
    - rewrite Hx'. cbn [x rock]. lra.
    - rewrite Hy'. reflexivity. }
  destruct (pentagon_self_overlap (30 + 300.35) 300) as (m & Hm).
  exists A1, B0, m. split; [exact Hres |].
  rewrite Hpoly. subst B0. rewrite collider_rock. exact Hm.
Qed.

(** The same failure with the two iterations per call that the frame loop
    and the initial settling use.  The first iteration mirrors the first
    body onto the second; the second iteration pushes them 92.25 apart
    vertically, one of them above its top bound, and its clamp mirrors that
    one back onto the other. *)
Lemma no_overlap_after_two_iterations :
  ∃ (A B : Asteroid) (m : MTV),
    resolveOverlaps desktop [rock 30 55.175 0 0; rock (30 + 300.35) 55.175 0 0]
                    1000 800 2 = Normal [A; B] ∧
    x A = x B ∧ y A = y B ∧
    satMTV (asteroidWorldPoly desktop A) (asteroidWorldPoly desktop B)
      = Normal (Some m).
Proof.
  set (A0 := rock 30 55.175 0 0). set (B0 := rock (30 + 300.35) 55.175 0 0).
  assert (Hsep : satMTV (asteroidWorldPoly desktop A0) (asteroidWorldPoly desktop B0)
                 = Normal None).
  { subst A0 B0. rewrite !collider_rock. apply pentagon_side_by_side. lra. }
  set (A1 := clampToBounds desktop A0 1000 800).
  assert (HB : clampToBounds desktop B0 1000 800 = B0).
  { apply clampToBounds_inside; subst B0; rewrite rock_bounds;
      cbn [minX maxX minY maxY x y rock]; lra. }
  (* the first body after the first clamp *)
  assert (HA1 : rotation A1 = 0 ∧ vertices A1 = diamond ∧ r A1 = 15 ∧
                x A1 = 330.35 ∧ y A1 = 55.175 ∧ driftX A1 = 0 ∧ driftY A1 = 0).
  { destruct (clampToBounds_vertices desktop 1000 800 A0) as [Hv Hrot].
    destruct (clampToBounds_x desktop 1000 800 A0) as [Hx _].
    destruct (clampToBounds_y desktop 1000 800 A0) as (_ & _ & Hy).
    pose proof (clampToBounds_r desktop 1000 800 A0) as Hr.
    subst A0. rewrite rock_bounds in Hx, Hy. cbn [minX maxX minY maxY x y rock] in Hx, Hy.
    destruct (Hx ltac:(lra)) as [Hx' Hdx]. destruct (Hy ltac:(lra)) as [Hy' Hdy].
    fold A1 in Hv, Hrot, Hr, Hx', Hdx, Hy', Hdy.
    cbn [driftX driftY rock] in Hdx, Hdy. rewrite Rabs_R0 in Hdx.
    split_and!; auto; lra. }
  destruct HA1 as (Hrot1 & Hv1 & Hr1 & Hx1 & Hy1 & Hdx1 & Hdy1).
  assert (Hp1 : asteroidWorldPoly desktop A1 = pentagon (30 + 300.35) 55.175).
  { rewrite <- (collider_rock (30 + 300.35) 55.175 0 0).
    apply asteroidWorldPoly_same; cbn [rotation vertices r x y rock]; auto; lra. }
  assert (Hm : satMTV (asteroidWorldPoly desktop A1) (asteroidWorldPoly desktop B0)
               = Normal (Some (mkMTV 0 (-1) 92))).
  { rewrite Hp1. subst B0. rewrite collider_rock. apply pentagon_same_mtv. }
  set (m := mkMTV 0 (-1) 92) in *.
  set (A2 := (pairCorrection m A1 B0).1). set (B2 := (pairCorrection m A1 B0).2).
  set (A3 := clampToBounds desktop A2 1000 800).
  set (B3 := clampToBounds desktop B2 1000 800).
  assert (Hres : resolveOverlaps desktop [A0; B0] 1000 800 2 = Normal [A3; B3]).
  { cbn [resolveOverlaps]. rewrite (pairLoop_separated desktop [A0; B0]).
    - cbn [mbind completion_bind clampAll map]. rewrite HB. fold A1.
      rewrite (pairLoop_two_overlapping desktop A1 B0 m Hm). reflexivity.
    - apply two_separated, Hsep. }
  destruct (pairCorrection_shape m A1 B0) as [(HrA & HvA & HoA) (HrB & HvB & HoB)].
  destruct (pairCorrection_position m A1 B0) as (HxA & HyA & HxB & HyB).
  fold A2 in HrA, HvA, HoA, HxA, HyA. fold B2 in HrB, HvB, HoB, HxB, HyB.
  unfold m, SEP in HxA, HyA, HxB, HyB. cbn [nx ny overlap x y rock B0] in HxA, HyA, HxB, HyB.
  rewrite Hx1 in HxA. rewrite Hy1 in HyA.
  assert (EbA : clampBounds desktop A2 1000 800 = mkBounds 180 820 55 499).
  { rewrite (clampBounds_radius desktop 1000 800 A2 (rock 0 0 0 0)) by (rewrite HrA; exact Hr1).
    rewrite rock_bounds. f_equal; lra. }
  assert (EbB : clampBounds desktop B2 1000 800 = mkBounds 180 820 55 499).
  { rewrite (clampBounds_radius desktop 1000 800 B2 (rock 0 0 0 0)) by (rewrite HrB; reflexivity).
    rewrite rock_bounds. f_equal; lra. }
  (* the first body stays where the push put it; the second is mirrored *)
  assert (HA3 : x A3 = 330.35 ∧ y A3 = 101.3).
  { destruct (clampToBounds_x desktop 1000 800 A2) as (_ & _ & Hx).
    destruct (clampToBounds_y desktop 1000 800 A2) as (_ & _ & Hy).
    rewrite EbA in Hx, Hy. cbn [minX maxX minY maxY] in Hx, Hy. fold A3 in Hx, Hy.
    destruct (Hx ltac:(lra)) as [-> _]. destruct (Hy ltac:(lra)) as [-> _]. lra. }
  assert (HB3 : x B3 = 330.35 ∧ y B3 = 101.3).
  { destruct (clampToBounds_x desktop 1000 800 B2) as (_ & _ & Hx).
    destruct (clampToBounds_y desktop 1000 800 B2) as (Hy & _ & _).
    rewrite EbB in Hx, Hy. cbn [minX maxX minY maxY] in Hx, Hy. fold B3 in Hx, Hy.
    destruct (Hx ltac:(lra)) as [-> _]. destruct (Hy ltac:(lra)) as [-> _]. lra. }
  destruct HA3 as [HxA3 HyA3]. destruct HB3 as [HxB3 HyB3].
  destruct (clampToBounds_vertices desktop 1000 800 A2) as [HvA3 HoA3].
  destruct (clampToBounds_vertices desktop 1000 800 B2) as [HvB3 HoB3].
  pose proof (clampToBounds_r desktop 1000 800 A2) as HrA3.
  pose proof (clampToBounds_r desktop 1000 800 B2) as HrB3.
  fold A3 in HvA3, HoA3, HrA3. fold B3 in HvB3, HoB3, HrB3.
  assert (HpA : asteroidWorldPoly desktop A3 = pentagon 330.35 101.3).
  { rewrite <- (collider_rock 330.35 101.3 0 0).
    apply asteroidWorldPoly_same; cbn [rotation vertices r x y rock]; congruence. }
  assert (HpB : asteroidWorldPoly desktop B3 = pentagon 330.35 101.3).
  { rewrite <- (collider_rock 330.35 101.3 0 0).
    apply asteroidWorldPoly_same; cbn [rotation vertices r x y rock]; try congruence.
    - rewrite HoB3, HoB. reflexivity.
    - rewrite HvB3, HvB. reflexivity.
    - rewrite HrB3, HrB. reflexivity. }
  exists A3, B3, (mkMTV 0 (-1) 92).
  split_and!; [exact Hres | lra | lra |].
  rewrite HpA, HpB. apply pentagon_same_mtv.
Qed.

(** C1, amended.  When [satMTV] returns a vector for a pair and, along that
    vector, the projection of collider A starts and ends no later than that
    of collider B, the positional correction leaves the two colliders with
    projection overlap -SEP on the vector, and [satMTV] returns none for the
    corrected pair.  With these two bodies alone, and the corrected bodies
    within their clamp bounds, every pass of one or more iterations ends in
    that corrected, separated pair. *)
Theorem pair_correction_separates (win : Window) (A B : Asteroid) (m : MTV)
    (width height : R) (iterations : nat) :
  satMTV (asteroidWorldPoly win A) (asteroidWorldPoly win B) = Normal (Some m) →
  (projRange (asteroidWorldPoly win A) (mkPt (nx m) (ny m))).1
    <= (projRange (asteroidWorldPoly win B) (mkPt (nx m) (ny m))).1 →
  (projRange (asteroidWorldPoly win A) (mkPt (nx m) (ny m))).2
    <= (projRange (asteroidWorldPoly win B) (mkPt (nx m) (ny m))).2 →
  let A' := (pairCorrection m A B).1 in
  let B' := (pairCorrection m A B).2 in
  axisOverlap (asteroidWorldPoly win A') (asteroidWorldPoly win B')
              (mkPt (nx m) (ny m)) = - SEP ∧
  satMTV (asteroidWorldPoly win A') (asteroidWorldPoly win B') = Normal None ∧
  ((∀ a, a ∈ [A'; B'] →
      let b := clampBounds win a width height in
      minX b <= x a <= maxX b ∧ minY b <= y a <= maxY b) →
   resolveOverlaps win [A; B] width height (S iterations) = Normal [A'; B']).
Proof.
  intros Hm Hlo Hhi A' B'.
  pose proof (corrected_overlap win A B m Hm Hlo Hhi) as Hov.
  pose proof (corrected_separated win A B m Hm Hlo Hhi) as Hsep.
  split_and!; [exact Hov | exact Hsep |].
  intros Hin. cbn [resolveOverlaps].
  rewrite (pairLoop_two_overlapping win A B m Hm). cbn [mbind completion_bind].
  fold A' B'. rewrite (clampAll_inside win width height [A'; B'] Hin).
  apply resolveOverlaps_fixed; [| exact Hin].
  apply two_separated, Hsep.
Qed.

Lemma stacked_ranges (cx cy : R) :
  projRange (pentagon cx cy) (mkPt 0 1) = (cy - 15, cy + 77).
Proof.
  unfold pentagon.
  apply projRange_unique;
    [ intros p Hp; each_elem Hp; unfold dot; cbn [px py]; lra
    | pick_vertex | pick_vertex ].
Qed.

Lemma pair_correction_separates_witness :
  let A := rock 400 200 0 0 in
  let B := rock 400 (200 + 80) 0 0 in
  let m := mkMTV 0 1 12 in
  let A' := (pairCorrection m A B).1 in
  let B' := (pairCorrection m A B).2 in
  axisOverlap (asteroidWorldPoly desktop A') (asteroidWorldPoly desktop B')
              (mkPt (nx m) (ny m)) = - SEP ∧
  satMTV (asteroidWorldPoly desktop A') (asteroidWorldPoly desktop B') = Normal None ∧
  ((∀ a, a ∈ [A'; B'] →
      let b := clampBounds desktop a 1000 800 in
      minX b <= x a <= maxX b ∧ minY b <= y a <= maxY b) →
   resolveOverlaps desktop [A; B] 1000 800 2 = Normal [A'; B']).
Proof.
  apply (pair_correction_separates desktop (rock 400 200 0 0)
           (rock 400 (200 + 80) 0 0) (mkMTV 0 1 12) 1000 800 1).
  - rewrite !collider_rock. apply pentagon_stacked_mtv.
  - rewrite !collider_rock. cbn [nx ny]. rewrite !stacked_ranges. cbn [fst]. lra.
  - rewrite !collider_rock. cbn [nx ny]. rewrite !stacked_ranges. cbn [snd]. lra.
Defined.

Lemma resolve_fixed_point_witness :
  let asteroids := [rock 300 300 0.1 0.1; rock (300 + 400) 300 (-0.1) 0] in
  resolveOverlaps desktop asteroids 1000 800 2 = Normal asteroids ∧
  clampAll desktop 1000 800 asteroids = asteroids ∧
  ∀ out i a a' eps,
    resolveOverlaps desktop asteroids 1000 800 2 = Normal out →
    asteroids !! i = Some a → out !! i = Some a' → 0 < eps →
    Rabs (x a' - x a) < eps ∧ Rabs (y a' - y a) < eps.
Proof.
  apply (resolve_fixed_point desktop
           [rock 300 300 0.1 0.1; rock (300 + 400) 300 (-0.1) 0] 1000 800 2).
  - apply two_separated. rewrite !collider_rock. apply pentagon_side_by_side. lra.
  - intros a Ha. each_elem Ha; rewrite rock_bounds;
      cbn [minX maxX minY maxY x y rock]; lra.
Defined.

(** * Further properties *)

(** ** The separating axis test, continued *)

Lemma axisOverlap_comm (A B : list Pt) (axis : Pt) :
  axisOverlap A B axis = axisOverlap B A axis.
Proof. unfold axisOverlap. rewrite Rmin_comm, Rmax_comm. reflexivity. Qed.


(** The projections on the zero vector are all zero. *)
Lemma axisOverlap_zero (A B : list Pt) :
  A ≠ [] → B ≠ [] → axisOverlap A B (mkPt 0 0) = 0.
Proof.
  intros HA HB.
  assert (H0 : ∀ P : list Pt, P ≠ [] → projRange P (mkPt 0 0) = (0, 0)).
  { intros [| p0 P] HP; [congruence |]. apply projRange_unique.
    - intros p _. unfold dot. cbn [px py]. lra.
    - exists p0. split; [left | unfold dot; cbn [px py]; lra].
    - exists p0. split; [left | unfold dot; cbn [px py]; lra]. }
  unfold axisOverlap. rewrite !H0 by assumption. cbn [fst snd].
  rewrite Rmin_left, Rmax_left by lra. lra.
Qed.

Lemma axisOf_zero_edge (p : Pt) : axisOf (p, p) = mkPt 0 0.
Proof.
  unfold axisOf, normalize. cbn [fst snd px py].
  apply Pt_eq; cbn [px py]; unfold Rdiv.
  - replace (- (py p - py p)) with 0 by ring. ring.
  - replace (px p - px p) with 0 by ring. ring.
Qed.





Lemma satMTV_nil_l (p : Pt) (P : list Pt) : satMTV [] (p :: P) = TypeError.
Proof.
  unfold satMTV, testAxesFrom. change (edgesOf []) with (@nil (Pt * Pt)).
  cbn [testAxes mbind completion_bind].
  destruct (edgesOf (p :: P)) as [| [p1 p2] es] eqn:E.
  - apply (f_equal length) in E. rewrite length_edgesOf in E. discriminate.
  - reflexivity.
Qed.

Lemma satMTV_nil_r (p : Pt) (P : list Pt) : satMTV (p :: P) [] = TypeError.
Proof.
  unfold satMTV, testAxesFrom.
  destruct (edgesOf (p :: P)) as [| [p1 p2] es] eqn:E.
  - apply (f_equal length) in E. rewrite length_edgesOf in E. discriminate.
  - cbn [testAxes]. rewrite projectPoly_cons. reflexivity.
Qed.


(** The vector [satMTV] returns is a unit vector and its overlap is the
    least one over the edge normals of the two polygons, and positive. *)
Lemma satMTV_least (A B : list Pt) (m : MTV) :
  satMTV A B = Normal (Some m) →
  0 < overlap m ∧ nx m * nx m + ny m * ny m = 1 ∧
  (∀ e, e ∈ edgesOf A ++ edgesOf B → overlap m <= axisOverlap A B (axisOf e)) ∧
  (∃ e, e ∈ edgesOf A ++ edgesOf B ∧
        overlap m = axisOverlap A B (axisOf e) ∧
        (mkPt (nx m) (ny m) = axisOf e ∨ mkPt (nx m) (ny m) = neg (axisOf e))) ∧
  overlap m = axisOverlap A B (mkPt (nx m) (ny m)).
Proof.
  intros Hm. destruct (satMTV_nonempty A B m Hm) as [HA HB].
  destruct (satMTV_spec A B HA HB) as (res & Hres & Hspec).
  rewrite Hm in Hres. injection Hres as <-.
  destruct Hspec as (Hall & (e & He & Em & Hdir) & _).
  destruct (Hall e He) as [Hpos _].
  pose proof (axisOf_unit A B e HA HB Hpos) as Hunit.
  unfold dot in Hunit.
  assert (Hn : mkPt (nx m) (ny m) = axisOf e ∨ mkPt (nx m) (ny m) = neg (axisOf e)).
  { destruct Hdir as [(_ & Hnx & Hny) | (_ & Hnx & Hny)].
    - left. apply Pt_eq; cbn [px py]; lra.
    - right. unfold neg. apply Pt_eq; cbn [px py]; lra. }
  split_and!.
  - lra.
  - destruct Hn as [E | E];
      pose proof (f_equal px E) as E1; pose proof (f_equal py E) as E2;
      cbn [px py neg] in E1, E2; rewrite E1, E2; nra.
  - intros e' He'. apply Hall, He'.
  - exists e. auto.
  - destruct Hn as [-> | ->]; [exact Em |].
    rewrite axisOverlap_neg by assumption. exact Em.
Qed.

(** X1. On two polygons with a vertex each, [satMTV] never throws.  It returns
    none exactly when the projections of the two polygons on some edge
    normal of either of them overlap by zero or less.  Otherwise the vector
    it returns is a unit vector, an edge normal or its opposite, and its
    overlap is positive, is the least overlap over all the edge normals of
    both polygons, and is the overlap along the vector returned. *)
Theorem sat_least_overlap (A B : list Pt) :
  A ≠ [] → B ≠ [] →
  ∃ res, satMTV A B = Normal res ∧
    match res with
    | None => ∃ e, e ∈ edgesOf A ++ edgesOf B ∧ axisOverlap A B (axisOf e) <= 0
    | Some m =>
        0 < overlap m ∧ nx m * nx m + ny m * ny m = 1 ∧
        (∀ e, e ∈ edgesOf A ++ edgesOf B → overlap m <= axisOverlap A B (axisOf e)) ∧
        (∃ e, e ∈ edgesOf A ++ edgesOf B ∧
              overlap m = axisOverlap A B (axisOf e) ∧
              (mkPt (nx m) (ny m) = axisOf e ∨ mkPt (nx m) (ny m) = neg (axisOf e))) ∧
        overlap m = axisOverlap A B (mkPt (nx m) (ny m))
    end.
Proof.
  intros HA HB. destruct (satMTV_spec A B HA HB) as (res & Hres & Hspec).
  exists res. split; [exact Hres |]. destruct res as [m |].
  - apply satMTV_least, Hres.
  - exact Hspec.
Qed.

Lemma sat_least_overlap_witness :
  ∃ res, satMTV (unitSquare 0 0) (unitSquare (0 + 1 / 2) 0) = Normal res ∧
    match res with
    | None => ∃ e, e ∈ edgesOf (unitSquare 0 0) ++ edgesOf (unitSquare (0 + 1 / 2) 0) ∧
                   axisOverlap (unitSquare 0 0) (unitSquare (0 + 1 / 2) 0) (axisOf e) <= 0
    | Some m =>
        0 < overlap m ∧ nx m * nx m + ny m * ny m = 1 ∧
        (∀ e, e ∈ edgesOf (unitSquare 0 0) ++ edgesOf (unitSquare (0 + 1 / 2) 0) →
           overlap m <= axisOverlap (unitSquare 0 0) (unitSquare (0 + 1 / 2) 0) (axisOf e)) ∧
        (∃ e, e ∈ edgesOf (unitSquare 0 0) ++ edgesOf (unitSquare (0 + 1 / 2) 0) ∧
              overlap m = axisOverlap (unitSquare 0 0) (unitSquare (0 + 1 / 2) 0) (axisOf e) ∧
              (mkPt (nx m) (ny m) = axisOf e ∨ mkPt (nx m) (ny m) = neg (axisOf e))) ∧
        overlap m = axisOverlap (unitSquare 0 0) (unitSquare (0 + 1 / 2) 0)
                                (mkPt (nx m) (ny m))
    end.
Proof. apply (sat_least_overlap (unitSquare 0 0) (unitSquare (0 + 1 / 2) 0)); discriminate. Defined.

(** X2. A polygon without vertices: [satMTV] returns none when both polygons are
    empty, and throws a [TypeError] (it reads [poly[0].x] of [undefined])
    when exactly one of them is. *)
Theorem sat_empty_polygon (p : Pt) (P : list Pt) :
  satMTV [] [] = Normal None ∧
  satMTV [] (p :: P) = TypeError ∧
  satMTV (p :: P) [] = TypeError.
Proof.
  split_and!; [reflexivity | apply satMTV_nil_l | apply satMTV_nil_r].
Qed.


(** X4. Exchanging the two polygons: [satMTV] returns none for (B, A) exactly
    when it does for (A, B), and when it returns a vector the overlap is the
    same in both orders. *)
Theorem sat_exchange (A B : list Pt) :
  A ≠ [] → B ≠ [] →
  (satMTV A B = Normal None ↔ satMTV B A = Normal None) ∧
  (∀ m, satMTV A B = Normal (Some m) →
     ∃ m', satMTV B A = Normal (Some m') ∧ overlap m' = overlap m).
Proof.
  intros HA HB.
  assert (Hsw : ∀ P Q : list Pt, P ≠ [] → Q ≠ [] →
            satMTV P Q = Normal None → satMTV Q P = Normal None).
  { intros P Q HP HQ H.
    destruct (satMTV_spec P Q HP HQ) as (res & Hres & Hspec).
    rewrite H in Hres. injection Hres as <-. destruct Hspec as (e & He & Hle).
    apply (satMTV_separated Q P HQ HP e).
    - rewrite elem_of_app in *. tauto.
    - rewrite axisOverlap_comm. exact Hle. }
  split; [split; apply Hsw; assumption |].
  intros m Hm. destruct (satMTV_least A B m Hm) as (Hpos & _ & Hmin & (e & He & Em & _) & _).
  destruct (satMTV_spec B A HB HA) as (res & Hres & Hspec).
  destruct res as [m' |].
  - exists m'. split; [exact Hres |].
    destruct Hspec as (Hall & (e' & He' & Em' & _) & _).
    assert (He2 : e ∈ edgesOf B ++ edgesOf A) by (rewrite elem_of_app in *; tauto).
    assert (He2' : e' ∈ edgesOf A ++ edgesOf B) by (rewrite elem_of_app in *; tauto).
    destruct (Hall e He2) as [_ H1]. specialize (Hmin e' He2').
    rewrite (axisOverlap_comm B A) in H1, Em'. lra.
  - exfalso. apply (Hsw B A HB HA) in Hres. rewrite Hm in Hres. discriminate.
Qed.

Lemma sat_exchange_witness :
  (satMTV (unitSquare 0 0) (unitSquare (0 + 1 / 2) 0) = Normal None ↔
   satMTV (unitSquare (0 + 1 / 2) 0) (unitSquare 0 0) = Normal None) ∧
  (∀ m, satMTV (unitSquare 0 0) (unitSquare (0 + 1 / 2) 0) = Normal (Some m) →
     ∃ m', satMTV (unitSquare (0 + 1 / 2) 0) (unitSquare 0 0) = Normal (Some m') ∧
           overlap m' = overlap m).
Proof. apply (sat_exchange (unitSquare 0 0) (unitSquare (0 + 1 / 2) 0)); discriminate. Defined.

(** X5. An edge of length zero (two equal consecutive vertices, or a polygon of
    one vertex) has the zero vector as its normal, on which every overlap is
    zero: [satMTV] then reports no collision, whatever the polygons. *)
Theorem sat_zero_length_edge (A B : list Pt) (p : Pt) :
  A ≠ [] → B ≠ [] → (p, p) ∈ edgesOf A ++ edgesOf B →
  satMTV A B = Normal None.
Proof.
  intros HA HB He. apply (satMTV_separated A B HA HB (p, p) He).
  rewrite axisOf_zero_edge, axisOverlap_zero by assumption. lra.
Qed.

Lemma sat_zero_length_edge_witness :
  satMTV [mkPt 0 0] (unitSquare 0 0) = Normal None.
Proof.
  apply (sat_zero_length_edge [mkPt 0 0] (unitSquare 0 0) (mkPt 0 0));
    [discriminate | discriminate | left].
Defined.

(** ** The convex hull, continued *)

(** A sorted list is left as it is by the sort. *)
Lemma sort_sorted_id (l : list Pt) : StronglySorted lexLe l → sort l = l.
Proof.
  induction 1 as [| a l Hs IH Ha]; [reflexivity |].
  rewrite sort_cons, IH. destruct l as [| b l]; [reflexivity |].
  apply insertPt_before. rewrite Forall_forall in Ha. apply Ha. left.
Qed.

Lemma sorted_strict_le (l : list Pt) : StronglySorted lexLt l → StronglySorted lexLe l.
Proof.
  induction 1 as [| a l Hs IH Ha]; constructor; [exact IH |].
  eapply Forall_impl; [exact Ha |]. intros x H. left. exact H.
Qed.

(** The sort depends on the points only, not on their order. *)
Lemma sort_Permutation (l1 l2 : list Pt) : l1 ≡ₚ l2 → sort l1 = sort l2.
Proof.
  intros Hp. apply (StronglySorted_unique_strong lexLe).
  - intros x1 x2 _ _. apply lexLe_antisym.
  - apply sort_sorted.
  - apply sort_sorted.
  - rewrite !sort_perm. exact Hp.
Qed.

Lemma popWhile_idem (s : list Pt) (p : Pt) : popWhile (popWhile s p) p = popWhile s p.
Proof.
  induction s as [| x [| y s] IH]; try reflexivity.
  rewrite popWhile_cons2. destruct (Rle_dec (cross y x p) 0) as [H | H]; [exact IH |].
  rewrite popWhile_cons2. destruct (Rle_dec (cross y x p) 0); [contradiction | reflexivity].
Qed.

(** Pushing a point a second time changes nothing, except on the empty
    stack. *)
Lemma pushPt_dup (s : list Pt) (p : Pt) :
  s ≠ [] → pushPt (pushPt s p) p = pushPt s p.
Proof.
  intros Hs. unfold pushPt. f_equal.
  pose proof (popWhile_nonempty s p Hs) as Hne.
  pose proof (popWhile_idem s p) as Hid.
  destruct (popWhile s p) as [| y s']; [congruence |].
  rewrite popWhile_pop; [exact Hid |]. rewrite cross_same_r. lra.
Qed.

Lemma pushPt_pair (p q : Pt) : pushPt [p; p] q = pushPt [p] q.
Proof.
  unfold pushPt. f_equal. rewrite popWhile_pop; [reflexivity |].
  rewrite cross_same_l. lra.
Qed.

Lemma fold_pushPt_nonempty (l s : list Pt) :
  s ≠ [] ∨ l ≠ [] → fold_left pushPt l s ≠ [].
Proof.
  revert s. induction l as [| p l IH]; intros s [H | H]; cbn [fold_left];
    try congruence; apply IH; left; discriminate.
Qed.

(** Dropping one of two equal neighbours does not change the scan, unless
    they are the whole list. *)
Lemma chain_drop_dup (u v : list Pt) (p : Pt) :
  u ≠ [] ∨ v ≠ [] → chain (u ++ p :: p :: v) = chain (u ++ p :: v).
Proof.
  intros H. unfold chain. rewrite !fold_left_app. cbn [fold_left].
  destruct u as [| u0 u].
  - destruct v as [| q v]; [destruct H; congruence |].
    cbn [fold_left]. change (pushPt (pushPt [] p) p) with (pushPt [p] p).
    change (pushPt [] p) with [p].
    replace (pushPt [p] p) with [p; p] by reflexivity.
    rewrite pushPt_pair. reflexivity.
  - rewrite pushPt_dup; [reflexivity |].
    apply fold_pushPt_nonempty. right. discriminate.
Qed.

(** A sorted list is strictly sorted or has two equal neighbours. *)
Lemma sorted_strict_or_dup (l : list Pt) :
  StronglySorted lexLe l →
  StronglySorted lexLt l ∨ ∃ u p v, l = u ++ p :: p :: v.
Proof.
  induction 1 as [| a l Hs IH Ha].
  - left. constructor.
  - destruct IH as [IH | (u & p & v & ->)].
    2: { right. exists (a :: u), p, v. reflexivity. }
    destruct l as [| b l]; [left; repeat constructor |].
    rewrite Forall_forall in Ha.
    destruct (Ha b ltac:(left)) as [Hlt | ->].
    2: { right. exists [], b, l. reflexivity. }
    left. constructor; [exact IH |].
    apply Forall_forall. intros z Hz. apply elem_of_cons in Hz as [-> | Hz]; [exact Hlt |].
    apply StronglySorted_inv in IH as [_ Hb]. rewrite Forall_forall in Hb.
    eapply lexLt_trans; [exact Hlt | apply Hb, Hz].
Qed.

(** The scans of a sorted list with two different points are those of a
    strictly sorted list of the same points. *)
Lemma sorted_squash (n : nat) :
  ∀ l : list Pt, length l = n →
    StronglySorted lexLe l → (∃ a b, a ∈ l ∧ b ∈ l ∧ a ≠ b) →
    ∃ l', StronglySorted lexLt l' ∧ (∀ x, x ∈ l' ↔ x ∈ l) ∧
          chain l' = chain l ∧ chain (reverse l') = chain (reverse l).
Proof.
  induction n as [n IH] using lt_wf_ind. intros l Hlen Hs Hab.
  destruct (sorted_strict_or_dup l Hs) as [Hstrict | (u & p & v & ->)].
  { exists l. split_and!; auto. }
  assert (Huv : u ≠ [] ∨ v ≠ []).
  { destruct u as [| u0 u]; [| left; discriminate].
    destruct v as [| v0 v]; [| right; discriminate].
    exfalso. destruct Hab as (a & b & Ha & Hb & Hne). apply Hne.
    cbn [app] in Ha, Hb. each_elem Ha; each_elem Hb; reflexivity. }
  assert (Hel : ∀ x, x ∈ u ++ p :: v ↔ x ∈ u ++ p :: p :: v).
  { intros x. rewrite !elem_of_app, !elem_of_cons. tauto. }
  destruct (IH (length (u ++ p :: v))) with (l := u ++ p :: v) as (l' & H1 & H2 & H3 & H4).
  - rewrite <- Hlen, !length_app. cbn [length]. lia.
  - reflexivity.
  - apply StronglySorted_app in Hs as (Hcross & Hu & Hpv).
    apply StronglySorted_app_2; [| exact Hu |].
    + intros x1 x2 Hx1 Hx2. apply Hcross; [exact Hx1 |].
      apply elem_of_cons in Hx2 as [-> | Hx2]; [left | right; right; exact Hx2].
    + apply StronglySorted_inv in Hpv as [Hpv _]. exact Hpv.
  - destruct Hab as (a & b & Ha & Hb & Hne). exists a, b.
    rewrite !Hel. auto.
  - exists l'. split_and!; auto.
    + intros x. rewrite H2. apply Hel.
    + rewrite H3. symmetry. apply chain_drop_dup, Huv.
    + rewrite H4. rewrite !reverse_app, !reverse_cons, <- !app_assoc. cbn [app].
      symmetry. apply chain_drop_dup.
      destruct Huv as [Hu | Hv]; [right | left].
      * destruct u; [congruence |]. rewrite reverse_cons. intros E.
        apply app_eq_nil in E as [_ E]. discriminate.
      * destruct v; [congruence |]. rewrite reverse_cons. intros E.
        apply app_eq_nil in E as [_ E]. discriminate.
Qed.

(** The scans of more than three points, two of them different. *)
Lemma hull_scans_any (pts : list Pt) :
  (∃ a b, a ∈ pts ∧ b ∈ pts ∧ a ≠ b) →
  let lower := chain (sort pts) in
  let upper := chain (reverse (sort pts)) in
  ∃ p0 pn, p0 ≠ pn ∧
    head lower = Some pn ∧ last lower = Some p0 ∧
    head upper = Some p0 ∧ last upper = Some pn ∧
    (∀ x, x ∈ lower → x ∈ pts) ∧ (∀ x, x ∈ upper → x ∈ pts) ∧
    (∀ q, q ∈ pts → leftOfAll lower q ∧ leftOfAll upper q ∧ lexLe p0 q).
Proof.
  intros (a & b & Ha & Hb & Hne). cbv zeta.
  pose proof (sort_perm pts) as Hperm.
  destruct (sorted_squash (length (sort pts)) (sort pts) eq_refl (sort_sorted pts))
    as (l' & Hstrict & Hel & Hc1 & Hc2).
  { exists a, b. rewrite !Hperm. auto. }
  assert (Hnd : NoDup l').
  { clear -Hstrict. induction Hstrict as [| x l Hs IH Hx]; constructor; auto.
    intros Hin. rewrite Forall_forall in Hx. eapply lexLt_irrefl, Hx, Hin. }
  assert (Hel' : ∀ x, x ∈ l' ↔ x ∈ pts).
  { intros x. rewrite Hel, Hperm. reflexivity. }
  assert (Hlen : (2 <= length l')%nat).
  { apply Hel' in Ha, Hb. destruct l' as [| c [| d l'']]; cbn; try lia.
    - inversion Ha.
    - apply list_elem_of_singleton in Ha, Hb. congruence. }
  assert (Hsl : sort l' = l').
  { apply sort_sorted_id, sorted_strict_le, Hstrict. }
  destruct (hull_scans l' Hnd Hlen) as (p0 & pn & H0n & HCL & HhL & HlL & HCU & HhU & HlU
                                        & HsL & HsU & Hleft).
  rewrite Hsl, Hc1, Hc2 in *.
  exists p0, pn. split_and!; auto.
  - intros x Hx. apply Hel', HsL, Hx.
  - intros x Hx. apply Hel', HsU, Hx.
  - intros q Hq. apply Hel' in Hq. destruct (Hleft q Hq) as [H1 H2].
    split_and!; auto.
    (* the last vertex of the lower stack is the least point *)
    assert (Hp0 : head l' = Some p0).
    { destruct l' as [| c l'']; [cbn in Hlen; lia |].
      destruct (chain_sorted c l'' Hstrict) as (_ & E & _).
      rewrite <- Hc1 in HlL. rewrite E in HlL. exact HlL. }
    destruct l' as [| c l'']; [discriminate |]. injection Hp0 as ->.
    apply elem_of_cons in Hq as [-> | Hq]; [apply lexLe_refl |].
    apply StronglySorted_inv in Hstrict as [_ Hc]. rewrite Forall_forall in Hc.
    left. apply Hc, Hq.
Qed.

(** X6. Beyond general position: for more than three points, two of them
    different, with repeated and collinear points allowed, every vertex
    [convexHull] returns is an input point, every input point is on the left
    of or on every edge of the polygon returned, every turn of the polygon
    is to the left or straight, and the polygon starts at the least input
    point in the order of the sort. *)
Theorem convex_hull_any_points (pts : list Pt) :
  (3 < length pts)%nat →
  (∃ a b, a ∈ pts ∧ b ∈ pts ∧ a ≠ b) →
  let hull := convexHull pts in
  (∀ v, v ∈ hull → v ∈ pts) ∧
  (∀ q e, q ∈ pts → e ∈ edgesOf hull → 0 <= cross e.1 e.2 q) ∧
  (∀ t, t ∈ turnsOf hull → 0 <= cross t.1.1 t.1.2 t.2) ∧
  (∃ p0, head hull = Some p0 ∧ ∀ q, q ∈ pts → lexLe p0 q).
Proof.
  intros Hlen Hab. cbv zeta.
  assert (Eh : convexHull pts =
               reverse (tail (chain (sort pts))) ++ reverse (tail (chain (reverse (sort pts))))).
  { unfold convexHull. destruct (Nat.leb_spec (length pts) 3); [lia | reflexivity]. }
  rewrite Eh.
  destruct (hull_scans_any pts Hab) as (p0 & pn & H0n & HhL & HlL & HhU & HlU & HsL & HsU & Hleft).
  set (L := chain (sort pts)) in *. set (U := chain (reverse (sort pts))) in *.
  assert (Hsub : ∀ v, v ∈ reverse (tail L) ++ reverse (tail U) → v ∈ pts).
  { intros v. rewrite elem_of_app, !elem_of_reverse.
    intros [Hv | Hv]; apply elem_of_tail in Hv; auto. }
  assert (Hcont : ∀ q e, q ∈ pts → e ∈ edgesOf (reverse (tail L) ++ reverse (tail U)) →
                         0 <= cross e.1 e.2 q).
  { intros q e Hq He. destruct (Hleft q Hq) as (H1 & H2 & _).
    destruct (hull_edges L U p0 pn e H0n HhL HlL HhU HlU He) as [H | H];
      [apply H1, H | apply H2, H]. }
  split_and!; auto.
  - intros t Ht. destruct (turnsOf_parts _ t Ht) as (He & H3 & _).
    apply (Hcont t.2 (t.1.1, t.1.2)); auto.
  - exists p0. split; [| intros q Hq; apply Hleft, Hq].
    destruct L as [| l0 [| l1 L']]; [discriminate | |].
    + cbn in HhL, HlL. congruence.
    + cbn [tail]. clear -HlL.
      assert (Hl : last (l1 :: L') = Some p0) by exact HlL.
      destruct (reverse (l1 :: L')) as [| z zs] eqn:E.
      * apply (f_equal length) in E. rewrite length_reverse in E. discriminate.
      * cbn [app head]. f_equal.
        apply (f_equal reverse) in E. rewrite reverse_involutive in E.
        rewrite E, reverse_cons, last_snoc in Hl. congruence.
Qed.

Lemma convex_hull_any_points_witness :
  let pts := [mkPt 0 0; mkPt 1 1; mkPt 1 1; mkPt 2 2; mkPt 2 0] in
  let hull := convexHull pts in
  (∀ v, v ∈ hull → v ∈ pts) ∧
  (∀ q e, q ∈ pts → e ∈ edgesOf hull → 0 <= cross e.1 e.2 q) ∧
  (∀ t, t ∈ turnsOf hull → 0 <= cross t.1.1 t.1.2 t.2) ∧
  (∃ p0, head hull = Some p0 ∧ ∀ q, q ∈ pts → lexLe p0 q).
Proof.
  apply (convex_hull_any_points [mkPt 0 0; mkPt 1 1; mkPt 1 1; mkPt 2 2; mkPt 2 0]).
  - cbn. lia.
  - exists (mkPt 0 0), (mkPt 1 1). split_and!; [left | right; left |].
    intros H. apply Pt_inv in H. lra.
Defined.

(** X7. For more than three points the result of [convexHull] depends on the
    points only, not on the order in which they are given. *)
Theorem convex_hull_order_independent (pts pts' : list Pt) :
  pts ≡ₚ pts' → (3 < length pts)%nat → convexHull pts = convexHull pts'.
Proof.
  intros Hp Hlen. unfold convexHull.
  rewrite <- (Permutation_length Hp).
  destruct (length pts <=? 3)%nat eqn:E; [apply Nat.leb_le in E; lia |].
  rewrite (sort_Permutation pts pts' Hp). reflexivity.
Qed.

Lemma convex_hull_order_independent_witness :
  convexHull fourPoints = convexHull (reverse fourPoints).
Proof.
  apply (convex_hull_order_independent fourPoints (reverse fourPoints)).
  - symmetry. apply reverse_Permutation.
  - cbn. lia.
Defined.





(** ** The wall clamp, continued *)

Lemma sameBody_refl (a : Asteroid) : sameBody a a.
Proof. unfold sameBody. auto 10. Qed.

Lemma sameBody_trans (a b c : Asteroid) : sameBody a b → sameBody b c → sameBody a c.
Proof. unfold sameBody. intros (?&?&?&?&?&?) (?&?&?&?&?&?). split_and!; congruence. Qed.

Lemma clampToBounds_sameBody (win : Window) (width height : R) (a : Asteroid) :
  sameBody a (clampToBounds win a width height).
Proof. unfold sameBody, clampToBounds. rdec; cbn; auto 10. Qed.

Lemma clampToBounds_drift (win : Window) (width height : R) (a : Asteroid) :
  let a' := clampToBounds win a width height in
  (driftX a' = driftX a ∨ Rabs (driftX a') = 0.98 * Rabs (driftX a)) ∧
  (driftY a' = driftY a ∨ Rabs (driftY a') = 0.98 * Rabs (driftY a)).
Proof.
  cbv zeta. set (b := clampBounds win a width height).
  pose proof (clampToBounds_x win width height a) as (X1 & X2 & X3).
  pose proof (clampToBounds_y win width height a) as (Y1 & Y2 & Y3).
  fold b in X1, X2, X3, Y1, Y2, Y3. cbv zeta in *.
  pose proof (Rabs_pos (driftX a)) as Hax. pose proof (Rabs_pos (driftY a)) as Hay.
  split.
  - destruct (Rlt_dec (x a) (minX b)) as [H1 | H1].
    { right. destruct (X1 H1) as [_ ->]. rewrite Rabs_right; lra. }
    destruct (Rgt_dec (x a) (maxX b)) as [H2 | H2].
    { right. destruct X2 as [_ ->]; [lra | lra |].
      rewrite Rabs_left1; lra. }
    left. apply X3. lra.
  - destruct (Rlt_dec (y a) (minY b)) as [H1 | H1].
    { right. destruct (Y1 H1) as [_ ->]. rewrite Rabs_right; lra. }
    destruct (Rgt_dec (y a) (maxY b)) as [H2 | H2].
    { right. destruct Y2 as [_ ->]; [lra | lra |].
      rewrite Rabs_left1; lra. }
    left. apply Y3. lra.
Qed.

Lemma clampToBounds_speed2 (win : Window) (width height : R) (a : Asteroid) :
  speed2 (clampToBounds win a width height) <= speed2 a.
Proof.
  destruct (clampToBounds_drift win width height a) as [Hx Hy]. unfold speed2.
  set (a' := clampToBounds win a width height) in *.
  assert (Hsq : ∀ u v : R, u = v ∨ Rabs u = 0.98 * Rabs v → u * u <= v * v).
  { intros u v [-> | H]; [lra |].
    pose proof (Rsqr_abs u) as Hu. pose proof (Rsqr_abs v) as Hv.
    unfold Rsqr in Hu, Hv. rewrite Hu, Hv, H. pose proof (Rabs_pos v). nra. }
  pose proof (Hsq _ _ Hx). pose proof (Hsq _ _ Hy). lra.
Qed.

(** A body that rebounds inside is within its bounds after the clamp. *)
Lemma clampToBounds_rebound (win : Window) (width height : R) (a : Asteroid) :
  let b := clampBounds win a width height in
  let a' := clampToBounds win a width height in
  (reboundsInside (minX b) (maxX b) (x a) → minX b <= x a' <= maxX b) ∧
  (reboundsInside (minY b) (maxY b) (y a) → minY b <= y a' <= maxY b).
Proof.
  cbv zeta. set (b := clampBounds win a width height).
  pose proof (clampToBounds_x win width height a) as (X1 & X2 & X3).
  pose proof (clampToBounds_y win width height a) as (Y1 & Y2 & Y3).
  fold b in X1, X2, X3, Y1, Y2, Y3. cbv zeta in *. unfold reboundsInside.
  split.
  - intros [H | [[H1 H2] | [H1 H2]]].
    + destruct (X3 H) as [-> _]. exact H.
    + destruct (X1 H1) as [-> _]. lra.
    + destruct X2 as [-> _]; lra.
  - intros [H | [[H1 H2] | [H1 H2]]].
    + destruct (Y3 H) as [-> _]. exact H.
    + destruct (Y1 H1) as [-> _]. lra.
    + destruct Y2 as [-> _]; lra.
Qed.

Lemma clampToBounds_twice (win : Window) (width height : R) (a : Asteroid) :
  let b := clampBounds win a width height in
  let a' := clampToBounds win a width height in
  reboundsInside (minX b) (maxX b) (x a) → reboundsInside (minY b) (maxY b) (y a) →
  clampToBounds win a' width height = a'.
Proof.
  cbv zeta. intros Hx Hy.
  destruct (clampToBounds_rebound win width height a) as [H1 H2].
  specialize (H1 Hx). specialize (H2 Hy).
  apply clampToBounds_inside;
    rewrite (clampBounds_radius win width height _ a) by apply clampToBounds_r;
    assumption.
Qed.

(** X9. [clampToBounds] touches the position and the drift only; along each
    axis it leaves the drift as it is or gives it 0.98 of its magnitude, and
    it leaves the drift as it is on an axis on which it leaves the position;
    so the speed never grows. *)
Theorem clamp_keeps_body_and_slows (win : Window) (width height : R) (a : Asteroid) :
  let a' := clampToBounds win a width height in
  sameBody a a' ∧
  (driftX a' = driftX a ∨ Rabs (driftX a') = 0.98 * Rabs (driftX a)) ∧
  (driftY a' = driftY a ∨ Rabs (driftY a') = 0.98 * Rabs (driftY a)) ∧
  (x a' = x a → driftX a' = driftX a) ∧
  (y a' = y a → driftY a' = driftY a) ∧
  speed2 a' <= speed2 a.
Proof.
  cbv zeta. destruct (clampToBounds_drift win width height a) as [Hx Hy].
  split_and!; auto using clampToBounds_sameBody, clampToBounds_speed2.
  - set (b := clampBounds win a width height).
    pose proof (clampToBounds_x win width height a) as (X1 & X2 & X3).
    fold b in X1, X2, X3. cbv zeta in *. intros E.
    destruct (Rlt_dec (x a) (minX b)) as [H1 | H1].
    { destruct (X1 H1) as [E' _]. rewrite E' in E. lra. }
    destruct (Rgt_dec (x a) (maxX b)) as [H2 | H2].
    { destruct X2 as [E' _]; [lra | lra |]. rewrite E' in E. lra. }
    apply X3. lra.
  - set (b := clampBounds win a width height).
    pose proof (clampToBounds_y win width height a) as (Y1 & Y2 & Y3).
    fold b in Y1, Y2, Y3. cbv zeta in *. intros E.
    destruct (Rlt_dec (y a) (minY b)) as [H1 | H1].
    { destruct (Y1 H1) as [E' _]. rewrite E' in E. lra. }
    destruct (Rgt_dec (y a) (maxY b)) as [H2 | H2].
    { destruct Y2 as [E' _]; [lra | lra |]. rewrite E' in E. lra. }
    apply Y3. lra.
Qed.

(** X10. A body within its bounds on an axis, or outside by a penetration pen
    with pen + 0.35 no larger than the span of the bounds, is within the
    bounds after [clampToBounds], and a second [clampToBounds] (as the
    frame and the settling apply after [resolveOverlaps]) changes nothing
    more. *)
Theorem clamp_twice (win : Window) (width height : R) (a : Asteroid) :
  let b := clampBounds win a width height in
  let a' := clampToBounds win a width height in
  reboundsInside (minX b) (maxX b) (x a) → reboundsInside (minY b) (maxY b) (y a) →
  (minX b <= x a' <= maxX b ∧ minY b <= y a' <= maxY b) ∧
  clampToBounds win a' width height = a'.
Proof.
  cbv zeta. intros Hx Hy. split; [| apply clampToBounds_twice; assumption].
  destruct (clampToBounds_rebound win width height a) as [H1 H2]. auto.
Qed.

Lemma clamp_twice_witness :
  let b := clampBounds desktop leftOutside 1000 800 in
  let a' := clampToBounds desktop leftOutside 1000 800 in
  (minX b <= x a' <= maxX b ∧ minY b <= y a' <= maxY b) ∧
  clampToBounds desktop a' 1000 800 = a'.
Proof.
  apply (clamp_twice desktop 1000 800 leftOutside); rewrite leftOutside_bounds;
    unfold reboundsInside; cbn [minX maxX minY maxY x y leftOutside]; lra.
Defined.

(** ** The pair correction, continued *)

(** The drifts after the correction, when the bodies are closing. *)
Lemma pairCorrection_drift (m : MTV) (A B : Asteroid) :
  let A' := (pairCorrection m A B).1 in
  let B' := (pairCorrection m A B).2 in
  let relN := (driftX B - driftX A) * nx m + (driftY B - driftY A) * ny m in
  let relT := (driftX B - driftX A) * - ny m + (driftY B - driftY A) * nx m in
  let j := - (1 + 0.97) * relN * 0.5 in
  let jt := - relT * 0.01 * 0.5 in
  (relN < 0 →
     driftX A' = driftX A - nx m * j - - ny m * jt ∧
     driftY A' = driftY A - ny m * j - nx m * jt ∧
     driftX B' = driftX B + nx m * j + - ny m * jt ∧
     driftY B' = driftY B + ny m * j + nx m * jt) ∧
  (0 <= relN →
     driftX A' = driftX A ∧ driftY A' = driftY A ∧
     driftX B' = driftX B ∧ driftY B' = driftY B).
Proof.
  cbv zeta. unfold pairCorrection. cbn [driftX driftY set_x set_y].
  split; intros H; rdec; cbn; auto.
Qed.

Lemma pairCorrection_sameBody (m : MTV) (A B : Asteroid) :
  sameBody A (pairCorrection m A B).1 ∧ sameBody B (pairCorrection m A B).2.
Proof. unfold sameBody, pairCorrection. rdec; cbn; auto 20. Qed.

Lemma pairCorrection_speed2 (m : MTV) (A B : Asteroid) :
  nx m * nx m + ny m * ny m = 1 →
  speed2 (pairCorrection m A B).1 + speed2 (pairCorrection m A B).2
    <= speed2 A + speed2 B.
Proof.
  intros Hunit. destruct (pairCorrection_drift m A B) as [Hclosing Hapart].
  cbv zeta in *. unfold speed2.
  set (relN := (driftX B - driftX A) * nx m + (driftY B - driftY A) * ny m) in *.
  set (relT := (driftX B - driftX A) * - ny m + (driftY B - driftY A) * nx m) in *.
  destruct (Rlt_dec relN 0) as [H | H].
  - destruct (Hclosing H) as (-> & -> & -> & ->).
    set (c1 := (1 + 0.97) * relN * 0.5). set (c2 := relT * 0.01 * 0.5).
    set (ax := driftX A). set (ay := driftY A). set (bx := driftX B). set (by_ := driftY B).
    set (u := nx m) in *. set (v := ny m) in *.
    assert (Hid :
      (ax - u * - c1 - - v * - c2) * (ax - u * - c1 - - v * - c2)
      + (ay - v * - c1 - u * - c2) * (ay - v * - c1 - u * - c2)
      + ((bx + u * - c1 + - v * - c2) * (bx + u * - c1 + - v * - c2)
         + (by_ + v * - c1 + u * - c2) * (by_ + v * - c1 + u * - c2))
      = ax * ax + ay * ay + (bx * bx + by_ * by_)
        - 2 * c1 * ((bx - ax) * u + (by_ - ay) * v)
        - 2 * c2 * ((bx - ax) * - v + (by_ - ay) * u)
        + 2 * (c1 * c1 + c2 * c2) * (u * u + v * v)) by ring.
    replace (- (1 + 0.97) * relN * 0.5) with (- c1) by (unfold c1; ring).
    replace (- relT * 0.01 * 0.5) with (- c2) by (unfold c2; ring).
    assert (E1 : (bx - ax) * u + (by_ - ay) * v = relN) by reflexivity.
    assert (E2 : (bx - ax) * - v + (by_ - ay) * u = relT) by reflexivity.
    rewrite Hid, Hunit, E1, E2. unfold c1, c2.
    generalize relN relT H. clear. intros relN relT H.
    pose proof (Rle_0_sqr relN) as H1. pose proof (Rle_0_sqr relT) as H2.
    unfold Rsqr in H1, H2. nra.
  - destruct Hapart as (-> & -> & -> & ->); lra.
Qed.

Lemma bounce_identity (ax ay bx by_ u v e h f : R) :
  let rn := (bx - ax) * u + (by_ - ay) * v in
  let rt := (bx - ax) * - v + (by_ - ay) * u in
  let j := - (1 + e) * rn * h in
  let jt := - rt * f * h in
  (bx + u * j + - v * jt - (ax - u * j - - v * jt)) * u
  + (by_ + v * j + u * jt - (ay - v * j - u * jt)) * v
  = rn - 2 * h * (1 + e) * rn * (u * u + v * v) ∧
  (bx + u * j + - v * jt - (ax - u * j - - v * jt)) * - v
  + (by_ + v * j + u * jt - (ay - v * j - u * jt)) * u
  = rt - 2 * h * f * rt * (u * u + v * v).
Proof. cbv zeta. split; ring. Qed.

(** X11. For a unit normal, the impulses of [pairCorrection] on a closing pair
    reverse the normal component of the relative drift with restitution
    0.97 and keep 0.99 of its tangential component; a pair that is not
    closing keeps its drifts; after the correction the pair is not closing,
    and the sum of the squared speeds of the two bodies has not grown. *)
Theorem pair_correction_bounce (m : MTV) (A B : Asteroid) :
  nx m * nx m + ny m * ny m = 1 →
  let A' := (pairCorrection m A B).1 in
  let B' := (pairCorrection m A B).2 in
  let relN := fun P Q : Asteroid =>
    (driftX Q - driftX P) * nx m + (driftY Q - driftY P) * ny m in
  let relT := fun P Q : Asteroid =>
    (driftX Q - driftX P) * - ny m + (driftY Q - driftY P) * nx m in
  (relN A B < 0 → relN A' B' = - 0.97 * relN A B ∧ relT A' B' = 0.99 * relT A B) ∧
  (0 <= relN A B →
     driftX A' = driftX A ∧ driftY A' = driftY A ∧
     driftX B' = driftX B ∧ driftY B' = driftY B) ∧
  0 <= relN A' B' ∧
  speed2 A' + speed2 B' <= speed2 A + speed2 B.
Proof.
  intros Hunit. cbv zeta.
  destruct (pairCorrection_drift m A B) as [Hclosing Hapart]. cbv zeta in *.
  set (rn := (driftX B - driftX A) * nx m + (driftY B - driftY A) * ny m) in *.
  set (rt := (driftX B - driftX A) * - ny m + (driftY B - driftY A) * nx m) in *.
  assert (Hid : rn < 0 →
    (driftX (pairCorrection m A B).2 - driftX (pairCorrection m A B).1) * nx m
    + (driftY (pairCorrection m A B).2 - driftY (pairCorrection m A B).1) * ny m
    = - 0.97 * rn ∧
    (driftX (pairCorrection m A B).2 - driftX (pairCorrection m A B).1) * - ny m
    + (driftY (pairCorrection m A B).2 - driftY (pairCorrection m A B).1) * nx m
    = 0.99 * rt).
  { intros H. destruct (Hclosing H) as (-> & -> & -> & ->).
    pose proof (bounce_identity (driftX A) (driftY A) (driftX B) (driftY B)
                  (nx m) (ny m) 0.97 0.5 0.01) as [I1 I2].
    cbv zeta in I1, I2. fold rn rt in I1, I2. rewrite Hunit in I1, I2.
    split; [rewrite I1 | rewrite I2]; lra. }
  assert (Hn := fun H => proj1 (Hid H)).
  split_and!.
  - exact Hid.
  - exact Hapart.
  - destruct (Rlt_dec rn 0) as [H | H].
    + rewrite (Hn H). lra.
    + destruct Hapart as (-> & -> & -> & ->); [lra |]. fold rn. lra.
  - apply pairCorrection_speed2, Hunit.
Qed.

Lemma pair_correction_bounce_witness :
  let m := mkMTV 0 1 12 in
  let A := rock 400 200 0 1 in
  let B := rock 400 (200 + 80) 0 (-1) in
  let A' := (pairCorrection m A B).1 in
  let B' := (pairCorrection m A B).2 in
  let relN := fun P Q : Asteroid =>
    (driftX Q - driftX P) * nx m + (driftY Q - driftY P) * ny m in
  let relT := fun P Q : Asteroid =>
    (driftX Q - driftX P) * - ny m + (driftY Q - driftY P) * nx m in
  (relN A B < 0 → relN A' B' = - 0.97 * relN A B ∧ relT A' B' = 0.99 * relT A B) ∧
  (0 <= relN A B →
     driftX A' = driftX A ∧ driftY A' = driftY A ∧
     driftX B' = driftX B ∧ driftY B' = driftY B) ∧
  0 <= relN A' B' ∧
  speed2 A' + speed2 B' <= speed2 A + speed2 B.
Proof.
  apply (pair_correction_bounce (mkMTV 0 1 12) (rock 400 200 0 1) (rock 400 (200 + 80) 0 (-1))).
  cbn [nx ny]. lra.
Defined.

(** ** The solver, continued *)

Lemma total_cons (f : Asteroid → R) (a : Asteroid) (l : list Asteroid) :
  total f (a :: l) = f a + total f l.
Proof. reflexivity. Qed.

Lemma total_insert (f : Asteroid → R) (l : list Asteroid) (i : nat) (a a' : Asteroid) :
  l !! i = Some a → total f (<[i := a']> l) = total f l - f a + f a'.
Proof.
  revert i. induction l as [| b l IH]; intros [| i] H; try discriminate.
  - injection H as ->. change (<[0%nat := a']> (a :: l)) with (a' :: l).
    rewrite !total_cons. lra.
  - change (<[S i := a']> (b :: l)) with (b :: <[i := a']> l).
    rewrite !total_cons, (IH i H). lra.
Qed.

Lemma total_le_map (f : Asteroid → R) (g : Asteroid → Asteroid) (l : list Asteroid) :
  (∀ a, f (g a) <= f a) → total f (map g l) <= total f l.
Proof.
  intros H. induction l as [| a l IH]; [cbn; lra |].
  cbn [map]. rewrite !total_cons. specialize (H a). lra.
Qed.

Section Invariants.
Variables (win : Window) (width height : R).

(** What a pair loop keeps: a property that holds to begin with and that
    every correction of an overlapping pair keeps. *)
Variable P : list Asteroid → Prop.
Hypothesis Hpair : ∀ (l : list Asteroid) (i j : nat) (A B : Asteroid) (m : MTV),
  (i < j)%nat → l !! i = Some A → l !! j = Some B →
  satMTV (asteroidWorldPoly win A) (asteroidWorldPoly win B) = Normal (Some m) →
  P l → P (<[j := (pairCorrection m A B).2]> (<[i := (pairCorrection m A B).1]> l)).

Lemma forEachIndex_invariant (body : nat → list Asteroid → completion (list Asteroid))
    (js : list nat) (asteroids : list Asteroid) :
  (∀ j l, j ∈ js → P l → ∃ out, body j l = Normal out ∧ P out) →
  P asteroids → ∃ out, forEachIndex body js asteroids = Normal out ∧ P out.
Proof.
  revert asteroids. induction js as [| j js IH]; intros asteroids Hbody HP.
  - exists asteroids. auto.
  - cbn [forEachIndex]. destruct (Hbody j asteroids) as (mid & -> & Hmid); [left | exact HP |].
    cbn [mbind completion_bind]. apply IH; [| exact Hmid].
    intros j' l Hj'. apply Hbody. right. exact Hj'.
Qed.

Lemma resolvePair_invariant (i j : nat) (asteroids : list Asteroid) :
  (i < j)%nat → P asteroids →
  ∃ out, resolvePair win i j asteroids = Normal out ∧ P out.
Proof.
  intros Hij HP. unfold resolvePair.
  destruct (asteroids !! i) as [A |] eqn:EA; [| eauto].
  destruct (asteroids !! j) as [B |] eqn:EB; [| eauto].
  destruct (satMTV_colliders win A B) as (res & Hres). rewrite Hres.
  cbn [mbind completion_bind].
  destruct res as [m |]; [| eauto].
  pose proof (Hpair asteroids i j A B m Hij EA EB Hres HP) as H.
  destruct (pairCorrection m A B) as [A' B']. eauto.
Qed.

Lemma pairLoop_invariant (asteroids : list Asteroid) :
  P asteroids → ∃ out, pairLoop win asteroids = Normal out ∧ P out.
Proof.
  intros HP. unfold pairLoop. apply forEachIndex_invariant; [| exact HP].
  intros i l _ Hl. apply forEachIndex_invariant; [| exact Hl].
  intros j l' Hj Hl'. apply elem_of_seq in Hj.
  apply resolvePair_invariant; [lia | exact Hl'].
Qed.

Hypothesis Hclamp : ∀ l, P l → P (clampAll win width height l).

Lemma resolveOverlaps_invariant (iterations : nat) (asteroids : list Asteroid) :
  P asteroids →
  ∃ out, resolveOverlaps win asteroids width height iterations = Normal out ∧ P out.
Proof.
  revert asteroids. induction iterations as [| n IH]; intros asteroids HP.
  - exists asteroids. auto.
  - cbn [resolveOverlaps]. destruct (pairLoop_invariant asteroids HP) as (mid & -> & Hmid).
    cbn [mbind completion_bind]. apply IH, Hclamp, Hmid.
Qed.
End Invariants.

Lemma Forall2_sameBody_insert (l0 l : list Asteroid) (i : nat) (a a' : Asteroid) :
  Forall2 sameBody l0 l → l !! i = Some a → sameBody a a' →
  Forall2 sameBody l0 (<[i := a']> l).
Proof.
  intros HF Hi Ha. revert i Hi. induction HF as [| b0 b l0 l Hb HF IH]; intros [| i] Hi;
    try discriminate.
  - injection Hi as ->. constructor; [| exact HF]. eapply sameBody_trans; eauto.
  - cbn. constructor; [exact Hb |]. apply IH. exact Hi.
Qed.

Lemma sameBody_pairs (l0 : list Asteroid) (win : Window) :
  ∀ (l : list Asteroid) (i j : nat) (A B : Asteroid) (m : MTV),
  (i < j)%nat → l !! i = Some A → l !! j = Some B →
  satMTV (asteroidWorldPoly win A) (asteroidWorldPoly win B) = Normal (Some m) →
  Forall2 sameBody l0 l →
  Forall2 sameBody l0 (<[j := (pairCorrection m A B).2]> (<[i := (pairCorrection m A B).1]> l)).
Proof.
  intros l i j A B m Hij HA HB _ HF.
  destruct (pairCorrection_sameBody m A B) as [H1 H2].
  apply (Forall2_sameBody_insert _ _ j B); [| | exact H2].
  - apply (Forall2_sameBody_insert _ _ i A); assumption.
  - rewrite list_lookup_insert_ne by lia. exact HB.
Qed.

Lemma sameBody_clampAll (l0 : list Asteroid) (win : Window) (width height : R) :
  ∀ l, Forall2 sameBody l0 l → Forall2 sameBody l0 (clampAll win width height l).
Proof.
  intros l HF. unfold clampAll. induction HF as [| b0 b l0 l Hb HF IH]; cbn; constructor.
  - eapply sameBody_trans; [exact Hb | apply clampToBounds_sameBody].
  - exact IH.
Qed.

Lemma Forall2_sameBody_refl (l : list Asteroid) : Forall2 sameBody l l.
Proof. induction l; constructor; auto using sameBody_refl. Qed.

Lemma resolveOverlaps_sameBody (win : Window) (width height : R) (iterations : nat)
    (asteroids : list Asteroid) :
  ∃ out, resolveOverlaps win asteroids width height iterations = Normal out ∧
         Forall2 sameBody asteroids out.
Proof.
  apply (resolveOverlaps_invariant win width height (Forall2 sameBody asteroids)).
  - apply sameBody_pairs.
  - apply sameBody_clampAll.
  - apply Forall2_sameBody_refl.
Qed.

(** X12. [resolveOverlaps] never throws, for any number of iterations and any
    bodies; it returns as many bodies as it was given, in the same order,
    and changes nothing of a body but its position and its drift. *)
Theorem solver_keeps_bodies (win : Window) (asteroids : list Asteroid)
    (width height : R) (iterations : nat) :
  ∃ out, resolveOverlaps win asteroids width height iterations = Normal out ∧
    length out = length asteroids ∧
    ∀ i a, asteroids !! i = Some a →
      ∃ a', out !! i = Some a' ∧
        project a' = project a ∧ size a' = size a ∧ rotation a' = rotation a ∧
        rotationSpeed a' = rotationSpeed a ∧ vertices a' = vertices a ∧ r a' = r a.
Proof.
  destruct (resolveOverlaps_sameBody win width height iterations asteroids) as (out & Hout & HF).
  exists out. split; [exact Hout |]. split.
  - symmetry. eapply Forall2_length, HF.
  - intros i a Ha. destruct (Forall2_lookup_l _ _ _ _ _ HF Ha) as (a' & Ha' & Hs).
    exists a'. split; [exact Ha' | exact Hs].
Qed.

Lemma totals_pairs (f : Asteroid → R) (c : R) (win : Window) :
  (∀ m A B, f (pairCorrection m A B).1 + f (pairCorrection m A B).2 = f A + f B) →
  ∀ (l : list Asteroid) (i j : nat) (A B : Asteroid) (m : MTV),
  (i < j)%nat → l !! i = Some A → l !! j = Some B →
  satMTV (asteroidWorldPoly win A) (asteroidWorldPoly win B) = Normal (Some m) →
  total f l = c →
  total f (<[j := (pairCorrection m A B).2]> (<[i := (pairCorrection m A B).1]> l)) = c.
Proof.
  intros Hf l i j A B m Hij HA HB _ <-.
  rewrite (total_insert f _ j B) by (rewrite list_lookup_insert_ne by lia; exact HB).
  rewrite (total_insert f _ i A) by exact HA.
  specialize (Hf m A B). lra.
Qed.

(** X13. The pair loop of an iteration never throws and keeps the sums, over all
    the bodies, of the positions and of the drifts along each axis: the
    centre of mass and the total momentum (the clamp that follows does
    not). *)
Theorem pair_loop_conserves_totals (win : Window) (asteroids : list Asteroid) :
  ∃ out, pairLoop win asteroids = Normal out ∧
    total x out = total x asteroids ∧ total y out = total y asteroids ∧
    total driftX out = total driftX asteroids ∧
    total driftY out = total driftY asteroids.
Proof.
  apply (pairLoop_invariant win
           (fun l => total x l = total x asteroids ∧ total y l = total y asteroids ∧
                     total driftX l = total driftX asteroids ∧
                     total driftY l = total driftY asteroids)); [| auto].
  intros l i j A B m Hij HA HB Hm (H1 & H2 & H3 & H4).
  assert (Hsum : ∀ m A B,
    x (pairCorrection m A B).1 + x (pairCorrection m A B).2 = x A + x B ∧
    y (pairCorrection m A B).1 + y (pairCorrection m A B).2 = y A + y B ∧
    driftX (pairCorrection m A B).1 + driftX (pairCorrection m A B).2 = driftX A + driftX B ∧
    driftY (pairCorrection m A B).1 + driftY (pairCorrection m A B).2 = driftY A + driftY B).
  { intros m0 A0 B0. unfold pairCorrection. rdec; cbn; split_and!; lra. }
  split_and!.
  - apply (totals_pairs x _ win); auto. intros. apply Hsum.
  - apply (totals_pairs y _ win); auto. intros. apply Hsum.
  - apply (totals_pairs driftX _ win); auto. intros. apply Hsum.
  - apply (totals_pairs driftY _ win); auto. intros. apply Hsum.
Qed.

Lemma resolveOverlaps_speed2 (win : Window) (width height : R) (iterations : nat)
    (asteroids : list Asteroid) :
  ∃ out, resolveOverlaps win asteroids width height iterations = Normal out ∧
         total speed2 out <= total speed2 asteroids.
Proof.
  apply (resolveOverlaps_invariant win width height
           (fun l => total speed2 l <= total speed2 asteroids)); [| | lra].
  - intros l i j A B m Hij HA HB Hm Hl.
    rewrite (total_insert speed2 _ j B) by (rewrite list_lookup_insert_ne by lia; exact HB).
    rewrite (total_insert speed2 _ i A) by exact HA.
    destruct (satMTV_least _ _ m Hm) as (_ & Hunit & _).
    pose proof (pairCorrection_speed2 m A B Hunit). lra.
  - intros l Hl. unfold clampAll.
    pose proof (total_le_map speed2 (fun a => clampToBounds win a width height) l
                  (clampToBounds_speed2 win width height)). lra.
Qed.

(** X14. [resolveOverlaps] never increases the sum over the bodies of the squared
    speeds, whatever the bodies and the number of iterations. *)
Theorem solver_never_adds_energy (win : Window) (asteroids : list Asteroid)
    (width height : R) (iterations : nat) :
  ∃ out, resolveOverlaps win asteroids width height iterations = Normal out ∧
         total speed2 out <= total speed2 asteroids.
Proof. apply resolveOverlaps_speed2. Qed.

Lemma asteroidWorldPoly_parts (win : Window) (a : Asteroid) :
  asteroidWorldPoly win a = convexHull (rockWorld a ++ labelCorners win a).
Proof. reflexivity. Qed.

(** ** The merged collider, continued *)

Lemma fold_pushPt_subset (l s : list Pt) (x : Pt) :
  x ∈ fold_left pushPt l s → x ∈ s ∨ x ∈ l.
Proof.
  revert s. induction l as [| p l IH]; intros s Hx; [left; exact Hx |].
  cbn [fold_left] in Hx. destruct (IH _ Hx) as [H | H].
  - unfold pushPt in H. apply elem_of_cons in H as [-> | H]; [right; left |].
    left. destruct (popWhile_suffix s p) as (k & ->). apply elem_of_app. right. exact H.
  - right. right. exact H.
Qed.

(** The vertices of the hull are input points, whatever the input. *)
Lemma convexHull_subset (pts : list Pt) (x : Pt) : x ∈ convexHull pts → x ∈ pts.
Proof.
  unfold convexHull. destruct (length pts <=? 3)%nat; [auto |].
  rewrite elem_of_app, !elem_of_reverse. pose proof (sort_perm pts) as Hperm.
  intros [H | H]; apply elem_of_tail in H; apply fold_pushPt_subset in H as [H | H];
    try (inversion H; fail).
  - rewrite <- Hperm. exact H.
  - rewrite elem_of_reverse in H. rewrite <- Hperm. exact H.
Qed.

(** A silhouette vertex is as far from the centre of the body in world
    coordinates as it is from the origin in local ones. *)
Lemma rockWorld_elem (a : Asteroid) (p : Pt) :
  p ∈ rockWorld a →
  ∃ v, v ∈ vertices a ∧
       (px p - x a) * (px p - x a) + (py p - y a) * (py p - y a)
       = px v * px v + py v * py v.
Proof.
  unfold rockWorld. cbv zeta. intros Hp.
  apply list_elem_of_fmap in Hp as (v & -> & Hv). exists v. split; [exact Hv |].
  cbn [px py]. set (t := rotation a * PI / 180).
  pose proof (sin2_cos2 t) as H. unfold Rsqr in H.
  replace ((x a + px v * cos t - py v * sin t - x a) * (x a + px v * cos t - py v * sin t - x a)
           + (y a + px v * sin t + py v * cos t - y a) * (y a + px v * sin t + py v * cos t - y a))
    with ((px v * px v + py v * py v) * (sin t * sin t + cos t * cos t)) by ring.
  rewrite H. ring.
Qed.

Lemma silhouette_norm (rnd size : R) (v : Pt) :
  0 <= size → v ∈ generateAsteroidVertices rnd size →
  px v * px v + py v * py v <= (1.03 * (size / 2)) * (1.03 * (size / 2)).
Proof.
  intros Hsize Hv. apply generateAsteroidVertices_elem in Hv as (i & _ & ->).
  cbn [px py].
  match goal with |- context [size / 2 * ?w] =>
    assert (Hw : 0.81 <= w <= 1.03) by apply wobble_bounds; set (wb := w) in * end.
  set (t := INR i / INR 18 * PI * 2).
  pose proof (sin2_cos2 t) as H. unfold Rsqr in H.
  replace (cos t * (size / 2 * wb) * (cos t * (size / 2 * wb))
           + sin t * (size / 2 * wb) * (sin t * (size / 2 * wb)))
    with ((size / 2 * wb) * (size / 2 * wb) * (sin t * sin t + cos t * cos t)) by ring.
  rewrite H, Rmult_1_r.
  assert (H1 : 0 <= size / 2 * wb) by (apply Rmult_le_pos; lra).
  assert (H2 : size / 2 * wb <= 1.03 * (size / 2))
    by (rewrite (Rmult_comm 1.03); apply Rmult_le_compat_l; lra).
  apply Rmult_le_compat; assumption.
Qed.

(** A generated silhouette in world coordinates: within 1.03 r of the
    centre. *)
Lemma rockWorld_near (rnd : R) (a : Asteroid) (p : Pt) :
  0 <= size a → r a = size a / 2 → vertices a = generateAsteroidVertices rnd (size a) →
  p ∈ rockWorld a →
  (px p - x a) * (px p - x a) + (py p - y a) * (py p - y a) <= (1.03 * r a) * (1.03 * r a).
Proof.
  intros Hsize Hr Hv Hp. destruct (rockWorld_elem a p Hp) as (v & Hin & ->).
  rewrite Hv in Hin. rewrite Hr. apply (silhouette_norm rnd), Hin. exact Hsize.
Qed.

Lemma labelCorners_elem (win : Window) (a : Asteroid) (p : Pt) :
  p ∈ labelCorners win a →
  (px p = x a - (getLabelDims win).1 / 2 ∨ px p = x a + (getLabelDims win).1 / 2) ∧
  (py p = y a + r a + 18 ∨ py p = y a + r a + 18 + (getLabelDims win).2).
Proof.
  unfold labelCorners, getLabelRect, LABEL_GAP. destruct (getLabelDims win) as [w h].
  cbn [rx ry rw rh fst snd]. intros Hp.
  each_elem Hp; cbn [px py]; split; first [left; lra | right; lra].
Qed.

Lemma sq_bound (u v c : R) :
  0 <= c → u * u + v * v <= c * c → (- c <= u <= c) ∧ (- c <= v <= c).
Proof. intros Hc H. split; split; nra. Qed.

(** X15. Every vertex of the merged collider is a vertex of the silhouette in
    world coordinates or a corner of the label rectangle.  For a body of
    positive size and radius size / 2, with a generated silhouette, that is
    within its clamp bounds, the collider lies within the padded viewport up
    to 3% of the radius: its x coordinates lie between 40 - 0.03 r and
    width - 40 + 0.03 r, and its y coordinates between 40 - 0.03 r and
    max(0.72 height, 108 + 2 r + label height) + 0.03 r. *)
Theorem collider_within_viewport (win : Window) (rnd : R) (a : Asteroid)
    (width height : R) :
  0 < size a → r a = size a / 2 →
  vertices a = generateAsteroidVertices rnd (size a) →
  let b := clampBounds win a width height in
  minX b <= x a <= maxX b → minY b <= y a <= maxY b →
  (∀ p, p ∈ asteroidWorldPoly win a → p ∈ rockWorld a ∨ p ∈ labelCorners win a) ∧
  (∀ p, p ∈ asteroidWorldPoly win a →
     40 - 0.03 * r a <= px p <= width - 40 + 0.03 * r a ∧
     40 - 0.03 * r a <= py p ∧
     py p <= Rmax (height * 0.72) (108 + 2 * r a + (getLabelDims win).2) + 0.03 * r a).
Proof.
  intros Hsize Hr Hv b Hx Hy.
  assert (Hparts : ∀ p, p ∈ asteroidWorldPoly win a → p ∈ rockWorld a ∨ p ∈ labelCorners win a).
  { intros p Hp. rewrite asteroidWorldPoly_parts in Hp.
    apply convexHull_subset in Hp. apply elem_of_app in Hp. exact Hp. }
  split; [exact Hparts |]. intros p Hp.
  subst b. rewrite (clampBounds_formulas win width height a) in Hx, Hy.
  cbn [minX maxX minY maxY] in Hx, Hy.
  assert (H0 : 0 < r a) by lra.
  assert (Hwh : 0 < (getLabelDims win).1 ∧ 0 < (getLabelDims win).2).
  { destruct (getLabelDims_cases win) as [[_ ->] | [_ ->]]; cbn [fst snd]; lra. }
  destruct (Hparts p Hp) as [Hrock | Hlabel];
    [| apply labelCorners_elem in Hlabel];
    destruct (getLabelDims win) as [w h]; cbn [fst snd] in *.
  - pose proof (rockWorld_near rnd a p (Rlt_le _ _ Hsize) Hr Hv Hrock) as Hd.
    destruct (sq_bound (px p - x a) (py p - y a) (1.03 * r a)) as [Hdx Hdy]; [lra | exact Hd |].
    unfold Rmax in *. repeat destruct (Rle_dec _ _); lra.
  - destruct Hlabel as [[Hpx | Hpx] [Hpy | Hpy]];
      unfold Rmax in *; repeat destruct (Rle_dec _ _); lra.
Qed.

Lemma boulder_bounds :
  clampBounds desktop boulder 1000 800 = mkBounds 180 820 80 474.
Proof.
  rewrite clampBounds_formulas, getLabelDims_desktop. cbn [fst snd r boulder].
  unfold Rmax. rdec; f_equal; lra.
Qed.

Lemma collider_within_viewport_witness :
  (∀ p, p ∈ asteroidWorldPoly desktop boulder →
     p ∈ rockWorld boulder ∨ p ∈ labelCorners desktop boulder) ∧
  (∀ p, p ∈ asteroidWorldPoly desktop boulder →
     40 - 0.03 * r boulder <= px p <= 1000 - 40 + 0.03 * r boulder ∧
     40 - 0.03 * r boulder <= py p ∧
     py p <= Rmax (800 * 0.72) (108 + 2 * r boulder + (getLabelDims desktop).2)
             + 0.03 * r boulder).
Proof.
  apply (collider_within_viewport desktop (1 / 2) boulder 1000 800).
  - cbn [size boulder]. lra.
  - cbn [size r boulder]. lra.
  - reflexivity.
  - rewrite boulder_bounds. cbn [minX maxX x boulder]. lra.
  - rewrite boulder_bounds. cbn [minY maxY y boulder]. lra.
Defined.

(** ** The hit test, continued *)

Lemma hitTest_head (rect : DOMRect) (a : Asteroid) (rest : list Asteroid) (cx cy : R) :
  hypot (cx - left rect - x a) (cy - top rect - y a) < r a + 12 →
  hitTest (Some rect) (a :: rest) cx cy = Some a.
Proof.
  intros H. rewrite hitTest_find. cbn [find].
  destruct (Rlt_dec _ _); [reflexivity | contradiction].
Qed.

Lemma hitTest_some (rect : DOMRect) (a : Asteroid) (asteroids : list Asteroid) (cx cy : R) :
  a ∈ asteroids →
  hypot (cx - left rect - x a) (cy - top rect - y a) < r a + 12 →
  ∃ b, hitTest (Some rect) asteroids cx cy = Some b.
Proof.
  intros Ha H. rewrite hitTest_find.
  induction asteroids as [| c l IH]; [inversion Ha |].
  cbn [find]. destruct (Rlt_dec _ (r c + 12)) as [Hc | Hc]; [eauto |].
  apply elem_of_cons in Ha as [-> | Ha]; [contradiction | apply IH, Ha].
Qed.

Lemma hypot_le (u v c : R) : 0 <= c → u * u + v * v <= c * c → hypot u v <= c.
Proof.
  intros Hc H. unfold hypot. rewrite <- (sqrt_square c Hc). apply sqrt_le_1_alt, H.
Qed.

(** X16. For a body of positive size below 800 and radius size / 2, with a
    generated silhouette, the silhouette has 18 vertices, and a pointer on
    any of them, as drawn, is within the hit
    circle: [hitTest] returns the body when it is the first of the array
    (and [handlePointerMove] hovers it), and returns some body whenever the
    body is in the array. *)
Theorem pointer_on_silhouette_hits (rect : DOMRect) (rnd : R) (a : Asteroid) :
  0 < size a < 800 → r a = size a / 2 →
  vertices a = generateAsteroidVertices rnd (size a) →
  length (rockWorld a) = 18%nat ∧
  (∀ p rest, p ∈ rockWorld a →
     hitTest (Some rect) (a :: rest) (left rect + px p) (top rect + py p) = Some a ∧
     handlePointerMove (Some rect) (a :: rest) (left rect + px p) (top rect + py p)
       = Some (id (project a))) ∧
  (∀ p asteroids, p ∈ rockWorld a → a ∈ asteroids →
     ∃ b, hitTest (Some rect) asteroids (left rect + px p) (top rect + py p) = Some b).
Proof.
  intros Hsize Hr Hv.
  assert (Hnear : ∀ p, p ∈ rockWorld a →
            hypot (left rect + px p - left rect - x a) (top rect + py p - top rect - y a)
            < r a + 12).
  { intros p Hp.
    pose proof (rockWorld_near rnd a p ltac:(lra) Hr Hv Hp) as Hd.
    replace (left rect + px p - left rect - x a) with (px p - x a) by ring.
    replace (top rect + py p - top rect - y a) with (py p - y a) by ring.
    apply Rle_lt_trans with (1.03 * r a); [apply hypot_le; [lra | exact Hd] | lra]. }
  split_and!.
  - unfold rockWorld. rewrite length_map, Hv. unfold generateAsteroidVertices.
    rewrite length_map, length_seq. reflexivity.
  - intros p rest Hp. pose proof (hitTest_head rect a rest _ _ (Hnear p Hp)) as Hhit.
    split; [exact Hhit |]. unfold handlePointerMove. rewrite Hhit. reflexivity.
  - intros p asteroids Hp Ha. apply (hitTest_some rect a); [exact Ha | apply Hnear, Hp].
Qed.

Lemma pointer_on_silhouette_hits_witness :
  length (rockWorld boulder) = 18%nat ∧
  (∀ p rest, p ∈ rockWorld boulder →
     hitTest (Some (mkDOMRect 0 0)) (boulder :: rest)
             (left (mkDOMRect 0 0) + px p) (top (mkDOMRect 0 0) + py p) = Some boulder ∧
     handlePointerMove (Some (mkDOMRect 0 0)) (boulder :: rest)
             (left (mkDOMRect 0 0) + px p) (top (mkDOMRect 0 0) + py p)
       = Some (id (project boulder))) ∧
  (∀ p asteroids, p ∈ rockWorld boulder → boulder ∈ asteroids →
     ∃ b, hitTest (Some (mkDOMRect 0 0)) asteroids
                  (left (mkDOMRect 0 0) + px p) (top (mkDOMRect 0 0) + py p) = Some b).
Proof.
  apply (pointer_on_silhouette_hits (mkDOMRect 0 0) (1 / 2) boulder).
  - cbn [size boulder]. lra.
  - cbn [size r boulder]. lra.
  - reflexivity.
Defined.

(** ** Init asteroids *)

Lemma spawn_cursor (draws : nat → R) (width height : R) (p : Project) (k : nat) :
  (spawn draws width height p k).2 = (k + 5)%nat.
Proof. unfold spawn, random. cbn. lia. Qed.

Lemma spawn_fields (draws : nat → R) (width height : R) (p : Project) (k : nat) :
  (spawn draws width height p k).1 =
    mkAsteroid p (seedX (asteroid p) * width)
      (Rmax 0.06 (Rmin 0.45 (seedY (asteroid p) * 0.75)) * height)
      (seedSize (asteroid p))
      (draws k * 360)
      ((draws (k + 1)%nat - 0.5) * 0.32)
      ((draws (k + 2)%nat - 0.5) * 0.38)
      ((draws (k + 3)%nat - 0.5) * 0.45)
      (generateAsteroidVertices (draws (k + 4)%nat) (seedSize (asteroid p)))
      (seedSize (asteroid p) / 2).
Proof.
  unfold spawn, random. cbn [fst snd].
  replace (S k) with (k + 1)%nat by lia. replace (S (k + 1)) with (k + 2)%nat by lia.
  replace (S (k + 2)) with (k + 3)%nat by lia. replace (S (k + 3)) with (k + 4)%nat by lia.
  reflexivity.
Qed.

Lemma spawnAll_cons (draws : nat → R) (width height : R) (p : Project)
    (ps : list Project) (k : nat) :
  spawnAll draws width height (p :: ps) k =
    ((spawn draws width height p k).1 :: (spawnAll draws width height ps (k + 5)).1,
     (spawnAll draws width height ps (k + 5)).2).
Proof.
  cbn [spawnAll]. pose proof (spawn_cursor draws width height p k) as Hk.
  destruct (spawn draws width height p k) as [a k1]. cbn [fst snd] in *. subst k1.
  destruct (spawnAll draws width height ps (k + 5)) as [rest k2]. reflexivity.
Qed.

Lemma spawnAll_spec (draws : nat → R) (width height : R) (ps : list Project) (k : nat) :
  (spawnAll draws width height ps k).2 = (k + 5 * length ps)%nat ∧
  length (spawnAll draws width height ps k).1 = length ps ∧
  ∀ i p, ps !! i = Some p →
    (spawnAll draws width height ps k).1 !! i
      = Some (spawn draws width height p (k + 5 * i)).1.
Proof.
  revert k. induction ps as [| p ps IH]; intros k.
  - cbn. split_and!; [lia | reflexivity | intros i p H; discriminate].
  - rewrite spawnAll_cons. cbn [fst snd length]. destruct (IH (k + 5)%nat) as (H1 & H2 & H3).
    split_and!; [rewrite H1; lia | rewrite H2; reflexivity |].
    intros [| i] q Hq.
    + injection Hq as ->. replace (k + 5 * 0)%nat with k by lia. reflexivity.
    + change ((p :: ps) !! S i) with (ps !! i) in Hq.
      change ((?a :: ?l) !! S i) with (l !! i). rewrite (H3 i q Hq).
      replace (k + 5 + 5 * i)%nat with (k + 5 * S i)%nat by lia. reflexivity.
Qed.

Lemma preSolve_invariant (win : Window) (width height : R) (P : list Asteroid → Prop) :
  (∀ l, P l → ∃ out, resolveOverlaps win l width height 2 = Normal out ∧ P out) →
  (∀ l, P l → P (clampAll win width height l)) →
  ∀ rounds asteroids, P asteroids →
    ∃ out, preSolve win width height rounds asteroids = Normal out ∧ P out.
Proof.
  intros Hres Hclamp rounds. induction rounds as [| n IH]; intros asteroids HP.
  - exists asteroids. auto.
  - cbn [preSolve]. destruct (Hres asteroids HP) as (mid & -> & Hmid).
    cbn [mbind completion_bind]. apply IH, Hclamp, Hmid.
Qed.

(** The settling rounds never throw, move and accelerate the bodies only,
    and add no kinetic energy. *)
Lemma preSolve_spec (win : Window) (width height : R) (rounds : nat)
    (asteroids : list Asteroid) :
  ∃ out, preSolve win width height rounds asteroids = Normal out ∧
         Forall2 sameBody asteroids out ∧
         total speed2 out <= total speed2 asteroids.
Proof.
  apply (preSolve_invariant win width height
           (fun l => Forall2 sameBody asteroids l ∧ total speed2 l <= total speed2 asteroids)).
  - intros l [H1 H2].
    apply (resolveOverlaps_invariant win width height
             (fun l' => Forall2 sameBody asteroids l' ∧
                        total speed2 l' <= total speed2 asteroids)); [| | auto].
    + intros l' i j A B m Hij HA HB Hm [H1' H2']. split.
      * apply (sameBody_pairs asteroids win); auto.
      * rewrite (total_insert speed2 _ j B)
          by (rewrite list_lookup_insert_ne by lia; exact HB).
        rewrite (total_insert speed2 _ i A) by exact HA.
        destruct (satMTV_least _ _ m Hm) as (_ & Hunit & _).
        pose proof (pairCorrection_speed2 m A B Hunit). lra.
    + intros l' [H1' H2']. split; [apply sameBody_clampAll, H1' |].
      pose proof (total_le_map speed2 (fun a => clampToBounds win a width height) l'
                    (clampToBounds_speed2 win width height)). unfold clampAll. lra.
  - intros l [H1 H2]. split; [apply sameBody_clampAll, H1 |].
    pose proof (total_le_map speed2 (fun a => clampToBounds win a width height) l
                  (clampToBounds_speed2 win width height)). unfold clampAll. lra.
  - split; [apply Forall2_sameBody_refl | lra].
Qed.

Lemma initAsteroids_spec (win : Window) (draws : nat → R) (container : Size)
    (projectsData : list Project) (st : Field) (k : nat) :
  let spawned := (spawnAll draws (width container) (height container) projectsData k).1 in
  ∃ settled,
    initAsteroids win draws (Some container) projectsData st k =
      Normal (mkField settled container (labelRefs st) (labelsReadyRef st)
                      (stableFramesRef st) (lastStableSizeRef st) (canvas st),
              (k + 5 * length projectsData)%nat) ∧
    Forall2 sameBody spawned settled ∧
    total speed2 settled <= total speed2 spawned.
Proof.
  cbv zeta. destruct container as [w h]. cbn [width height]. unfold initAsteroids.
  destruct (spawnAll_spec draws w h projectsData k) as (Hk & _ & _).
  destruct (spawnAll draws w h projectsData k) as [spawned k'] eqn:E. cbn [fst snd] in *.
  subst k'. destruct (preSolve_spec win w h 60 spawned) as (settled & -> & H1 & H2).
  cbn [mbind completion_bind]. exists settled. auto.
Qed.

(** X17. [initAsteroids] does nothing while the container is not mounted.
    Otherwise it never throws, takes five draws per project, records the
    size of the container, leaves the labels and their readiness alone, and
    builds one body per project, in the order of the projects: the body
    carries its project, has the size of the project, the radius size / 2,
    the silhouette generated from its fifth draw, and the rotation and
    rotation speed given by its first and fourth draws; the 60 rounds of
    settling do not change any of these. *)
Theorem init_asteroids_bodies (win : Window) (draws : nat → R) (container : Size)
    (projectsData : list Project) (st : Field) (k : nat) :
  initAsteroids win draws None projectsData st k = Normal (st, k) ∧
  ∃ st',
    initAsteroids win draws (Some container) projectsData st k
      = Normal (st', (k + 5 * length projectsData)%nat) ∧
    lastSizeRef st' = container ∧ labelRefs st' = labelRefs st ∧
    labelsReadyRef st' = labelsReadyRef st ∧ stableFramesRef st' = stableFramesRef st ∧
    lastStableSizeRef st' = lastStableSizeRef st ∧ canvas st' = canvas st ∧
    length (asteroidsRef st') = length projectsData ∧
    ∀ i p, projectsData !! i = Some p →
      ∃ a, asteroidsRef st' !! i = Some a ∧
        project a = p ∧ size a = seedSize (asteroid p) ∧ r a = size a / 2 ∧
        vertices a = generateAsteroidVertices (draws (k + 5 * i + 4)%nat) (size a) ∧
        rotation a = draws (k + 5 * i)%nat * 360 ∧
        rotationSpeed a = (draws (k + 5 * i + 3)%nat - 0.5) * 0.45.
Proof.
  split; [reflexivity |].
  destruct (initAsteroids_spec win draws container projectsData st k)
    as (settled & Hinit & Hsame & _).
  eexists. split; [exact Hinit |]. cbn [lastSizeRef labelRefs labelsReadyRef stableFramesRef
                                       lastStableSizeRef canvas asteroidsRef].
  destruct (spawnAll_spec draws (width container) (height container) projectsData k)
    as (_ & Hlen & Hlook).
  split_and!; try reflexivity.
  - rewrite <- (Forall2_length _ _ _ Hsame). exact Hlen.
  - intros i p Hp. specialize (Hlook i p Hp).
    destruct (Forall2_lookup_l _ _ _ _ _ Hsame Hlook) as (a & Ha & Hs).
    exists a. split; [exact Ha |]. rewrite spawn_fields in Hs.
    destruct Hs as (H1 & H2 & H3 & H4 & H5 & H6).
    cbn [project size rotation rotationSpeed vertices r] in H1, H2, H3, H4, H5, H6.
    rewrite H1, H2, H3, H4, H5, H6. split_and!; reflexivity.
Qed.

Lemma total_le_bound (f : Asteroid → R) (c : R) (l : list Asteroid) :
  (∀ a, a ∈ l → f a <= c) → total f l <= c * INR (length l).
Proof.
  intros H. induction l as [| a l IH]; [cbn; lra |].
  rewrite total_cons. cbn [length]. rewrite S_INR.
  specialize (H a ltac:(left)) as Ha.
  assert (total f l <= c * INR (length l)) by (apply IH; intros b Hb; apply H; right; exact Hb).
  lra.
Qed.

Lemma spawn_ranges (draws : nat → R) (width height : R) (p : Project) (k : nat) :
  (∀ n, 0 <= draws n < 1) →
  let a := (spawn draws width height p k).1 in
  x a = seedX (asteroid p) * width ∧
  (0 <= height → 0.06 * height <= y a <= 0.45 * height) ∧
  0 <= rotation a < 360 ∧
  Rabs (driftX a) <= 0.16 ∧ Rabs (driftY a) <= 0.19 ∧
  Rabs (rotationSpeed a) <= 0.225 ∧
  speed2 a <= 0.0617.
Proof.
  intros Hd. cbv zeta. rewrite spawn_fields. unfold speed2. cbn.
  pose proof (Hd k). pose proof (Hd (k + 1)%nat). pose proof (Hd (k + 2)%nat).
  pose proof (Hd (k + 3)%nat).
  split_and!; try lra.
  - intros Hh. unfold Rmax, Rmin. rdec; nra.
  - apply Rabs_le. lra.
  - apply Rabs_le. lra.
  - apply Rabs_le. lra.
  - nra.
Qed.

(** X18. With draws in [0, 1): a body is spawned between 6% and 45% of the
    height, with drift components of at most 0.16 and 0.19 in magnitude;
    after the settling the sum of the squared speeds is at most 0.0617 per
    body, and every body has a rotation in [0, 360) and a rotation speed of
    magnitude at most 0.225. *)
Theorem init_asteroids_ranges (win : Window) (draws : nat → R) (container : Size)
    (projectsData : list Project) (st : Field) (k : nat) :
  (∀ n, 0 <= draws n < 1) →
  (∀ a, a ∈ (spawnAll draws (width container) (height container) projectsData k).1 →
     (0 <= height container →
        0.06 * height container <= y a <= 0.45 * height container) ∧
     Rabs (driftX a) <= 0.16 ∧ Rabs (driftY a) <= 0.19) ∧
  ∃ st' k',
    initAsteroids win draws (Some container) projectsData st k = Normal (st', k') ∧
    total speed2 (asteroidsRef st') <= 0.0617 * INR (length projectsData) ∧
    ∀ a, a ∈ asteroidsRef st' →
      0 <= rotation a < 360 ∧ Rabs (rotationSpeed a) <= 0.225.
Proof.
  intros Hd.
  destruct (spawnAll_spec draws (width container) (height container) projectsData k)
    as (_ & Hlen & Hlook).
  assert (Hsp : ∀ a, a ∈ (spawnAll draws (width container) (height container)
                            projectsData k).1 →
                ∃ p k0, a = (spawn draws (width container) (height container) p k0).1).
  { intros a Ha. apply list_elem_of_lookup in Ha as (i & Hi).
    destruct (projectsData !! i) as [p |] eqn:Ep.
    - rewrite (Hlook i p Ep) in Hi. injection Hi as <-. eauto.
    - apply lookup_ge_None in Ep. apply lookup_lt_Some in Hi. lia. }
  split.
  { intros a Ha. destruct (Hsp a Ha) as (p & k0 & ->).
    destruct (spawn_ranges draws (width container) (height container) p k0 Hd)
      as (_ & H2 & _ & H4 & H5 & _). auto. }
  destruct (initAsteroids_spec win draws container projectsData st k)
    as (settled & Hinit & Hsame & Hen).
  eexists _, _. split; [exact Hinit |]. cbn [asteroidsRef]. split.
  - eapply Rle_trans; [exact Hen |]. rewrite <- Hlen. apply total_le_bound.
    intros a Ha. destruct (Hsp a Ha) as (p & k0 & ->).
    apply (spawn_ranges draws (width container) (height container) p k0 Hd).
  - intros a Ha. apply list_elem_of_lookup in Ha as (i & Hi).
    destruct (Forall2_lookup_r _ _ _ _ _ Hsame Hi) as (a0 & Ha0 & Hs).
    destruct (Hsp a0) as (p & k0 & ->); [eapply list_elem_of_lookup_2, Ha0 |].
    destruct (spawn_ranges draws (width container) (height container) p k0 Hd)
      as (_ & _ & H3 & _ & _ & H6 & _).
    destruct Hs as (_ & _ & -> & -> & _). auto.
Qed.

Lemma init_asteroids_ranges_witness :
  (∀ a, a ∈ (spawnAll evenDraws (width (mkSize 1000 800)) (height (mkSize 1000 800))
                      [noProject] 0).1 →
     (0 <= height (mkSize 1000 800) →
        0.06 * height (mkSize 1000 800) <= y a <= 0.45 * height (mkSize 1000 800)) ∧
     Rabs (driftX a) <= 0.16 ∧ Rabs (driftY a) <= 0.19) ∧
  ∃ st' k',
    initAsteroids desktop evenDraws (Some (mkSize 1000 800)) [noProject] emptyField 0
      = Normal (st', k') ∧
    total speed2 (asteroidsRef st') <= 0.0617 * INR (length [noProject]) ∧
    ∀ a, a ∈ asteroidsRef st' →
      0 <= rotation a < 360 ∧ Rabs (rotationSpeed a) <= 0.225.
Proof.
  apply (init_asteroids_ranges desktop evenDraws (mkSize 1000 800) [noProject] emptyField 0).
  intros n. unfold evenDraws. lra.
Defined.

(** ** Label placement *)

Lemma round_bound (v : R) : v - 0.5 < round v <= v + 0.5.
Proof. unfold round. pose proof (Zfloor_bound (v + 0.5)). lra. Qed.

Lemma round_IZR (z : Z) : round (IZR z) = IZR z.
Proof. unfold round. f_equal. apply Zfloor_eq. lra. Qed.

Lemma dpr_ge_1 (devicePixelRatio : R) : 1 <= Rmax 1 (orOne devicePixelRatio).
Proof. apply Rmax_l. Qed.

Lemma snap_near (dpr v : R) : 0 < dpr → Rabs (snap dpr v - v) <= 1 / (2 * dpr).
Proof.
  intros Hd. unfold snap. pose proof (round_bound (v * dpr)) as Hr.
  replace (round (v * dpr) / dpr - v) with ((round (v * dpr) - v * dpr) / dpr)
    by (field; lra).
  replace (1 / (2 * dpr)) with (/ 2 * / dpr) by (field; lra).
  assert (Hi : 0 < / dpr) by (apply Rinv_0_lt_compat, Hd).
  apply Rabs_le. unfold Rdiv. split.
  - replace (- (/ 2 * / dpr)) with ((- / 2) * / dpr) by ring.
    apply Rmult_le_compat_r; lra.
  - apply Rmult_le_compat_r; lra.
Qed.

Lemma snap_idem (dpr v : R) : dpr ≠ 0 → snap dpr (snap dpr v) = snap dpr v.
Proof.
  intros Hd. unfold snap at 1.
  replace (snap dpr v * dpr) with (round (v * dpr)) by (unfold snap; field; exact Hd).
  unfold snap. change (round (v * dpr)) with (IZR (Zfloor (v * dpr + 0.5))).
  rewrite round_IZR. reflexivity.
Qed.

Lemma positionLabel_lookup (dpr : R) (ios ready : bool) (labels : gmap string LabelStyle)
    (a : Asteroid) (i : string) :
  positionLabel dpr ios ready labels a !! i =
    match labels !! i with
    | None => None
    | Some el =>
        if decide (id (project a) = i) then
          Some (mkLabelStyle (if ready then opacity el else "0")
                  (if ios then snap dpr (x a) else x a,
                   if ios then snap dpr (y a + size a / 2 + LABEL_GAP)
                   else y a + size a / 2 + LABEL_GAP))
        else Some el
    end.
Proof.
  unfold positionLabel. destruct (labels !! id (project a)) as [el0 |] eqn:E0.
  - rewrite lookup_insert. destruct (decide (id (project a) = i)) as [<- | Hne].
    + rewrite E0. destruct ready; reflexivity.
    + destruct (labels !! i); reflexivity.
  - destruct (decide (id (project a) = i)) as [<- | Hne].
    + rewrite E0. reflexivity.
    + destruct (labels !! i); reflexivity.
Qed.

Section Labels.
Variables (dpr : R) (ios ready : bool).

Let place := fold_left (positionLabel dpr ios ready).

Lemma place_None (asteroids : list Asteroid) (labels : gmap string LabelStyle) (i : string) :
  place asteroids labels !! i = None ↔ labels !! i = None.
Proof.
  unfold place. revert labels. induction asteroids as [| a l IH]; intros labels; [reflexivity |].
  cbn [fold_left]. rewrite IH, positionLabel_lookup.
  destruct (labels !! i); [| reflexivity]. destruct (decide _); split; discriminate.
Qed.

Lemma place_other (asteroids : list Asteroid) (labels : gmap string LabelStyle) (i : string) :
  (∀ a, a ∈ asteroids → id (project a) ≠ i) →
  place asteroids labels !! i = labels !! i.
Proof.
  unfold place. revert labels. induction asteroids as [| a l IH]; intros labels H; [reflexivity |].
  cbn [fold_left]. rewrite IH by (intros b Hb; apply H; right; exact Hb).
  rewrite positionLabel_lookup. destruct (labels !! i); [| reflexivity].
  destruct (decide _) as [E | _]; [| reflexivity]. exfalso. apply (H a); [left | exact E].
Qed.


Lemma place_body (asteroids : list Asteroid) (labels : gmap string LabelStyle)
    (a : Asteroid) (el : LabelStyle) :
  NoDup (map (fun a => id (project a)) asteroids) →
  a ∈ asteroids → labels !! id (project a) = Some el →
  place asteroids labels !! id (project a) =
    Some (mkLabelStyle (if ready then opacity el else "0")
            (if ios then snap dpr (x a) else x a,
             if ios then snap dpr (y a + size a / 2 + LABEL_GAP)
             else y a + size a / 2 + LABEL_GAP)).
Proof.
  unfold place. revert labels el. induction asteroids as [| b l IH]; intros labels el Hnd Ha Hi;
    [inversion Ha |].
  cbn [map] in Hnd. apply NoDup_cons in Hnd as [Hb Hnd]. cbn [fold_left].
  pose proof (positionLabel_lookup dpr ios ready labels b (id (project a))) as H1.
  rewrite Hi in H1.
  apply elem_of_cons in Ha as [-> | Ha].
  - destruct (decide _) as [_ | E]; [| contradiction].
    fold place. rewrite place_other; [exact H1 |].
    intros c Hc Ec. apply Hb. rewrite <- Ec. apply list_elem_of_fmap. eauto.
  - destruct (decide _) as [E | E].
    + exfalso. apply Hb. rewrite E. apply list_elem_of_fmap. eauto.
    + apply IH; assumption.
Qed.
End Labels.



(** X19. [positionLabels], on bodies with distinct project ids: the device pixel
    ratio it uses is at least 1; snapping moves a length by at most
    1 / (2 dpr) and is idempotent; labels are neither created nor removed,
    and a label without a body is left as it is; the label of a body is
    given opacity 0 while the labels are not ready, and is placed at
    (x, y + size / 2 + 18), which for radius size / 2 is the middle of the
    top side of the label rectangle of [getLabelRect], or at the snapped
    position on iOS Safari. *)
Theorem labels_follow_bodies (devicePixelRatio : R) (isIOSSafari labelsReady : bool)
    (asteroids : list Asteroid) (labels : gmap string LabelStyle) :
  NoDup (map (fun a => id (project a)) asteroids) →
  let labels' := positionLabels devicePixelRatio isIOSSafari labelsReady asteroids labels in
  let dpr := Rmax 1 (orOne devicePixelRatio) in
  1 <= dpr ∧
  (∀ v, Rabs (snap dpr v - v) <= 1 / (2 * dpr) ∧ snap dpr (snap dpr v) = snap dpr v) ∧
  (∀ i, labels' !! i = None ↔ labels !! i = None) ∧
  (∀ i, (∀ a, a ∈ asteroids → id (project a) ≠ i) → labels' !! i = labels !! i) ∧
  (∀ a el, a ∈ asteroids → labels !! id (project a) = Some el →
     ∃ el', labels' !! id (project a) = Some el' ∧
       opacity el' = (if labelsReady then opacity el else "0") ∧
       (isIOSSafari = false →
          translate3d el' = (x a, y a + size a / 2 + 18) ∧
          (r a = size a / 2 → ∀ win,
             translate3d el' = (rx (getLabelRect win a) + rw (getLabelRect win a) / 2,
                                ry (getLabelRect win a)))) ∧
       (isIOSSafari = true →
          translate3d el' = (snap dpr (x a), snap dpr (y a + size a / 2 + 18)))).
Proof.
  intros Hnd. cbv zeta. unfold positionLabels.
  set (dpr := Rmax 1 (orOne devicePixelRatio)).
  assert (Hd : 1 <= dpr) by apply dpr_ge_1.
  split_and!.
  - exact Hd.
  - intros v. split; [apply snap_near; lra | apply snap_idem; lra].
  - intros i. apply place_None.
  - intros i. apply place_other.
  - intros a el Ha Hel. eexists. split; [apply place_body; eassumption |].
    cbn [opacity translate3d]. unfold LABEL_GAP. split_and!.
    + reflexivity.
    + intros ->. split; [reflexivity |]. intros Hr win.
      unfold getLabelRect. destruct (getLabelDims win) as [w h]. cbn [rx ry rw]. unfold LABEL_GAP.
      f_equal; [field | rewrite Hr; reflexivity].
    + intros ->. reflexivity.
Qed.

Lemma labels_follow_bodies_witness :
  let labels := {[ ""%string := mkLabelStyle "1" (0, 0) ]} : gmap string LabelStyle in
  let labels' := positionLabels 2 false false [rock 400 200 0 0] labels in
  let dpr := Rmax 1 (orOne 2) in
  1 <= dpr ∧
  (∀ v, Rabs (snap dpr v - v) <= 1 / (2 * dpr) ∧ snap dpr (snap dpr v) = snap dpr v) ∧
  (∀ i, labels' !! i = None ↔ labels !! i = None) ∧
  (∀ i, (∀ a, a ∈ [rock 400 200 0 0] → id (project a) ≠ i) → labels' !! i = labels !! i) ∧
  (∀ a el, a ∈ [rock 400 200 0 0] → labels !! id (project a) = Some el →
     ∃ el', labels' !! id (project a) = Some el' ∧
       opacity el' = (if false then opacity el else "0") ∧
       (false = false →
          translate3d el' = (x a, y a + size a / 2 + 18) ∧
          (r a = size a / 2 → ∀ win,
             translate3d el' = (rx (getLabelRect win a) + rw (getLabelRect win a) / 2,
                                ry (getLabelRect win a)))) ∧
       (false = true →
          translate3d el' = (snap dpr (x a), snap dpr (y a + size a / 2 + 18)))).
Proof.
  apply (labels_follow_bodies 2 false false [rock 400 200 0 0]
           ({[ ""%string := mkLabelStyle "1" (0, 0) ]})).
  cbn [map]. apply NoDup_singleton.
Defined.

(** ** Animation frame *)

Lemma integrate_fields (dt : R) (a : Asteroid) :
  integrate dt a =
    mkAsteroid (project a) (x a + driftX a * dt) (y a + driftY a * dt) (size a)
               (rotation a + rotationSpeed a * dt) (driftX a) (driftY a)
               (rotationSpeed a) (vertices a) (r a).
Proof. reflexivity. Qed.

Lemma total_map_eq (f : Asteroid → R) (g : Asteroid → Asteroid) (l : list Asteroid) :
  (∀ a, f (g a) = f a) → total f (map g l) = total f l.
Proof.
  intros H. induction l as [| a l IH]; [reflexivity |].
  cbn [map]. rewrite !total_cons, IH, H. reflexivity.
Qed.

(** The frame clamps [dt] to between half a frame and two frames. *)
Lemma dt_range (t lastT : R) : 0.5 <= Rmin 2.0 (Rmax 0.5 ((t - lastT) / 16.67)) <= 2.
Proof. unfold Rmin, Rmax. rdec; lra. Qed.

Lemma moveBodies_spec (win : Window) (width height dt : R) (asteroids : list Asteroid) :
  ∃ out, moveBodies win width height dt asteroids = Normal out ∧
    Forall2 sameBody (map (integrate dt) asteroids) out ∧
    total speed2 out <= total speed2 asteroids.
Proof.
  unfold moveBodies. cbv zeta.
  destruct (resolveOverlaps_sameBody win width height 2 (map (integrate dt) asteroids))
    as (solved & Hs & Hsame).
  destruct (resolveOverlaps_speed2 win width height 2 (map (integrate dt) asteroids))
    as (solved' & Hs' & Hen).
  rewrite Hs in Hs'. injection Hs' as <-. rewrite Hs. cbn [mbind completion_bind].
  eexists. split; [reflexivity |]. split.
  - apply sameBody_clampAll, Hsame.
  - pose proof (total_le_map speed2 (fun a => clampToBounds win a width height) solved
                  (clampToBounds_speed2 win width height)) as Hc.
    rewrite (total_map_eq speed2 (integrate dt)) in Hen by reflexivity.
    unfold clampAll. lra.
Qed.

Lemma animate_unfold (win : Window) (devicePixelRatio : R) (ios reduced : bool)
    (container : Size) (t : R) (st : Field) (lastT : R) (asteroids : list Asteroid) :
  (if reduced then Normal (asteroidsRef st)
   else moveBodies win (width container) (height container)
          (Rmin 2.0 (Rmax 0.5 ((t - lastT) / 16.67))) (asteroidsRef st))
    = Normal asteroids →
  animate win devicePixelRatio ios reduced container t st lastT =
    let labels := positionLabels devicePixelRatio ios (labelsReadyRef st) asteroids
                                 (labelRefs st) in
    Normal
      (if labelsReadyRef st then
         mkField asteroids (lastSizeRef st) labels true (stableFramesRef st)
                 (lastStableSizeRef st) (canvas st)
       else if (2 <=? S (stableFramesRef st))%nat then
         mkField asteroids (lastSizeRef st) (reveal labels) true (S (stableFramesRef st))
                 (lastStableSizeRef st) (canvas st)
       else
         mkField asteroids (lastSizeRef st) labels false (S (stableFramesRef st))
                 (lastStableSizeRef st) (canvas st),
       t).
Proof.
  intros H. unfold animate. destruct container as [w h]. cbn [width height] in H.
  cbv zeta. rewrite H. cbn [mbind completion_bind].
  destruct (labelsReadyRef st); [reflexivity |].
  destruct (2 <=? S (stableFramesRef st))%nat; reflexivity.
Qed.

Lemma animate_bodies (win : Window) (reduced : bool) (container : Size)
    (t lastT : R) (st : Field) :
  let dt := Rmin 2.0 (Rmax 0.5 ((t - lastT) / 16.67)) in
  ∃ asteroids,
    (if reduced then Normal (asteroidsRef st)
     else moveBodies win (width container) (height container) dt (asteroidsRef st))
      = Normal asteroids ∧
    (reduced = true → asteroids = asteroidsRef st) ∧
    (reduced = false → Forall2 sameBody (map (integrate dt) (asteroidsRef st)) asteroids) ∧
    total speed2 asteroids <= total speed2 (asteroidsRef st).
Proof.
  cbv zeta. destruct reduced.
  - exists (asteroidsRef st). split_and!; auto; [discriminate | lra].
  - destruct (moveBodies_spec win (width container) (height container)
                (Rmin 2.0 (Rmax 0.5 ((t - lastT) / 16.67))) (asteroidsRef st))
      as (out & H1 & H2 & H3).
    exists out. split_and!; auto. discriminate.
Qed.

(** X20. A frame of the field never throws and sets [lastT] to its time stamp.
    Its time step lies between 0.5 and 2.  It keeps the number and the
    order of the bodies and, of each body, its project, size, silhouette,
    radius and rotation speed; it never increases the sum of the squared
    speeds; without reduced motion it turns each body by its rotation speed
    times the time step, and with reduced motion it leaves every body as it
    is. *)
Theorem animate_frame (win : Window) (devicePixelRatio : R)
    (isIOSSafari prefersReducedMotion : bool) (container : Size)
    (t : R) (st : Field) (lastT : R) :
  let dt := Rmin 2.0 (Rmax 0.5 ((t - lastT) / 16.67)) in
  0.5 <= dt <= 2 ∧
  ∃ st',
    animate win devicePixelRatio isIOSSafari prefersReducedMotion container t st lastT
      = Normal (st', t) ∧
    lastSizeRef st' = lastSizeRef st ∧ lastStableSizeRef st' = lastStableSizeRef st ∧
    canvas st' = canvas st ∧
    length (asteroidsRef st') = length (asteroidsRef st) ∧
    total speed2 (asteroidsRef st') <= total speed2 (asteroidsRef st) ∧
    (prefersReducedMotion = true → asteroidsRef st' = asteroidsRef st) ∧
    ∀ i a, asteroidsRef st !! i = Some a →
      ∃ a', asteroidsRef st' !! i = Some a' ∧
        project a' = project a ∧ size a' = size a ∧ vertices a' = vertices a ∧
        r a' = r a ∧ rotationSpeed a' = rotationSpeed a ∧
        (prefersReducedMotion = false →
           rotation a' = rotation a + rotationSpeed a * dt).
Proof.
  cbv zeta. split; [apply dt_range |].
  destruct (animate_bodies win prefersReducedMotion container t lastT st)
    as (asteroids & Hb & Hred & Hmove & Hen).
  rewrite (animate_unfold _ _ _ _ _ _ _ _ asteroids Hb). cbv zeta.
  eexists. split; [reflexivity |].
  destruct (labelsReadyRef st); [| destruct (2 <=? S (stableFramesRef st))%nat];
    cbn [lastSizeRef lastStableSizeRef canvas asteroidsRef].
  all: split_and!; try reflexivity; try exact Hen; try exact Hred.
  all: try (destruct prefersReducedMotion;
            [rewrite (Hred eq_refl); reflexivity
            | rewrite <- (Forall2_length _ _ _ (Hmove eq_refl)), length_map; reflexivity]).
  all: intros i a Ha; destruct prefersReducedMotion;
    [ rewrite (Hred eq_refl); exists a; split_and!; auto; discriminate
    | specialize (Hmove eq_refl);
      assert (Hi : map (integrate (Rmin 2.0 (Rmax 0.5 ((t - lastT) / 16.67))))
                       (asteroidsRef st) !! i
                   = Some (integrate (Rmin 2.0 (Rmax 0.5 ((t - lastT) / 16.67))) a))
        by (change (map ?f ?l) with (f <$> l); rewrite list_lookup_fmap, Ha; reflexivity);
      destruct (Forall2_lookup_l _ _ _ _ _ Hmove Hi) as (a' & Ha' & Hs);
      exists a'; split; [exact Ha' |];
      destruct Hs as (H1 & H2 & H3 & H4 & H5 & H6);
      rewrite integrate_fields in H1, H2, H3, H4, H5, H6;
      cbn [project size rotation rotationSpeed vertices r] in H1, H2, H3, H4, H5, H6;
      split_and!; auto ].
Qed.

(** X21. When, after the integration step, the colliders are pairwise separated
    and every body is within its bounds, the frame is a pure drift: every
    body moves by its drift times the time step and keeps its drift. *)
Theorem animate_free_drift (win : Window) (devicePixelRatio : R) (isIOSSafari : bool)
    (container : Size) (t : R) (st : Field) (lastT : R) :
  let dt := Rmin 2.0 (Rmax 0.5 ((t - lastT) / 16.67)) in
  let moved := map (integrate dt) (asteroidsRef st) in
  (∀ i j A B, (i < j)%nat → moved !! i = Some A → moved !! j = Some B →
     satMTV (asteroidWorldPoly win A) (asteroidWorldPoly win B) = Normal None) →
  (∀ a, a ∈ moved →
     let b := clampBounds win a (width container) (height container) in
     minX b <= x a <= maxX b ∧ minY b <= y a <= maxY b) →
  ∃ st',
    animate win devicePixelRatio isIOSSafari false container t st lastT = Normal (st', t) ∧
    asteroidsRef st' = moved ∧
    ∀ i a, asteroidsRef st !! i = Some a →
      ∃ a', asteroidsRef st' !! i = Some a' ∧
        x a' = x a + driftX a * dt ∧ y a' = y a + driftY a * dt ∧
        driftX a' = driftX a ∧ driftY a' = driftY a.
Proof.
  cbv zeta. intros Hsep Hin.
  set (dt := Rmin 2.0 (Rmax 0.5 ((t - lastT) / 16.67))) in *.
  set (moved := map (integrate dt) (asteroidsRef st)) in *.
  assert (Hb : moveBodies win (width container) (height container) dt (asteroidsRef st)
               = Normal moved).
  { unfold moveBodies. cbv zeta. fold moved.
    rewrite (resolveOverlaps_fixed win moved _ _ 2 Hsep Hin). cbn [mbind completion_bind].
    rewrite (clampAll_inside win _ _ moved Hin). reflexivity. }
  rewrite (animate_unfold win devicePixelRatio isIOSSafari false container t st lastT moved Hb).
  cbv zeta. eexists. split; [reflexivity |].
  assert (Hl : ∀ i a, asteroidsRef st !! i = Some a →
            ∃ a', moved !! i = Some a' ∧
              x a' = x a + driftX a * dt ∧ y a' = y a + driftY a * dt ∧
              driftX a' = driftX a ∧ driftY a' = driftY a).
  { intros i a Ha. exists (integrate dt a). split.
    - unfold moved. change (map ?f ?l) with (f <$> l). rewrite list_lookup_fmap, Ha. reflexivity.
    - rewrite integrate_fields. cbn [x y driftX driftY]. auto. }
  destruct (labelsReadyRef st); [| destruct (2 <=? S (stableFramesRef st))%nat];
    cbn [asteroidsRef]; split; auto.
Qed.

Lemma integrate_rock_still (dt cx cy : R) : integrate dt (rock cx cy 0 0) = rock cx cy 0 0.
Proof.
  rewrite integrate_fields. unfold rock. cbn [project x y size rotation driftX driftY
                                               rotationSpeed vertices r].
  f_equal; ring.
Qed.

Lemma animate_free_drift_witness :
  let dt := Rmin 2.0 (Rmax 0.5 ((16 - 0) / 16.67)) in
  let moved := map (integrate dt) (asteroidsRef twoRocks) in
  ∃ st',
    animate desktop 1 false false (mkSize 1000 800) 16 twoRocks 0 = Normal (st', 16) ∧
    asteroidsRef st' = moved ∧
    ∀ i a, asteroidsRef twoRocks !! i = Some a →
      ∃ a', asteroidsRef st' !! i = Some a' ∧
        x a' = x a + driftX a * dt ∧ y a' = y a + driftY a * dt ∧
        driftX a' = driftX a ∧ driftY a' = driftY a.
Proof.
  apply (animate_free_drift desktop 1 false (mkSize 1000 800) 16 twoRocks 0).
  - cbn [asteroidsRef twoRocks map]. rewrite !integrate_rock_still.
    apply two_separated. rewrite !collider_rock. apply pentagon_side_by_side. lra.
  - cbn [asteroidsRef twoRocks map width height]. rewrite !integrate_rock_still.
    intros a Ha. each_elem Ha; cbv zeta; rewrite rock_bounds;
      cbn [minX maxX minY maxY x y rock]; lra.
Defined.

(** ** Revealing the labels *)




(** ** Resize handling *)

Lemma resize_asteroids (d : R) (container : Size) (st : Field) :
  asteroidsRef (resizeCanvasPreserve d container st) =
    if Rgt_dec (width (lastSizeRef st)) 0 then
      if Rgt_dec (height (lastSizeRef st)) 0 then
        if Rge_dec (Rabs (width container - width (lastSizeRef st))) 2 then
          map (scaled (width container / width (lastSizeRef st))
                      (height container / height (lastSizeRef st))) (asteroidsRef st)
        else asteroidsRef st
      else asteroidsRef st
    else asteroidsRef st.
Proof.
  unfold resizeCanvasPreserve. destruct container as [w h].
  destruct (lastSizeRef st) as [pw ph]. destruct (lastStableSizeRef st) as [sw sh].
  cbn [width height].
  destruct (Rgt_dec (Rabs (w - sw)) 1), (Rgt_dec (Rabs (h - sh)) 1); cbn [asteroidsRef];
    destruct (Rgt_dec pw 0); try reflexivity;
    destruct (Rgt_dec ph 0); try reflexivity;
    destruct (asteroidsRef st) as [| a l]; cbn [length Nat.ltb Nat.leb map];
    destruct (Rge_dec (Rabs (w - pw)) 2); reflexivity.
Qed.

Lemma resize_sizes (d : R) (container : Size) (st : Field) :
  let st' := resizeCanvasPreserve d container st in
  lastSizeRef st' = container ∧ labelRefs st' = labelRefs st ∧
  canvas st' =
    mkCanvas (floor (width container * Rmin (orOne d) 1.5))
             (floor (height container * Rmin (orOne d) 1.5))
             (width container) (height container) (Rmin (orOne d) 1.5).
Proof.
  cbv zeta. unfold resizeCanvasPreserve. destruct container as [w h].
  destruct (lastSizeRef st) as [pw ph]. destruct (lastStableSizeRef st) as [sw sh].
  cbn [width height].
  destruct (Rgt_dec (Rabs (w - sw)) 1), (Rgt_dec (Rabs (h - sh)) 1); auto.
Qed.

Lemma resize_readiness (d : R) (container : Size) (st : Field) :
  let st' := resizeCanvasPreserve d container st in
  let stable := lastStableSizeRef st in
  (Rabs (width container - width stable) > 1 ∨ Rabs (height container - height stable) > 1 →
     labelsReadyRef st' = false ∧ stableFramesRef st' = 0%nat ∧
     lastStableSizeRef st' = container) ∧
  (Rabs (width container - width stable) <= 1 → Rabs (height container - height stable) <= 1 →
     labelsReadyRef st' = labelsReadyRef st ∧ stableFramesRef st' = stableFramesRef st ∧
     lastStableSizeRef st' = stable).
Proof.
  cbv zeta. unfold resizeCanvasPreserve. destruct container as [w h].
  destruct (lastSizeRef st) as [pw ph]. destruct (lastStableSizeRef st) as [sw sh].
  cbn [width height].
  destruct (Rgt_dec (Rabs (w - sw)) 1), (Rgt_dec (Rabs (h - sh)) 1);
    cbn [labelsReadyRef stableFramesRef lastStableSizeRef]; split; auto; try lra.
Qed.

Lemma scaled_scaled (sx sy tx ty : R) (a : Asteroid) :
  scaled tx ty (scaled sx sy a) = scaled (sx * tx) (sy * ty) a.
Proof.
  unfold scaled, set_x, set_y. destruct a as [p0 x0 y0 s0 rot0 dx0 dy0 rs0 vs0 r0].
  cbn [project x y size rotation driftX driftY rotationSpeed vertices r].
  f_equal; ring.
Qed.

Lemma scaled_one (sx sy : R) (a : Asteroid) : sx = 1 → sy = 1 → scaled sx sy a = a.
Proof.
  intros -> ->. unfold scaled, set_x, set_y. destruct a as [p0 x0 y0 s0 rot0 dx0 dy0 rs0 vs0 r0].
  cbn [project x y size rotation driftX driftY rotationSpeed vertices r].
  f_equal; ring.
Qed.

(** X23. [resizeCanvasPreserve] on a change of width of 2 or more scales every
    position by the ratio of the sizes and changes nothing else of a body,
    so relative positions are kept; two such changes in a row scale by the
    ratio of the last size to the first, and coming back to the first size
    restores every body. *)
Theorem resize_composes (d1 d2 : R) (c1 c2 : Size) (st : Field) :
  let c0 := lastSizeRef st in
  0 < width c0 → 0 < height c0 → 0 < width c1 → 0 < height c1 →
  2 <= Rabs (width c1 - width c0) → 2 <= Rabs (width c2 - width c1) →
  let st1 := resizeCanvasPreserve d1 c1 st in
  let st2 := resizeCanvasPreserve d2 c2 st1 in
  asteroidsRef st1 = map (scaled (width c1 / width c0) (height c1 / height c0))
                         (asteroidsRef st) ∧
  asteroidsRef st2 = map (scaled (width c2 / width c0) (height c2 / height c0))
                         (asteroidsRef st) ∧
  (c2 = c0 → asteroidsRef st2 = asteroidsRef st) ∧
  (∀ i a, asteroidsRef st !! i = Some a →
     ∃ a', asteroidsRef st1 !! i = Some a' ∧
       x a' / width c1 = x a / width c0 ∧ y a' / height c1 = y a / height c0 ∧
       sameBody a a' ∧ driftX a' = driftX a ∧ driftY a' = driftY a).
Proof.
  intros c0 Hw0 Hh0 Hw1 Hh1 H01 H12 st1 st2.
  assert (E1 : asteroidsRef st1 = map (scaled (width c1 / width c0) (height c1 / height c0))
                                      (asteroidsRef st)).
  { unfold st1. rewrite resize_asteroids. fold c0.
    destruct (Rgt_dec (width c0) 0); [| lra]. destruct (Rgt_dec (height c0) 0); [| lra].
    destruct (Rge_dec _ 2); [reflexivity | lra]. }
  assert (E2 : asteroidsRef st2 = map (scaled (width c2 / width c0) (height c2 / height c0))
                                      (asteroidsRef st)).
  { unfold st2. rewrite resize_asteroids.
    destruct (resize_sizes d1 c1 st) as (Hl & _). fold st1 in Hl. rewrite Hl.
    destruct (Rgt_dec (width c1) 0); [| lra]. destruct (Rgt_dec (height c1) 0); [| lra].
    destruct (Rge_dec _ 2); [| lra].
    rewrite E1, map_map. apply map_ext. intros a. rewrite scaled_scaled.
    f_equal; field; lra. }
  split_and!; auto.
  - intros ->. rewrite E2. rewrite <- (map_id (asteroidsRef st)) at 2.
    apply map_ext. intros a. apply scaled_one; field; fold c0; lra.
  - intros i a Ha. exists (scaled (width c1 / width c0) (height c1 / height c0) a). split.
    + rewrite E1. change (map ?f ?l) with (f <$> l). rewrite list_lookup_fmap, Ha. reflexivity.
    + unfold scaled, sameBody, set_x, set_y. destruct a as [p0 x0 y0 s0 rot0 dx0 dy0 rs0 vs0 r0].
      cbn [project x y size rotation driftX driftY rotationSpeed vertices r].
      split_and!; try reflexivity; field; lra.
Qed.

Lemma resize_composes_witness :
  let st := twoRocks in
  let c0 := lastSizeRef st in
  let st1 := resizeCanvasPreserve 1 (mkSize 1200 900) st in
  let st2 := resizeCanvasPreserve 1 (mkSize 1000 800) st1 in
  asteroidsRef st1 = map (scaled (width (mkSize 1200 900) / width c0)
                                 (height (mkSize 1200 900) / height c0))
                         (asteroidsRef st) ∧
  asteroidsRef st2 = map (scaled (width (mkSize 1000 800) / width c0)
                                 (height (mkSize 1000 800) / height c0))
                         (asteroidsRef st) ∧
  (mkSize 1000 800 = c0 → asteroidsRef st2 = asteroidsRef st) ∧
  (∀ i a, asteroidsRef st !! i = Some a →
     ∃ a', asteroidsRef st1 !! i = Some a' ∧
       x a' / width (mkSize 1200 900) = x a / width c0 ∧
       y a' / height (mkSize 1200 900) = y a / height c0 ∧
       sameBody a a' ∧ driftX a' = driftX a ∧ driftY a' = driftY a).
Proof.
  apply (resize_composes 1 1 (mkSize 1200 900) (mkSize 1000 800) twoRocks);
    cbn [lastSizeRef twoRocks width height]; try lra.
  - replace (1200 - 1000) with 200 by lra. rewrite Rabs_right; lra.
  - replace (1000 - 1200) with (-200) by lra. rewrite Rabs_left; lra.
Defined.

(** X24. [resizeCanvasPreserve] records the new size and keeps the labels and the
    number of bodies.  A change of width of less than 2, whatever the change
    of height, moves no body, and neither does a resize from a size that is
    not positive.  A change of more than 1 in width or height from the last
    stable size resets the readiness of the labels and the count of stable
    frames; otherwise they are kept.  The scale of the canvas is at most
    1.5 and its width and height are the floors of the scaled size. *)
Theorem resize_small_change (d : R) (container : Size) (st : Field) :
  let st' := resizeCanvasPreserve d container st in
  let stable := lastStableSizeRef st in
  lastSizeRef st' = container ∧ labelRefs st' = labelRefs st ∧
  length (asteroidsRef st') = length (asteroidsRef st) ∧
  (Rabs (width container - width (lastSizeRef st)) < 2 →
     asteroidsRef st' = asteroidsRef st) ∧
  (width (lastSizeRef st) <= 0 ∨ height (lastSizeRef st) <= 0 →
     asteroidsRef st' = asteroidsRef st) ∧
  (Rabs (width container - width stable) > 1 ∨ Rabs (height container - height stable) > 1 →
     labelsReadyRef st' = false ∧ stableFramesRef st' = 0%nat ∧
     lastStableSizeRef st' = container) ∧
  (Rabs (width container - width stable) <= 1 → Rabs (height container - height stable) <= 1 →
     labelsReadyRef st' = labelsReadyRef st ∧ stableFramesRef st' = stableFramesRef st ∧
     lastStableSizeRef st' = stable) ∧
  scale (canvas st') <= 1.5 ∧
  canvasWidth (canvas st') <= width container * scale (canvas st')
    < canvasWidth (canvas st') + 1 ∧
  canvasHeight (canvas st') <= height container * scale (canvas st')
    < canvasHeight (canvas st') + 1.
Proof.
  cbv zeta. destruct (resize_sizes d container st) as (H1 & H2 & H3).
  destruct (resize_readiness d container st) as (H4 & H5).
  pose proof (resize_asteroids d container st) as H6.
  split_and!; auto.
  - rewrite H6. repeat rdec_step; try reflexivity. apply length_map.
  - intros H. rewrite H6. repeat rdec_step; try reflexivity. lra.
  - intros H. rewrite H6. repeat rdec_step; try reflexivity; lra.
  - rewrite H3. cbn [scale]. apply Rmin_r.
  - rewrite H3. cbn [scale canvasWidth]. unfold floor. apply Zfloor_bound.
  - rewrite H3. cbn [scale canvasWidth]. unfold floor. apply Zfloor_bound.
  - rewrite H3. cbn [scale canvasHeight]. unfold floor. apply Zfloor_bound.
  - rewrite H3. cbn [scale canvasHeight]. unfold floor. apply Zfloor_bound.
Qed.

(** ** Resize callbacks *)

(** X25. The two resize callbacks do nothing when the width is known and has
    changed by less than 2.  Otherwise the callback of the resize observer
    builds the bodies anew with [initAsteroids] and the resize that follows
    does not scale them, while the callback of the viewport is
    [resizeCanvasPreserve]. *)
Theorem container_resize_respawns (win : Window) (draws : nat → R) (d : R)
    (container : Size) (projectsData : list Project) (st : Field) (k : nat) :
  (unchangedWidth container st = true →
     onContainerResize win draws d container projectsData st k = Normal (st, k) ∧
     onViewportResize d container st = st) ∧
  (unchangedWidth container st = false →
     ∃ st0 st1 k1,
       initAsteroids win draws (Some container) projectsData st k = Normal (st0, k1) ∧
       onContainerResize win draws d container projectsData st k = Normal (st1, k1) ∧
       asteroidsRef st1 = asteroidsRef st0 ∧ lastSizeRef st1 = container ∧
       k1 = (k + 5 * length projectsData)%nat ∧
       length (asteroidsRef st1) = length projectsData ∧
       onViewportResize d container st = resizeCanvasPreserve d container st).
Proof.
  split; intros H; unfold onContainerResize, onViewportResize; rewrite H; [auto |].
  destruct (initAsteroids_spec win draws container projectsData st k)
    as (settled & Hinit & Hsame & _).
  rewrite Hinit. cbn [mbind completion_bind].
  eexists _, _, _. split; [reflexivity |]. split; [reflexivity |].
  destruct (spawnAll_spec draws (width container) (height container) projectsData k)
    as (_ & Hlen & _).
  assert (Ea : asteroidsRef (resizeCanvasPreserve d container
                 (mkField settled container (labelRefs st) (labelsReadyRef st)
                    (stableFramesRef st) (lastStableSizeRef st) (canvas st))) = settled).
  { rewrite resize_asteroids. cbn [lastSizeRef asteroidsRef].
    rewrite Rminus_diag, Rabs_R0.
    repeat rdec_step; try reflexivity. lra. }
  split_and!; auto.
  - apply resize_sizes.
  - rewrite Ea, <- (Forall2_length _ _ _ Hsame). exact Hlen.
Qed.

(** ** Hyperspeed transition *)

Lemma easeProgress_nonneg (p : R) : 0 <= easeProgress p.
Proof. unfold easeProgress. destruct (Rlt_dec p 0.3); nra. Qed.

Lemma easeProgress_mono (p q : R) : 0 <= p <= q → easeProgress p <= easeProgress q.
Proof.
  intros H. unfold easeProgress.
  destruct (Rlt_dec p 0.3), (Rlt_dec q 0.3); nra.
Qed.

Lemma progressOf_le_1 (startTime t : R) : progressOf startTime t <= 1.
Proof. unfold progressOf. apply Rmin_r. Qed.

Lemma progressOf_lt_1 (startTime t : R) :
  progressOf startTime t < 1 ↔ t - startTime < 800.
Proof.
  unfold progressOf, duration. cbv zeta. unfold Rmin.
  destruct (Rle_dec ((t - startTime) / 800) 1) as [H | H]; split; intros H'; lra.
Qed.

(** X26. The progress of the transition, from its start on, lies in [0, 1], does
    not decrease with time, equals elapsed / 800 until it reaches 1, and is
    1 exactly from 800 ms on.  The eased progress lies in [0, 3.1] and does
    not decrease with time; it stays below 0.9 while the progress is below
    0.3 and is at least 1 from there on. *)
Theorem transition_timing (startTime t t' : R) :
  startTime <= t <= t' →
  0 <= progressOf startTime t <= 1 ∧
  progressOf startTime t <= progressOf startTime t' ∧
  (progressOf startTime t = 1 ↔ 800 <= t - startTime) ∧
  (progressOf startTime t < 1 → progressOf startTime t = (t - startTime) / 800) ∧
  0 <= easeProgress (progressOf startTime t) <= 3.1 ∧
  easeProgress (progressOf startTime t) <= easeProgress (progressOf startTime t') ∧
  (progressOf startTime t < 0.3 → easeProgress (progressOf startTime t) < 0.9) ∧
  (0.3 <= progressOf startTime t → 1 <= easeProgress (progressOf startTime t)).
Proof.
  intros H.
  assert (Hp : ∀ u, startTime <= u → 0 <= progressOf startTime u <= 1).
  { intros u Hu. split; [| apply progressOf_le_1].
    unfold progressOf, duration. cbv zeta. apply Rmin_glb; lra. }
  assert (Hm : progressOf startTime t <= progressOf startTime t').
  { unfold progressOf, duration. cbv zeta. unfold Rmin. rdec; lra. }
  pose proof (Hp t ltac:(lra)) as Ht.
  split_and!; try lra.
  - pose proof (progressOf_lt_1 startTime t). pose proof (progressOf_le_1 startTime t).
    split; intros; lra.
  - intros H'. apply progressOf_lt_1 in H'.
    unfold progressOf, duration. cbv zeta. unfold Rmin. rdec; lra.
  - apply easeProgress_nonneg.
  - unfold easeProgress. destruct (Rlt_dec _ 0.3); nra.
  - apply easeProgress_mono. lra.
  - intros H'. unfold easeProgress. destruct (Rlt_dec _ 0.3); nra.
  - intros H'. unfold easeProgress. destruct (Rlt_dec _ 0.3); nra.
Qed.

Lemma transition_timing_witness :
  0 <= progressOf 0 400 <= 1 ∧
  progressOf 0 400 <= progressOf 0 900 ∧
  (progressOf 0 400 = 1 ↔ 800 <= 400 - 0) ∧
  (progressOf 0 400 < 1 → progressOf 0 400 = (400 - 0) / 800) ∧
  0 <= easeProgress (progressOf 0 400) <= 3.1 ∧
  easeProgress (progressOf 0 400) <= easeProgress (progressOf 0 900) ∧
  (progressOf 0 400 < 0.3 → easeProgress (progressOf 0 400) < 0.9) ∧
  (0.3 <= progressOf 0 400 → 1 <= easeProgress (progressOf 0 400)).
Proof. apply (transition_timing 0 400 900). lra. Defined.

Lemma moveStar_star (draws : nat → R) (width height progress : R) (star : Star) (k : nat) :
  let z := starZ star - easeProgress progress * 80 in
  (moveStar draws width height progress star k).1.1 =
    (if Rle_dec z 0 then
       mkStar ((draws k - 0.5) * width * 2) ((draws (S k) - 0.5) * height * 2) 1500
              (starSize star)
     else mkStar (starX star) (starY star) z (starSize star)) ∧
  (moveStar draws width height progress star k).2 = (if Rle_dec z 0 then S (S k) else k).
Proof.
  cbv zeta. unfold moveStar, random. cbv zeta.
  destruct (Rle_dec (starZ star - easeProgress progress * 80) 0);
    cbn [fst snd starX starY starZ starSize];
    repeat rdec_step; cbn [fst snd]; split; reflexivity.
Qed.

Lemma moveStar_streak (draws : nat → R) (width height progress : R) (star : Star) (k : nat)
    (s : Streak) :
  (moveStar draws width height progress star k).1.2 = Some s →
  let star' := (moveStar draws width height progress star k).1.1 in
  let prevZ := starZ star' + easeProgress progress * 80 in
  screenX s = width / 2 + starX star' * (400 / starZ star') ∧
  screenY s = height / 2 + starY star' * (400 / starZ star') ∧
  prevScreenX s = width / 2 + starX star' * (400 / prevZ) ∧
  prevScreenY s = height / 2 + starY star' * (400 / prevZ) ∧
  alpha s = Rmin (0.3 + (1 - starZ star' / 1500) * 0.7) 1 ∧
  lineWidth s = starSize star' * (0.5 + progress) ∧
  pointRadius s = starSize star' * (0.5 + progress * 0.5) ∧
  -50 <= screenX s <= width + 50 ∧ -50 <= screenY s <= height + 50.
Proof.
  cbv zeta. unfold moveStar, random. cbv zeta.
  destruct (Rle_dec (starZ star - easeProgress progress * 80) 0);
    cbn [fst snd starX starY starZ starSize];
    repeat rdec_step; cbn [fst snd]; try discriminate;
    intros [= <-]; cbn [screenX screenY prevScreenX prevScreenY alpha lineWidth pointRadius];
    split_and!; try reflexivity; lra.
Qed.

(** A star is kept in front of the screen. *)
Lemma moveStar_depth (draws : nat → R) (width height progress : R) (star : Star) (k : nat) :
  let star' := (moveStar draws width height progress star k).1.1 in
  0 < starZ star' ∧ starZ star' <= Rmax (starZ star) 1500 ∧
  0 < starZ star' + easeProgress progress * 80 ∧
  starSize star' = starSize star.
Proof.
  cbv zeta. destruct (moveStar_star draws width height progress star k) as [-> _].
  cbv zeta. pose proof (easeProgress_nonneg progress) as He.
  destruct (Rle_dec (starZ star - easeProgress progress * 80) 0);
    cbn [starZ starSize]; unfold Rmax; rdec; split_and!; try reflexivity; lra.
Qed.

Lemma moveStars_cons (draws : nat → R) (width height progress : R) (star : Star)
    (stars : list Star) (k : nat) :
  let one := moveStar draws width height progress star k in
  let rest := moveStars draws width height progress stars one.2 in
  moveStars draws width height progress (star :: stars) k =
    (one.1.1 :: rest.1.1,
     match one.1.2 with Some s => s :: rest.1.2 | None => rest.1.2 end,
     rest.2).
Proof.
  cbv zeta. cbn [moveStars].
  destruct (moveStar draws width height progress star k) as [[star' drawn] k1].
  cbn [fst snd].
  destruct (moveStars draws width height progress stars k1) as [[rest streaks] k2].
  reflexivity.
Qed.

Lemma moveStars_spec (draws : nat → R) (width height progress : R) (stars : list Star)
    (k : nat) :
  let res := moveStars draws width height progress stars k in
  length res.1.1 = length stars ∧
  (∀ i star, stars !! i = Some star →
     ∃ star', res.1.1 !! i = Some star' ∧
       0 < starZ star' ∧ starZ star' <= Rmax (starZ star) 1500 ∧
       0 < starZ star' + easeProgress progress * 80 ∧ starSize star' = starSize star) ∧
  (∀ s, s ∈ res.1.2 →
     ∃ star', star' ∈ res.1.1 ∧
       screenX s = width / 2 + starX star' * (400 / starZ star') ∧
       screenY s = height / 2 + starY star' * (400 / starZ star') ∧
       prevScreenX s = width / 2
                       + starX star' * (400 / (starZ star' + easeProgress progress * 80)) ∧
       prevScreenY s = height / 2
                       + starY star' * (400 / (starZ star' + easeProgress progress * 80)) ∧
       alpha s = Rmin (0.3 + (1 - starZ star' / 1500) * 0.7) 1 ∧
       -50 <= screenX s <= width + 50 ∧ -50 <= screenY s <= height + 50).
Proof.
  cbv zeta. revert k. induction stars as [| star stars IH]; intros k.
  - cbn. split_and!; [reflexivity | intros i s H; discriminate | intros s H; inversion H].
  - rewrite moveStars_cons. cbv zeta. cbn [fst snd length].
    set (one := moveStar draws width height progress star k).
    destruct (IH one.2) as (H1 & H2 & H3).
    split_and!.
    + rewrite H1. reflexivity.
    + intros [| i] s Hs.
      * injection Hs as <-. exists one.1.1. split; [reflexivity |].
        apply (moveStar_depth draws width height progress star k).
      * apply (H2 i s Hs).
    + intros s Hs.
      assert (Hrest : s ∈ (moveStars draws width height progress stars one.2).1.2 →
                ∃ star', star' ∈ one.1.1 :: (moveStars draws width height progress stars one.2).1.1 ∧
       screenX s = width / 2 + starX star' * (400 / starZ star') ∧
       screenY s = height / 2 + starY star' * (400 / starZ star') ∧
       prevScreenX s = width / 2
                       + starX star' * (400 / (starZ star' + easeProgress progress * 80)) ∧
       prevScreenY s = height / 2
                       + starY star' * (400 / (starZ star' + easeProgress progress * 80)) ∧
       alpha s = Rmin (0.3 + (1 - starZ star' / 1500) * 0.7) 1 ∧
       -50 <= screenX s <= width + 50 ∧ -50 <= screenY s <= height + 50).
      { intros H. destruct (H3 s H) as (star' & Hin & Hrest).
        exists star'. split; [right; exact Hin | exact Hrest]. }
      destruct (one.1.2) as [s0 |] eqn:E0; [| apply Hrest, Hs].
      apply elem_of_cons in Hs as [-> | Hs]; [| apply Hrest, Hs].
      exists one.1.1. split; [left |].
      pose proof (moveStar_streak draws width height progress star k s0 E0) as Hk.
      cbv zeta in Hk. fold one in Hk. tauto.
Qed.

(** X27. A frame of the transition on stars of depth in (0, 2000): it keeps the
    number of stars and every depth in (0, 2000), so neither perspective
    division is by zero; every streak drawn has an opacity in (1/15, 1),
    ends no farther than 50 pixels outside the screen, at the projection
    (by 400 / z about the centre of the screen) of a star as the frame
    leaves it, and starts at the projection of the same star at the depth
    z + 80 ease; and the frame requests another frame exactly while less
    than 800 ms have elapsed, and completes otherwise. *)
Theorem hyperspeed_frame_depths (draws : nat → R) (width height startTime t : R)
    (stars : list Star) (k : nat) :
  (∀ s, s ∈ stars → 0 < starZ s < 2000) →
  let frame := hyperspeedFrame draws width height startTime t stars k in
  let ease := easeProgress (progressOf startTime t) in
  length frame.1.1.1 = length stars ∧
  (∀ s, s ∈ frame.1.1.1 → 0 < starZ s < 2000 ∧ 0 < starZ s + ease * 80) ∧
  (∀ s, s ∈ frame.1.1.2 →
     1 / 15 < alpha s < 1 ∧
     -50 <= screenX s <= width + 50 ∧ -50 <= screenY s <= height + 50 ∧
     ∃ star, star ∈ frame.1.1.1 ∧
       (screenX s - width / 2) * starZ star = starX star * 400 ∧
       (screenY s - height / 2) * starZ star = starY star * 400 ∧
       (prevScreenX s - width / 2) * (starZ star + ease * 80) = starX star * 400 ∧
       (prevScreenY s - height / 2) * (starZ star + ease * 80) = starY star * 400) ∧
  (frame.2 = Complete ↔ 800 <= t - startTime) ∧
  (frame.2 = RequestFrame ↔ t - startTime < 800).
Proof.
  intros Hz. cbv zeta. unfold hyperspeedFrame. cbv zeta.
  set (progress := progressOf startTime t).
  destruct (moveStars_spec draws width height progress stars k) as (H1 & H2 & H3).
  destruct (moveStars draws width height progress stars k) as [[stars' streaks] k'].
  cbn [fst snd] in *.
  assert (Hd : ∀ s, s ∈ stars' → 0 < starZ s < 2000 ∧ 0 < starZ s + easeProgress progress * 80).
  { intros s Hs. apply list_elem_of_lookup in Hs as (i & Hi).
    destruct (stars !! i) as [s0 |] eqn:E0.
    - destruct (H2 i s0 E0) as (s' & Hs' & Hpos & Hle & Hprev & _).
      rewrite Hi in Hs'. injection Hs' as <-.
      specialize (Hz s0 ltac:(eapply list_elem_of_lookup_2, E0)).
      split; [| exact Hprev]. split; [exact Hpos |].
      eapply Rle_lt_trans; [exact Hle |]. unfold Rmax. rdec; lra.
    - apply lookup_ge_None in E0. apply lookup_lt_Some in Hi. lia. }
  split_and!; auto.
  - intros s Hs. destruct (H3 s Hs) as (star' & Hin & Hx & Hy & Hpx & Hpy & Ha & Hbx & Hby).
    destruct (Hd star' Hin) as [[Hz1 Hz2] Hz3].
    split_and!; try lra.
    + rewrite Ha. unfold Rmin. rdec; lra.
    + rewrite Ha. unfold Rmin. rdec; lra.
    + exists star'. split; [exact Hin |].
      rewrite Hx, Hy, Hpx, Hpy. split_and!; field; lra.
  - pose proof (progressOf_lt_1 startTime t) as Hp. fold progress in Hp.
    destruct (Rlt_dec progress 1); split; intros H; try discriminate; try reflexivity; lra.
  - pose proof (progressOf_lt_1 startTime t) as Hp. fold progress in Hp.
    destruct (Rlt_dec progress 1); split; intros H; try discriminate; try reflexivity; lra.
Qed.

Lemma hyperspeed_frame_depths_witness :
  let frame := hyperspeedFrame evenDraws 1000 800 0 400 [mkStar 100 50 1000 2] 0 in
  let ease := easeProgress (progressOf 0 400) in
  length frame.1.1.1 = length [mkStar 100 50 1000 2] ∧
  (∀ s, s ∈ frame.1.1.1 → 0 < starZ s < 2000 ∧ 0 < starZ s + ease * 80) ∧
  (∀ s, s ∈ frame.1.1.2 →
     1 / 15 < alpha s < 1 ∧
     -50 <= screenX s <= 1000 + 50 ∧ -50 <= screenY s <= 800 + 50 ∧
     ∃ star, star ∈ frame.1.1.1 ∧
       (screenX s - 1000 / 2) * starZ star = starX star * 400 ∧
       (screenY s - 800 / 2) * starZ star = starY star * 400 ∧
       (prevScreenX s - 1000 / 2) * (starZ star + ease * 80) = starX star * 400 ∧
       (prevScreenY s - 800 / 2) * (starZ star + ease * 80) = starY star * 400) ∧
  (frame.2 = Complete ↔ 800 <= 400 - 0) ∧
  (frame.2 = RequestFrame ↔ 400 - 0 < 800).
Proof.
  apply (hyperspeed_frame_depths evenDraws 1000 800 0 400 [mkStar 100 50 1000 2] 0).
  intros s Hs. each_elem Hs. cbn [starZ]. lra.
Defined.

Lemma newStar_fields (draws : nat → R) (width height : R) (k : nat) :
  newStar draws width height k =
    (mkStar ((draws k - 0.5) * width * 2) ((draws (S k) - 0.5) * height * 2)
            (draws (S (S k)) * 1500 + 500) (draws (S (S (S k))) * 2 + 1),
     S (S (S (S k)))).
Proof. reflexivity. Qed.

Lemma createStars_cons (draws : nat → R) (width height : R) (n k : nat) :
  createStars draws width height (S n) k =
    ((newStar draws width height k).1 ::
       (createStars draws width height n (S (S (S (S k))))).1,
     (createStars draws width height n (S (S (S (S k))))).2).
Proof.
  cbn [createStars]. rewrite newStar_fields. cbn [fst snd].
  destruct (createStars draws width height n (S (S (S (S k))))) as [rest k']. reflexivity.
Qed.

(** X28. With draws in [0, 1) and a screen of non-negative size, the n stars
    created take four draws each, have a depth in [500, 2000), a size in
    [1, 3) and a position within one screen width and height of the
    centre. *)
Theorem created_stars (draws : nat → R) (width height : R) (n k : nat) :
  (∀ i, 0 <= draws i < 1) → 0 <= width → 0 <= height →
  length (createStars draws width height n k).1 = n ∧
  (createStars draws width height n k).2 = (k + 4 * n)%nat ∧
  ∀ s, s ∈ (createStars draws width height n k).1 →
    500 <= starZ s < 2000 ∧ 1 <= starSize s < 3 ∧
    - width <= starX s <= width ∧ - height <= starY s <= height.
Proof.
  intros Hd Hw Hh. revert k. induction n as [| n IH]; intros k.
  - cbn. split_and!; [reflexivity | lia | intros s H; inversion H].
  - rewrite createStars_cons. cbn [fst snd length]. destruct (IH (S (S (S (S k))))) as (H1 & H2 & H3).
    split_and!; [rewrite H1; reflexivity | rewrite H2; lia |].
    intros s Hs. apply elem_of_cons in Hs as [-> | Hs]; [| apply H3, Hs].
    rewrite newStar_fields. cbn [fst starX starY starZ starSize].
    pose proof (Hd k). pose proof (Hd (S k)). pose proof (Hd (S (S k))).
    pose proof (Hd (S (S (S k)))). split_and!; nra.
Qed.

Lemma created_stars_witness :
  length (createStars evenDraws 1000 800 300 0).1 = 300%nat ∧
  (createStars evenDraws 1000 800 300 0).2 = (0 + 4 * 300)%nat ∧
  ∀ s, s ∈ (createStars evenDraws 1000 800 300 0).1 →
    500 <= starZ s < 2000 ∧ 1 <= starSize s < 3 ∧
    - 1000 <= starX s <= 1000 ∧ - 800 <= starY s <= 800.
Proof.
  apply (created_stars evenDraws 1000 800 300 0); [| lra | lra].
  intros i. unfold evenDraws. lra.
Defined.

(** ** Moving the field *)

